(** * gojsonsm: the flat boolean decision tree and the filter-expression parser

    A shallow embedding of [bintree.go] (the tree, its validation and the
    three-valued evaluation state) and of the conversion half of
    [filterExprParser.go] (the syntax tree the grammar fills, its count of
    parentheses and its [OutputExpression] methods), with the properties of
    the natural-language specification stated and proved over it.

    Conventions.
    - Go [int] values (node indices, pointers, node types) are [Z]; no
      arithmetic in the embedded code can leave the 64-bit range, since every
      value is an index below the length of a slice, such an index plus one,
      or a count of list elements.
    - A slice access [s[i]] is [zget s i]; it has no value when [i] is
      negative or not below the length, and the embedding then panics the
      way the Go runtime does.
    - Functions that mutate a [binTreeState] return an [outcome]: the state
      after a normal return, or the state at the moment of a panic.
    - Recursion that is not structural in Go runs on fuel here; the entry
      points pick the fuel themselves and are proved never to run out.
    - What the two files use and the package declares elsewhere (the
      expression tree, the error values, the lexemes, the regular
      expressions) is a parameter, [Externals], or is modelled from the
      specification and marked so. *)

From Stdlib Require Import String Ascii ZArith List Bool Lia.
From Stdlib Require Import Floats DecimalString.
Import ListNotations.
Local Open Scope string_scope.
Local Open Scope Z_scope.
Local Set Warnings "-register-all".

(* ------------------------------------------------------------------ *)
(** * Slices indexed by Go integers *)

Fixpoint list_set {A : Type} (l : list A) (n : nat) (v : A) : list A :=
  match l, n with
  | [], _ => []
  | _ :: tl, O => v :: tl
  | x :: tl, S n' => x :: list_set tl n' v
  end.

Definition zget {A : Type} (l : list A) (i : Z) : option A :=
  if i <? 0 then None else nth_error l (Z.to_nat i).

Definition zset {A : Type} (l : list A) (i : Z) (v : A) : list A :=
  if i <? 0 then l else list_set l (Z.to_nat i) v.

Definition zlen {A : Type} (l : list A) : Z := Z.of_nat (length l).

(* ------------------------------------------------------------------ *)
(** * Panics and results *)

Inductive panic : Type :=
| IndexOutOfRange
| NilDereference
| PanicMsg (msg : string).

(** Result of a Go function that does not touch a tree state. *)
Inductive result (A : Type) : Type :=
| Ret (a : A)
| Crash (p : panic)
| NoFuel.

Arguments Ret {A} a.
Arguments Crash {A} p.
Arguments NoFuel {A}.

Definition rbind {A B : Type} (r : result A) (k : A -> result B) : result B :=
  match r with
  | Ret a => k a
  | Crash p => Crash p
  | NoFuel => NoFuel
  end.

(* ------------------------------------------------------------------ *)
(** * bintree.go: the tree *)

Definition BinTreeNodeType : Type := Z.

Definition nodeTypeLeaf : BinTreeNodeType := 0.
Definition nodeTypeOr : BinTreeNodeType := 1.
Definition nodeTypeAnd : BinTreeNodeType := 2.
Definition nodeTypeNot : BinTreeNodeType := 3.
Definition nodeTypeNeor : BinTreeNodeType := 4.
Definition nodeTypeLoop : BinTreeNodeType := 5.

Definition binTreeNodeTypeHasLeft (nodeType : BinTreeNodeType) : bool :=
  negb (nodeType =? nodeTypeLeaf).

Definition binTreeNodeTypeHasRight (nodeType : BinTreeNodeType) : bool :=
  negb (nodeType =? nodeTypeLeaf) && negb (nodeType =? nodeTypeNot)
  && negb (nodeType =? nodeTypeLoop).

Record binTreeNode : Type := NewBinTreeNode {
  NodeType : BinTreeNodeType;
  ParentIdx : Z;
  Left : Z;
  Right : Z
}.

Definition binTree : Type := list binTreeNode.

Definition NumNodes (tree : binTree) : Z := zlen tree.

(** [validateItem] returns the Go pair [(int, error)]; the error is the
    message given to [errors.New], [None] standing for [nil].  [vthen r k]
    is the Go idiom [pos, err = r; if err != nil { return -1, err }; k pos]. *)
Definition vthen (r : result (Z * option string))
  (k : Z -> result (Z * option string)) : result (Z * option string) :=
  rbind r (fun pe =>
    match snd pe with
    | Some err => Ret (-1, Some err)
    | None => k (fst pe)
    end).

Fixpoint validateItem (fuel : nat) (tree : binTree) (item parent : Z)
  : result (Z * option string) :=
  match fuel with
  | O => NoFuel
  | S fuel' =>
    match zget tree item with
    | None => Crash IndexOutOfRange
    | Some idata =>
      if negb (ParentIdx idata =? parent) then
        Ret (-1, Some "parent index doesnt match child")
      else if NodeType idata =? nodeTypeLeaf then
        (* Leafs should not have any children *)
        Ret (item + 1, None)
      else if negb ((NodeType idata =? nodeTypeAnd)
                    || (NodeType idata =? nodeTypeOr)
                    || (NodeType idata =? nodeTypeNot)
                    || (NodeType idata =? nodeTypeNeor)
                    || (NodeType idata =? nodeTypeLoop)) then
        (* Invalid node type *)
        Ret (-1, Some "unexpected node type")
      else
        let leftErr :=
          if negb (binTreeNodeTypeHasLeft (NodeType idata)) then
            (* Left must not be set *)
            if negb (Left idata =? 0)
            then Some "expected left to be undefined" else None
          else
            (* Left must be set, and be inside the tree *)
            if (Left idata <=? 0) || (Left idata >=? zlen tree)
            then Some "expected left to be defined, and inside the tree"
            else None in
        let rightErr :=
          if negb (binTreeNodeTypeHasRight (NodeType idata)) then
            (* Right must not be set *)
            if negb (Right idata =? 0)
            then Some "expected right to be undefined" else None
          else
            (* Right must be set, and be inside the tree *)
            if (Right idata <=? 0) || (Right idata >=? zlen tree)
            then Some "expected right to be defined, and inside the tree"
            else None in
        match leftErr with
        | Some err => Ret (-1, Some err)
        | None =>
          match rightErr with
          | Some err => Ret (-1, Some err)
          | None =>
            (* Check the children *)
            vthen (if binTreeNodeTypeHasLeft (NodeType idata)
                   then validateItem fuel' tree (item + 1) item
                   else Ret (item + 1, None)) (fun pos =>
            vthen (if binTreeNodeTypeHasRight (NodeType idata)
                   then validateItem fuel' tree pos item
                   else Ret (pos, None)) (fun pos' =>
            Ret (pos', None)))
          end
        end
    end
  end.

(** Every call of [validateItem] is on a larger item than its caller's, and
    an item past the end panics, so the depth is at most the length. *)
Definition Validate (tree : binTree) : result (option string) :=
  rbind (validateItem (S (length tree)) tree 0 0) (fun pe =>
    match snd pe with
    | Some err => Ret (Some err)
    | None =>
      if negb (fst pe =? zlen tree) then
        Ret (Some "tree does not encompase all nodes")
      else Ret None
    end).

(* ------------------------------------------------------------------ *)
(** * bintree.go: the evaluation state *)

Inductive binTreeStateValue : Type :=
| binTreeStateUnknown
| binTreeStateResolved
| binTreeStateTrue
| binTreeStateFalse.

Definition isUnknown (v : binTreeStateValue) : bool :=
  match v with binTreeStateUnknown => true | _ => false end.

Definition isTrue (v : binTreeStateValue) : bool :=
  match v with binTreeStateTrue => true | _ => false end.

Definition isFalse (v : binTreeStateValue) : bool :=
  match v with binTreeStateFalse => true | _ => false end.

Record binTreeState : Type := mkState {
  tree : binTree;
  data : list binTreeStateValue;
  stallIndex : Z
}.

Definition NewState (t : binTree) : binTreeState :=
  mkState t (repeat binTreeStateUnknown (length t)) 0.

(** [state.data[index] = v] *)
Definition setData (state : binTreeState) (index : Z) (v : binTreeStateValue)
  : binTreeState :=
  mkState (tree state) (zset (data state) index v) (stallIndex state).

Inductive outcome : Type :=
| Done (state : binTreeState)
| Panic (p : panic) (state : binTreeState)
| OutOfFuel.

Definition bind (o : outcome) (k : binTreeState -> outcome) : outcome :=
  match o with
  | Done state => k state
  | Panic p state => Panic p state
  | OutOfFuel => OutOfFuel
  end.

(** The state an outcome ends in, after a return or at a panic. *)
Definition finalState (o : outcome) : option binTreeState :=
  match o with
  | Done state => Some state
  | Panic _ state => Some state
  | OutOfFuel => None
  end.

(** Reading [state.data[index]], panicking out of range. *)
Definition withData (state : binTreeState) (index : Z)
  (k : binTreeStateValue -> outcome) : outcome :=
  match zget (data state) index with
  | None => Panic IndexOutOfRange state
  | Some v => k v
  end.

(** Reading [state.tree.data[index]], panicking out of range. *)
Definition withNode (state : binTreeState) (index : Z)
  (k : binTreeNode -> outcome) : outcome :=
  match zget (tree state) index with
  | None => Panic IndexOutOfRange state
  | Some defNode => k defNode
  end.

(** The loop of [CopyFrom], [for i, item := range ostate.data {
    state.data[i] = item }], from the index [i] on. *)
Fixpoint CopyFrom_loop (i : Z) (items : list binTreeStateValue)
  (state : binTreeState) : outcome :=
  match items with
  | [] => Done state
  | item :: rest =>
    if i >=? zlen (data state) then Panic IndexOutOfRange state
    else CopyFrom_loop (i + 1) rest (setData state i item)
  end.

(** [state.tree] and [ostate.tree] are pointers and the first test compares
    the pointers.  The states of the embedding hold the tree itself, so the
    outcome of the comparison, [sameTree], comes with the call. *)
Definition CopyFrom (state ostate : binTreeState) (sameTree : bool)
  : outcome :=
  if negb sameTree then
    Panic (PanicMsg "cannot copy from different tree") state
  else CopyFrom_loop 0 (data ostate) state.

(** [SetStallIndex] returns the previous stall index with the new state. *)
Definition SetStallIndex (state : binTreeState) (index : Z)
  : Z * binTreeState :=
  (stallIndex state, mkState (tree state) (data state) index).

Definition IsResolved (state : binTreeState) (index : Z) : result bool :=
  match zget (data state) index with
  | None => Crash IndexOutOfRange
  | Some v => Ret (negb (isUnknown v))
  end.

Definition IsTrue (state : binTreeState) (index : Z) : result bool :=
  match zget (data state) index with
  | None => Crash IndexOutOfRange
  | Some v => Ret (isTrue v)
  end.

Definition Reset (state : binTreeState) : binTreeState :=
  mkState (tree state) (map (fun _ => binTreeStateUnknown) (data state)) 0.

(** [resetNodeRecursive] follows the left and right links without any guard:
    on links that form a cycle the Go code does not return, and the fuel
    runs out here. *)
Fixpoint resetNodeRecursive (fuel : nat) (state : binTreeState) (index : Z)
  : outcome :=
  match fuel with
  | O => OutOfFuel
  | S fuel' =>
    if (index <? 0) || (index >=? zlen (data state)) then
      Panic IndexOutOfRange state
    else
      let state1 := setData state index binTreeStateUnknown in
      withNode state1 index (fun defNode =>
      bind (if binTreeNodeTypeHasLeft (NodeType defNode)
            then resetNodeRecursive fuel' state1 (Left defNode)
            else Done state1) (fun state2 =>
      if binTreeNodeTypeHasRight (NodeType defNode)
      then resetNodeRecursive fuel' state2 (Right defNode)
      else Done state2))
  end.

(** On links that lead from every node to larger indices only, as a tree
    laid out in pre-order has them, the depth is at most the length. *)
Definition ResetNode (state : binTreeState) (index : Z) : outcome :=
  resetNodeRecursive (S (length (tree state))) state index.

Fixpoint resolveRecursive (fuel : nat) (state : binTreeState) (index : Z)
  : outcome :=
  match fuel with
  | O => OutOfFuel
  | S fuel' =>
    withNode state index (fun defNode =>
    bind (if binTreeNodeTypeHasLeft (NodeType defNode) then
            withData state (Left defNode) (fun l =>
            if isUnknown l then
              resolveRecursive fuel'
                (setData state (Left defNode) binTreeStateResolved)
                (Left defNode)
            else Done state)
          else Done state) (fun state1 =>
    if binTreeNodeTypeHasRight (NodeType defNode) then
      withData state1 (Right defNode) (fun r =>
      if isUnknown r then
        resolveRecursive fuel'
          (setData state1 (Right defNode) binTreeStateResolved)
          (Right defNode)
      else Done state1)
    else Done state1))
  end.

(** [checkNode] and [MarkNode] call each other; [checkNodeWith] is the body
    of [checkNode] over the [MarkNode] it calls back, [mark].  Go's [||] and
    [&&] read their right operand only when the left one does not decide,
    and so do the nested reads here. *)
Definition checkNodeWith (mark : binTreeState -> Z -> bool -> outcome)
  (state : binTreeState) (index : Z) : outcome :=
  withNode state index (fun defNode =>
  if NodeType defNode =? nodeTypeLeaf then
    Panic (PanicMsg "cannot check leaf") state
  else if NodeType defNode =? nodeTypeOr then
    withData state (Left defNode) (fun l =>
    if isTrue l then mark state index true
    else
      withData state (Right defNode) (fun r =>
      if isTrue r then mark state index true
      else if isFalse l && isFalse r then mark state index false
      else Done state))
  else if NodeType defNode =? nodeTypeNeor then
    withData state (Left defNode) (fun l =>
    if isUnknown l then Done state
    else
      withData state (Right defNode) (fun r =>
      if isUnknown r then Done state
      else if isTrue l || isTrue r then mark state index true
      else mark state index false))
  else if NodeType defNode =? nodeTypeAnd then
    withData state (Left defNode) (fun l =>
    if isTrue l then
      withData state (Right defNode) (fun r =>
      if isTrue r then mark state index true
      else if isFalse r then mark state index false
      else Done state)
    else if isFalse l then mark state index false
    else
      withData state (Right defNode) (fun r =>
      if isFalse r then mark state index false
      else Done state))
  else if NodeType defNode =? nodeTypeNot then
    withData state (Left defNode) (fun l =>
    if isTrue l then mark state index (negb true)
    else if isFalse l then mark state index (negb false)
    else Done state)
  else if NodeType defNode =? nodeTypeLoop then
    withData state (Left defNode) (fun l =>
    if isTrue l then mark state index true
    else if isFalse l then mark state index false
    else Done state)
  else Panic (PanicMsg "invalid node mode") state).

Fixpoint MarkNode_fuel (fuel : nat) (state : binTreeState) (index : Z)
  (value : bool) : outcome :=
  match fuel with
  | O => OutOfFuel
  | S fuel' =>
    withData state index (fun cur =>
    if negb (isUnknown cur) then
      Panic (PanicMsg "cannot resolve same state node twice") state
    else
      let state1 :=
        setData state index
          (if value then binTreeStateTrue else binTreeStateFalse) in
      bind (resolveRecursive fuel state1 index) (fun state2 =>
      (* We are done if we are the root node *)
      if index =? 0 then Done state2
      (* If we are the marked stall index, we should stop recursing. *)
      else if index =? stallIndex state2 then Done state2
      else
        (* Check for parent satisfaction *)
        withNode state2 index (fun defNode =>
        checkNodeWith (MarkNode_fuel fuel') state2 (ParentIdx defNode))))
  end.

(** Every nested [MarkNode] and every nested [resolveRecursive] first turns
    an [Unknown] entry into another value, so one more unit of fuel than
    there are entries is always enough ([MarkNode_returns]). *)
Definition MarkNode (state : binTreeState) (index : Z) (value : bool)
  : outcome :=
  MarkNode_fuel (S (length (data state))) state index value.

Definition checkNode (state : binTreeState) (index : Z) : outcome :=
  checkNodeWith MarkNode state index.

(** The loop of [Resolve]: [i] runs from [n - 1] down to [0]. *)
Fixpoint Resolve_loop (n : nat) (state : binTreeState) : outcome :=
  match n with
  | O => Done state
  | S i =>
    (* If this bucket is not resolved, resolve it with false *)
    withData state (Z.of_nat i) (fun cur =>
    bind (if isUnknown cur then MarkNode state (Z.of_nat i) false
          else Done state) (fun state1 =>
    (* Leave as soon as the root has been resolved *)
    withData state1 0 (fun root =>
    if negb (isUnknown root) then Done state1
    else Resolve_loop i state1)))
  end.

(** The first test is [state.IsResolved(0)], a read of [state.data[0]]. *)
Definition Resolve (state : binTreeState) : outcome :=
  (* Skip resolving if the full tree is already resolved *)
  withData state 0 (fun root =>
  if negb (isUnknown root) then Done state
  else
    (* Do depth-first resolution of the entire tree state *)
    Resolve_loop (length (data state)) state).

(** A call of one of the methods of [binTreeState] that write to the
    state.  [ResetNode] is [resetNodeRecursive]; [IsResolved] and [IsTrue]
    only read. *)
Inductive method : Type :=
| CallCopyFrom (ostate : binTreeState) (sameTree : bool)
| CallSetStallIndex (index : Z)
| CallResolve
| CallReset
| CallResetNode (index : Z)
| CallResolveRecursive (index : Z)
| CallCheckNode (index : Z)
| CallMarkNode (index : Z) (value : bool).

(** [resolveRecursive] first turns an [Unknown] entry into [Resolved] at
    every nested call, so one more unit of fuel than there are entries is
    enough ([resolveRecursive_returns]). *)
Definition call (m : method) (state : binTreeState) : outcome :=
  match m with
  | CallCopyFrom ostate sameTree => CopyFrom state ostate sameTree
  | CallSetStallIndex index => Done (snd (SetStallIndex state index))
  | CallResolve => Resolve state
  | CallReset => Done (Reset state)
  | CallResetNode index => ResetNode state index
  | CallResolveRecursive index =>
    resolveRecursive (S (length (data state))) state index
  | CallCheckNode index => checkNode state index
  | CallMarkNode index value => MarkNode state index value
  end.

(* ------------------------------------------------------------------ *)
(** * filterExprParser.go: what the file takes from the rest of the package *)

(** Go's [error] values that the conversion returns.  [Errorf] is a fresh
    error made by [fmt.Errorf], kept as its format and formatted arguments;
    [ErrorExternal] is an error made outside this file. *)
Inductive error : Type :=
| ErrorMalformedParenthesis
| ErrorNotFound
| ErrorEmptyInput
| Errorf (format : string) (args : list string)
| ErrorExternal (msg : string).

(** The dynamic value held by a [ValueExpr]. *)
Inductive value : Type :=
| VNil
| VBool (b : bool)
| VInt (i : Z)
| VFloat (f : float)
| VString (s : string).

(** Modelled from the spec: the expression tree of section 3.4 (ExpressionIR),
    which the package declares outside the two source files; the
    constructors carry the names the parser uses for them.
    [NilExpression] is Go's [nil] interface value, and [PcreExpr] stands for
    what [MakePcreExpression] builds. *)
Inductive Expression : Type :=
| NilExpression
| OrExpr (exprs : list Expression)
| AndExpr (exprs : list Expression)
| NotExpr (SubExpr : Expression)
| TrueExpr
| FalseExpr
| ValueExpr (Value : value)
| FieldExpr (Path : list string)
| FuncExpr (FuncName : string) (Params : list Expression)
| EqualsExpr (Lhs Rhs : Expression)
| NotEqualsExpr (Lhs Rhs : Expression)
| GreaterThanExpr (Lhs Rhs : Expression)
| GreaterEqualsExpr (Lhs Rhs : Expression)
| LessThanExpr (Lhs Rhs : Expression)
| LessEqualsExpr (Lhs Rhs : Expression)
| ExistsExpr (SubExpr : Expression)
| NotExistsExpr (SubExpr : Expression)
| LikeExpr (Lhs Rhs : Expression)
| RegexExpr (Regex : string)
| PcreExpr (Pcre : string).

(** The constants, regular expressions and functions that
    [filterExprParser.go] uses and the package declares elsewhere.  A
    regular expression is kept as its [MatchString]. *)
Record Externals : Type := {
  iso8601Year : string -> bool;
  iso8601YearAndMonth : string -> bool;
  iso8601CompleteDate : string -> bool;
  tokenIsPcreValueType : string -> bool;
  MakePcreExpression : string -> Expression * option error;
  (** [fmt.Sprintf("%v", x)] for a [float64] *)
  formatFloat : float -> string;
  OperatorNot : string;
  OperatorTrue : string;
  OperatorFalse : string;
  OperatorMeta : string;
  OperatorExists : string;
  OperatorEquals : string;
  OperatorNotEquals : string;
  OperatorGreaterThan : string;
  OperatorGreaterThanEq : string;
  OperatorLessThan : string;
  OperatorLessThanEq : string;
  OperatorMissing : string;
  OperatorNotMissing : string;
  OperatorNull : string;
  OperatorNotNull : string;
  FuncRegexp : string;
  FuncAbs : string; FuncAcos : string; FuncAsin : string; FuncAtan : string;
  FuncCeil : string; FuncCos : string; FuncDate : string; FuncDeg : string;
  FuncExp : string; FuncFloor : string; FuncLog : string; FuncLn : string;
  FuncSin : string; FuncTan : string; FuncRad : string; FuncRound : string;
  FuncSqrt : string; FuncAtan2 : string; FuncPower : string;
  MathFuncNeg : string; MathFuncAdd : string; MathFuncSub : string;
  MathFuncMul : string; MathFuncDiv : string; MathFuncMod : string;
  MathFuncAbs : string; MathFuncAcos : string; MathFuncAsin : string;
  MathFuncAtan : string; MathFuncCeil : string; MathFuncCos : string;
  DateFunc : string; MathFuncDegrees : string; MathFuncExp : string;
  MathFuncFloor : string; MathFuncLog : string; MathFuncLn : string;
  MathFuncSin : string; MathFuncTan : string; MathFuncRadians : string;
  MathFuncRound : string; MathFuncSqrt : string; MathFuncAtan2 : string;
  MathFuncPow : string
}.

(** [math.Pi] and [math.E] as [float64]. *)
Definition math_Pi : float := 0x1.921fb54442d18p+1%float.
Definition math_E : float := 0x1.5bf0a8b145769p+1%float.

(** [fmt.Sprintf("%v", i)] for an [int]. *)
Definition formatInt (i : Z) : string := NilZero.string_of_int (Z.to_int i).

(** [strings.Join] *)
Fixpoint strings_Join (elems : list string) (sep : string) : string :=
  match elems with
  | [] => ""
  | [s] => s
  | s :: rest => s ++ sep ++ strings_Join rest sep
  end.

(** [strings.ToLower], on the ASCII letters. *)
Definition lowerAscii (c : ascii) : ascii :=
  let n := nat_of_ascii c in
  if (65 <=? n)%nat && (n <=? 90)%nat then ascii_of_nat (n + 32) else c.

Fixpoint strings_ToLower (s : string) : string :=
  match s with
  | EmptyString => EmptyString
  | String c rest => String (lowerAscii c) (strings_ToLower rest)
  end.

(** [len(s) > 0] *)
Definition nonEmpty (s : string) : bool :=
  match s with EmptyString => false | _ => true end.

(** [p != nil] *)
Definition notNil {A : Type} (p : option A) : bool :=
  match p with Some _ => true | None => false end.

(** [p != nil && *p == true] *)
Definition isSetTrue (p : option bool) : bool :=
  match p with Some true => true | _ => false end.

(** [*p], which panics on [nil]. *)
Definition deref {A B : Type} (p : option A) (k : A -> result B) : result B :=
  match p with
  | Some a => k a
  | None => Crash NilDereference
  end.

(* ------------------------------------------------------------------ *)
(** * filterExprParser.go: the syntax tree

    A struct is an inductive type with one constructor whose arguments carry
    the names of the Go fields; a pointer field is an [option], [None] for
    [nil].  The slices the parser fills hold no [nil] pointers and are lists
    of the structs. *)

Inductive FEOpenParen : Type := mkFEOpenParen (Parens : string).
Inductive FECloseParen : Type := mkFECloseParen (Parens : string).

Inductive FEBoolean : Type :=
  mkFEBoolean (TVal TVal1 FVal FVal1 : option bool).

Inductive FEStringType : Type :=
  mkFEStringType (EscapedStrVal CharVal RawStr StrValue : string).

Inductive FEArrayIndex : Type := mkFEArrayIndex (ArrayIndex : string).

Inductive FEOnePathFuncNoArgName : Type :=
  mkFEOnePathFuncNoArgName (Meta : option bool).

Inductive FEOnePathFuncNoArg : Type :=
  mkFEOnePathFuncNoArg (OnePathFuncNoArgName : option FEOnePathFuncNoArgName).

Inductive FEOnePathFuncExpr : Type :=
  mkFEOnePathFuncExpr (OnePathFuncNoArg : option FEOnePathFuncNoArg).

Inductive FEOnePath : Type :=
  mkFEOnePath (OnePathFunc : option FEOnePathFuncExpr)
              (StrValue : option FEStringType)
              (ArrayIndexes : list FEArrayIndex).

Inductive FEMathArithmeticOp : Type :=
  mkFEMathArithmeticOp
    (Addition Subtraction Multiply Division Modulo : option bool).

Inductive FEMathValue : Type :=
  mkFEMathValue (IntValue : option Z) (FloatValue : option float).

Inductive FEField : Type :=
  mkFEField (MathNeg : option bool) (Path : list FEOnePath)
            (MathOp : option FEMathArithmeticOp)
            (MathValue : option FEMathValue).

Inductive FEValue : Type :=
  mkFEValue (StrValue : option string) (IntValue : option Z)
            (FloatValue : option float).

Inductive FEOpChar : Type :=
  mkFEOpChar (Not Equal LessThan GreaterThan : option bool).

Inductive FECompareOp : Type :=
  mkFECompareOp (OpChars0 OpChars1 : option FEOpChar).

Inductive FECheckOp : Type :=
  mkFECheckOp (Not Null Missing : option bool).

Inductive FEConstFuncNoArgName : Type :=
  mkFEConstFuncNoArgName (Pi E : option bool).

Inductive FEConstFuncNoArg : Type :=
  mkFEConstFuncNoArg (ConstFuncNoArgName : option FEConstFuncNoArgName).

Inductive FEConstFuncOneArgName : Type :=
  mkFEConstFuncOneArgName
    (Abs Acos Asin Atan Ceil Cos Date Degrees Exp Floor Log Ln Sine Tangent
     Radians Round Sqrt : option bool).

Inductive FEConstFuncTwoArgsName : Type :=
  mkFEConstFuncTwoArgsName (Atan2 Power : option bool).

Inductive FEConstFuncExpression : Type :=
  mkFEConstFuncExpression
    (ConstFuncNoArg : option FEConstFuncNoArg)
    (ConstFuncOneArg : option FEConstFuncOneArg)
    (ConstFuncTwoArgs : option FEConstFuncTwoArgs)
with FEConstFuncOneArg : Type :=
  mkFEConstFuncOneArg
    (ConstFuncOneArgName : option FEConstFuncOneArgName)
    (Argument : option FEConstFuncArgument)
with FEConstFuncTwoArgs : Type :=
  mkFEConstFuncTwoArgs
    (ConstFuncTwoArgsName : option FEConstFuncTwoArgsName)
    (Argument0 Argument1 : option FEConstFuncArgument)
with FEConstFuncArgument : Type :=
  mkFEConstFuncArgument
    (SubFunc : option FEConstFuncExpression)
    (Field : option FEField)
    (Argument : option FEValue).

Inductive FEConstFuncArgumentRHS : Type :=
  mkFEConstFuncArgumentRHS
    (SubFunc : option FEConstFuncExpression)
    (Argument : option FEValue).

Inductive FEBooleanFuncTwoArgsName : Type :=
  mkFEBooleanFuncTwoArgsName (RegexContains : option bool).

Inductive FEBooleanFuncTwoArgs : Type :=
  mkFEBooleanFuncTwoArgs
    (BooleanFuncTwoArgsName : option FEBooleanFuncTwoArgsName)
    (Argument0 : option FEConstFuncArgument)
    (Argument1 : option FEConstFuncArgumentRHS).

Inductive FEExistsClause : Type := mkFEExistsClause (Field : option FEField).

Inductive FEBooleanFuncExpr : Type :=
  mkFEBooleanFuncExpr
    (BooleanFuncTwoArgs : option FEBooleanFuncTwoArgs)
    (ExistsClause : option FEExistsClause).

Inductive FEBooleanExpr : Type :=
  mkFEBooleanExpr (BooleanVal : option FEBoolean)
                  (BooleanFunc : option FEBooleanFuncExpr).

Inductive FELhs : Type :=
  mkFELhs (Func : option FEConstFuncExpression) (Bool : option FEBoolean)
          (Field : option FEField) (Value : option FEValue).

Inductive FERhs : Type :=
  mkFERhs (Func : option FEConstFuncExpression) (Bool : option FEBoolean)
          (Value : option FEValue) (Field : option FEField).

Inductive FEOperand : Type :=
  mkFEOperand (BooleanExpr : option FEBooleanExpr) (LHS : option FELhs)
              (Op : option FECompareOp) (RHS : option FERhs)
              (CheckOp : option FECheckOp).

Inductive FECondition : Type :=
  mkFECondition (Not : option FECondition) (Operand : option FEOperand).

Inductive FEAndCondition : Type :=
  mkFEAndCondition (OpenParens : list FEOpenParen)
                   (OrConditions : list FECondition)
                   (CloseParens : list FECloseParen).

Inductive FilterExpression : Type :=
  mkFilterExpression (AndConditions : list FEAndCondition)
                     (SubFilterExpr : list FilterExpression).

(* ------------------------------------------------------------------ *)
(** * filterExprParser.go: counting parentheses *)

Fixpoint FECondition_GetTotalOpenParens (f : FECondition) : Z :=
  match f with
  | mkFECondition Not Operand =>
    match Not with
    | Some n => 0 + FECondition_GetTotalOpenParens n
    | None => 0
    end
    (* Operand has no open or close parens *)
  end.

Fixpoint FECondition_GetTotalCloseParens (f : FECondition) : Z :=
  match f with
  | mkFECondition Not Operand =>
    match Not with
    | Some n => 0 + FECondition_GetTotalCloseParens n
    | None => 0
    end
  end.

(** [for _, x := range xs { count += g(x) }] *)
Definition addEach {A : Type} (g : A -> Z) (xs : list A) (count : Z) : Z :=
  fold_left (fun c x => c + g x) xs count.

Definition FEAndCondition_GetTotalOpenParens (f : FEAndCondition) : Z :=
  match f with
  | mkFEAndCondition OpenParens OrConditions CloseParens =>
    addEach FECondition_GetTotalOpenParens OrConditions (0 + zlen OpenParens)
  end.

Definition FEAndCondition_GetTotalCloseParens (f : FEAndCondition) : Z :=
  match f with
  | mkFEAndCondition OpenParens OrConditions CloseParens =>
    addEach FECondition_GetTotalCloseParens OrConditions (0 + zlen CloseParens)
  end.

Fixpoint FilterExpression_GetTotalOpenParens (f : FilterExpression) : Z :=
  match f with
  | mkFilterExpression AndConditions SubFilterExpr =>
    let count := addEach FEAndCondition_GetTotalOpenParens AndConditions 0 in
    addEach FilterExpression_GetTotalOpenParens SubFilterExpr count
  end.

Fixpoint FilterExpression_GetTotalCloseParens (f : FilterExpression) : Z :=
  match f with
  | mkFilterExpression AndConditions SubFilterExpr =>
    let count := addEach FEAndCondition_GetTotalCloseParens AndConditions 0 in
    addEach FilterExpression_GetTotalCloseParens SubFilterExpr count
  end.

(* ------------------------------------------------------------------ *)
(** * filterExprParser.go: [String] and [OutputExpression]

    A Go function that returns [(Expression, error)] returns a pair here,
    inside [result] because a method called on a [nil] pointer panics. *)

Notation "x <- e ;; k" := (rbind e (fun x => k))
  (at level 61, e at next level, right associativity).

Section Conversion.
Variable ext : Externals.

Definition FEBoolean_String (feb : FEBoolean) : string :=
  match feb with
  | mkFEBoolean TVal TVal1 FVal FVal1 =>
    if isSetTrue TVal then OperatorTrue ext ++ "(bool)"
    else if isSetTrue TVal1 then strings_ToLower (OperatorTrue ext) ++ "(bool)"
    else if isSetTrue FVal then OperatorFalse ext ++ "(bool)"
    else if isSetTrue FVal1 then strings_ToLower (OperatorFalse ext) ++ "(bool)"
    else ""
  end.

Definition FEBoolean_GetBool (feb : FEBoolean) : bool :=
  match feb with
  | mkFEBoolean TVal TVal1 FVal FVal1 =>
    if isSetTrue TVal then true
    else if isSetTrue TVal1 then true
    else if isSetTrue FVal then false
    else if isSetTrue FVal1 then false
    else false
  end.

Definition FEBoolean_IsSet (feb : FEBoolean) : bool :=
  match feb with
  | mkFEBoolean TVal TVal1 FVal FVal1 =>
    notNil TVal || notNil TVal1 || notNil FVal || notNil FVal1
  end.

Definition FEBoolean_OutputExpression (f : FEBoolean) (asValue : bool)
  : Expression * option error :=
  if negb (FEBoolean_IsSet f) then
    (NilExpression, Some (Errorf "Invalid FEBoolean (not set)" []))
  else if FEBoolean_GetBool f then
    if asValue then (ValueExpr (VBool true), None) else (TrueExpr, None)
  else
    if asValue then (ValueExpr (VBool false), None) else (FalseExpr, None).

Definition FEStringType_String (f : FEStringType) : string :=
  match f with
  | mkFEStringType EscapedStrVal CharVal RawStr StrValue =>
    if nonEmpty CharVal then CharVal
    else if nonEmpty RawStr then RawStr
    else if nonEmpty StrValue then StrValue
    else if nonEmpty EscapedStrVal then EscapedStrVal
    else ""
  end.

Definition FEArrayIndex_String (i : FEArrayIndex) : string :=
  match i with
  | mkFEArrayIndex ArrayIndex => "[" ++ ArrayIndex ++ "]"
  end.

Definition FEOnePathFuncNoArgName_String (n : FEOnePathFuncNoArgName) : string :=
  match n with
  | mkFEOnePathFuncNoArgName Meta =>
    if isSetTrue Meta then OperatorMeta ext
    else "?? (FEOnePathFuncNoArgName)"
  end.

Definition FEOnePathFuncNoArg_String (na : FEOnePathFuncNoArg) : string :=
  match na with
  | mkFEOnePathFuncNoArg OnePathFuncNoArgName =>
    match OnePathFuncNoArgName with
    | Some name => FEOnePathFuncNoArgName_String name ++ "()"
    | None => "?? (FEOnePathFuncNoArg)"
    end
  end.

Definition FEOnePathFuncExpr_String (e : FEOnePathFuncExpr) : string :=
  match e with
  | mkFEOnePathFuncExpr OnePathFuncNoArg =>
    match OnePathFuncNoArg with
    | Some na => FEOnePathFuncNoArg_String na
    | None => "?? FEOnePathFuncExpr"
    end
  end.

(** With neither [OnePathFunc] nor [StrValue], [feop.StrValue.String()] is a
    call on a [nil] pointer, which panics at [f.CharVal]. *)
Definition FEOnePath_String (feop : FEOnePath) : result string :=
  match feop with
  | mkFEOnePath OnePathFunc StrValue ArrayIndexes =>
    output <-
      match OnePathFunc with
      | Some pf => Ret [FEOnePathFuncExpr_String pf]
      | None =>
        deref StrValue (fun sv =>
        if nonEmpty (FEStringType_String sv)
        then Ret [FEStringType_String sv]
        else Ret [""])
      end ;;
    Ret (strings_Join (output ++ map FEArrayIndex_String ArrayIndexes)%list " ")
  end.

(** Outputs a path, and an array of indexes, if there is any *)
Definition FEOnePath_OutputOnePath (f : FEOnePath)
  : result (string * list string * option error) :=
  match f with
  | mkFEOnePath OnePathFunc StrValue ArrayIndexes =>
    let arrayIdx := map FEArrayIndex_String ArrayIndexes in
    match StrValue with
    | Some sv => Ret (FEStringType_String sv, arrayIdx, None)
    | None =>
      match OnePathFunc with
      | Some pf => Ret (FEOnePathFuncExpr_String pf, arrayIdx, None)
      | None =>
        s <- FEOnePath_String f ;;
        Ret ("", arrayIdx, Some (Errorf "Invalid internal FEOnePath: %v" [s]))
      end
    end
  end.

Definition FEMathArithmeticOp_String (f : FEMathArithmeticOp) : string :=
  match f with
  | mkFEMathArithmeticOp Addition Subtraction Multiply Division Modulo =>
    if notNil Addition then "+"
    else if notNil Subtraction then "-"
    else if notNil Multiply then "*"
    else if notNil Division then "/"
    else if notNil Modulo then "%"
    else "?? (FEMathArithmeticOp)"
  end.

Definition FEMathArithmeticOp_OutputExpression (f : FEMathArithmeticOp)
  : Expression * option error :=
  match f with
  | mkFEMathArithmeticOp Addition Subtraction Multiply Division Modulo =>
    if notNil Addition then (FuncExpr (MathFuncAdd ext) [], None)
    else if notNil Subtraction then (FuncExpr (MathFuncSub ext) [], None)
    else if notNil Multiply then (FuncExpr (MathFuncMul ext) [], None)
    else if notNil Division then (FuncExpr (MathFuncDiv ext) [], None)
    else if notNil Modulo then (FuncExpr (MathFuncMod ext) [], None)
    else (NilExpression,
          Some (Errorf "Invalid FEMathArithmeticOp %v"
                  [FEMathArithmeticOp_String f]))
  end.

Definition FEMathValue_String (f : FEMathValue) : string :=
  match f with
  | mkFEMathValue IntValue FloatValue =>
    match IntValue with
    | Some i => formatInt i
    | None =>
      match FloatValue with
      | Some x => formatFloat ext x
      | None => "?? (FEMathValue)"
      end
    end
  end.

Definition FEMathValue_OutputExpression (f : FEMathValue)
  : Expression * option error :=
  match f with
  | mkFEMathValue IntValue FloatValue =>
    match IntValue with
    | Some i => (ValueExpr (VInt i), None)
    | None =>
      match FloatValue with
      | Some x => (ValueExpr (VFloat x), None)
      | None => (NilExpression,
                 Some (Errorf "Invalid FEMathValue %v" [FEMathValue_String f]))
      end
    end
  end.

Definition FEValue_String (fev : FEValue) : string :=
  match fev with
  | mkFEValue StrValue IntValue FloatValue =>
    match StrValue with
    | Some s => s
    | None =>
      match IntValue with
      | Some i => formatInt i
      | None =>
        match FloatValue with
        | Some x => formatFloat ext x
        | None => "?? (FEValue)"
        end
      end
    end
  end.

Definition FEValue_OutputExpression (f : FEValue) : Expression * option error :=
  match f with
  | mkFEValue StrValue IntValue FloatValue =>
    match StrValue with
    | Some s => (ValueExpr (VString s), None)
    | None =>
      match IntValue with
      | Some i => (ValueExpr (VInt i), None)
      | None =>
        match FloatValue with
        | Some x => (ValueExpr (VFloat x), None)
        | None => (ValueExpr VNil,
                   Some (Errorf "Invalid FEValue: %v" [FEValue_String f]))
        end
      end
    end
  end.

(** [for _, onePath := range fef.Path { output = append(output,
    onePath.String()) }] *)
Fixpoint pathStrings (Path : list FEOnePath) : result (list string) :=
  match Path with
  | [] => Ret []
  | onePath :: rest =>
    s <- FEOnePath_String onePath ;;
    ss <- pathStrings rest ;;
    Ret (s :: ss)
  end.

Definition FEField_String (fef : FEField) : result string :=
  match fef with
  | mkFEField MathNeg Path MathOp MathValue =>
    output <- pathStrings Path ;;
    let fieldOutput := strings_Join output "." in
    let fieldOutput :=
      if notNil MathNeg then "-" ++ fieldOutput else fieldOutput in
    let outerOutput := [fieldOutput] in
    let outerOutput :=
      match MathOp with
      | Some op => (outerOutput ++ [FEMathArithmeticOp_String op])%list
      | None => outerOutput
      end in
    let outerOutput :=
      match MathValue with
      | Some mv => (outerOutput ++ [FEMathValue_String mv])%list
      | None => outerOutput
      end in
    Ret (strings_Join outerOutput " ")
  end.

Definition FEField_ShouldHandleSpecialValue (f : FEField) : result bool :=
  match f with
  | mkFEField MathNeg Path MathOp MathValue =>
    match Path with
    | [p0] =>
      s <- FEOnePath_String p0 ;;
      if iso8601Year ext s || iso8601YearAndMonth ext s
         || iso8601CompleteDate ext s
      then Ret true else Ret false
    | _ => Ret false
    end
  end.

Definition FEField_OutputExpressionSpecialAsValue (f : FEField)
  : result (Expression * option error) :=
  match f with
  | mkFEField MathNeg Path MathOp MathValue =>
    match Path with
    | p0 :: _ =>
      s <- FEOnePath_String p0 ;;
      Ret (ValueExpr (VString s), None)
    | [] => Crash IndexOutOfRange
    end
  end.

(** The loop of [FEField.OutputExpression] over [f.Path]: the path built so
    far, and the error that stops the loop. *)
Fixpoint outputPath (Path : list FEOnePath) (acc : list string)
  : result (list string * option error) :=
  match Path with
  | [] => Ret (acc, None)
  | onePath :: rest =>
    r <- FEOnePath_OutputOnePath onePath ;;
    match r with
    | (_, _, Some err) => Ret (acc, Some err)
    | (pathName, arrays, None) => outputPath rest (acc ++ [pathName] ++ arrays)%list
    end
  end.

Definition FEField_OutputExpression (f : FEField)
  : result (Expression * option error) :=
  match f with
  | mkFEField MathNeg Path MathOp MathValue =>
    special <- FEField_ShouldHandleSpecialValue f ;;
    if special then FEField_OutputExpressionSpecialAsValue f
    else
      r <- outputPath Path [] ;;
      match r with
      | (path, Some err) => Ret (FieldExpr path, Some err)
      | (path, None) =>
        let outExpr := FieldExpr path in
        if notNil MathNeg || (notNil MathOp && notNil MathValue) then
          match MathOp with
          | None =>
            (* Only thing is a negation of the field value *)
            Ret (FuncExpr (MathFuncNeg ext) [outExpr], None)
          | Some op =>
            (* {-}field mathOp mathVal *)
            match FEMathArithmeticOp_OutputExpression op with
            | (_, Some err) => Ret (NilExpression, Some err)
            | (FuncExpr name params, None) =>
              let params :=
                if notNil MathNeg
                then (params ++ [FuncExpr (MathFuncNeg ext) [outExpr]])%list
                else (params ++ [outExpr])%list in
              deref MathValue (fun mv =>
              match FEMathValue_OutputExpression mv with
              | (_, Some err) => Ret (NilExpression, Some err)
              | (valueExpr, None) =>
                Ret (FuncExpr name (params ++ [valueExpr])%list, None)
              end)
            | (_, None) =>
              Crash (PanicMsg "interface conversion: not a FuncExpr")
            end
          end
        else Ret (outExpr, None)
      end
  end.

Definition FEConstFuncNoArgName_String (n : FEConstFuncNoArgName) : string :=
  match n with
  | mkFEConstFuncNoArgName Pi E =>
    if isSetTrue E then "E"
    else if isSetTrue Pi then "PI"
    else "?? (FEConstFuncNoArgName)"
  end.

Definition FEConstFuncNoArg_String (f : FEConstFuncNoArg) : string :=
  match f with
  | mkFEConstFuncNoArg ConstFuncNoArgName =>
    match ConstFuncNoArgName with
    | Some name => FEConstFuncNoArgName_String name ++ "()"
    | None => "?? (FEConstFuncNoArg)"
    end
  end.

Definition FEConstFuncNoArg_OutputExpression (f : FEConstFuncNoArg)
  : Expression * option error :=
  match f with
  | mkFEConstFuncNoArg ConstFuncNoArgName =>
    match ConstFuncNoArgName with
    | None => (NilExpression, Some (Errorf "Invalid FEConstFuncNoArg" []))
    | Some (mkFEConstFuncNoArgName Pi E) =>
      if isSetTrue Pi then (ValueExpr (VFloat math_Pi), None)
      else if isSetTrue E then (ValueExpr (VFloat math_E), None)
      else (NilExpression, Some (Errorf "Invalid FEConstFuncNoArg" []))
    end
  end.

Definition FEConstFuncOneArgName_String (arg : FEConstFuncOneArgName) : string :=
  match arg with
  | mkFEConstFuncOneArgName Abs Acos Asin Atan Ceil Cos Date Degrees Exp Floor
                            Log Ln Sine Tangent Radians Round Sqrt =>
    if isSetTrue Abs then FuncAbs ext
    else if isSetTrue Acos then FuncAcos ext
    else if isSetTrue Asin then FuncAsin ext
    else if isSetTrue Atan then FuncAtan ext
    else if isSetTrue Ceil then FuncCeil ext
    else if isSetTrue Cos then FuncCos ext
    else if isSetTrue Date then FuncDate ext
    else if isSetTrue Degrees then FuncDeg ext
    else if isSetTrue Exp then FuncExp ext
    else if isSetTrue Floor then FuncFloor ext
    else if isSetTrue Log then FuncLog ext
    else if isSetTrue Ln then FuncLn ext
    else if isSetTrue Sine then FuncSin ext
    else if isSetTrue Tangent then FuncTan ext
    else if isSetTrue Radians then FuncRad ext
    else if isSetTrue Round then FuncRound ext
    else if isSetTrue Sqrt then FuncSqrt ext
    else "?? (FEConstFuncOneArgName)"
  end.

Definition FEConstFuncOneArgName_OutputExpression (arg : FEConstFuncOneArgName)
  : string * option error :=
  match arg with
  | mkFEConstFuncOneArgName Abs Acos Asin Atan Ceil Cos Date Degrees Exp Floor
                            Log Ln Sine Tangent Radians Round Sqrt =>
    if isSetTrue Abs then (MathFuncAbs ext, None)
    else if isSetTrue Acos then (MathFuncAcos ext, None)
    else if isSetTrue Asin then (MathFuncAsin ext, None)
    else if isSetTrue Atan then (MathFuncAtan ext, None)
    else if isSetTrue Ceil then (MathFuncCeil ext, None)
    else if isSetTrue Cos then (MathFuncCos ext, None)
    else if isSetTrue Date then (DateFunc ext, None)
    else if isSetTrue Degrees then (MathFuncDegrees ext, None)
    else if isSetTrue Exp then (MathFuncExp ext, None)
    else if isSetTrue Floor then (MathFuncFloor ext, None)
    else if isSetTrue Log then (MathFuncLog ext, None)
    else if isSetTrue Ln then (MathFuncLn ext, None)
    else if isSetTrue Sine then (MathFuncSin ext, None)
    else if isSetTrue Tangent then (MathFuncTan ext, None)
    else if isSetTrue Radians then (MathFuncRadians ext, None)
    else if isSetTrue Round then (MathFuncRound ext, None)
    else if isSetTrue Sqrt then (MathFuncSqrt ext, None)
    else ("?? (FEConstFuncOneArgName)", Some ErrorNotFound)
  end.

Definition FEConstFuncTwoArgsName_String (arg : FEConstFuncTwoArgsName) : string :=
  match arg with
  | mkFEConstFuncTwoArgsName Atan2 Power =>
    if isSetTrue Atan2 then FuncAtan2 ext
    else if isSetTrue Power then FuncPower ext
    else "?? (FEConstFuncTwoArgsName)"
  end.

Definition FEConstFuncTwoArgsName_OutputExpression
  (arg : FEConstFuncTwoArgsName) : string * option error :=
  match arg with
  | mkFEConstFuncTwoArgsName Atan2 Power =>
    if isSetTrue Atan2 then (MathFuncAtan2 ext, None)
    else if isSetTrue Power then (MathFuncPow ext, None)
    else ("?? (FEConstFuncTwoArgsName)", Some ErrorNotFound)
  end.

Fixpoint FEConstFuncExpression_String (f : FEConstFuncExpression)
  : result string :=
  match f with
  | mkFEConstFuncExpression ConstFuncNoArg ConstFuncOneArg ConstFuncTwoArgs =>
    match ConstFuncNoArg with
    | Some na => Ret (FEConstFuncNoArg_String na)
    | None =>
      match ConstFuncOneArg with
      | Some oa => FEConstFuncOneArg_String oa
      | None =>
        match ConstFuncTwoArgs with
        | Some ta => FEConstFuncTwoArgs_String ta
        | None => Ret "?? (FEConstFuncExpression)"
        end
      end
    end
  end
with FEConstFuncOneArg_String (oa : FEConstFuncOneArg) : result string :=
  match oa with
  | mkFEConstFuncOneArg ConstFuncOneArgName Argument =>
    match ConstFuncOneArgName, Argument with
    | Some name, Some arg =>
      a <- FEConstFuncArgument_String arg ;;
      Ret (FEConstFuncOneArgName_String name ++ "( " ++ a ++ " )")
    | _, _ => Ret "?? (FEConstFuncOneArg)"
    end
  end
with FEConstFuncTwoArgs_String (fta : FEConstFuncTwoArgs) : result string :=
  match fta with
  | mkFEConstFuncTwoArgs ConstFuncTwoArgsName Argument0 Argument1 =>
    match ConstFuncTwoArgsName, Argument0, Argument1 with
    | Some name, Some arg0, Some arg1 =>
      a0 <- FEConstFuncArgument_String arg0 ;;
      a1 <- FEConstFuncArgument_String arg1 ;;
      Ret (FEConstFuncTwoArgsName_String name
           ++ "( " ++ a0 ++ " , " ++ a1 ++ " )")
    | _, _, _ => Ret "?? (FEConstFuncTwoArgs)"
    end
  end
with FEConstFuncArgument_String (arg : FEConstFuncArgument) : result string :=
  match arg with
  | mkFEConstFuncArgument SubFunc Field Argument =>
    match Argument with
    | Some v => Ret (FEValue_String v)
    | None =>
      match SubFunc with
      | Some sf => FEConstFuncExpression_String sf
      | None =>
        match Field with
        | Some fld => FEField_String fld
        | None => Ret "?? (FEConstFuncArgument)"
        end
      end
    end
  end.

Fixpoint FEConstFuncExpression_OutputExpression (f : FEConstFuncExpression)
  : result (Expression * option error) :=
  match f with
  | mkFEConstFuncExpression ConstFuncNoArg ConstFuncOneArg ConstFuncTwoArgs =>
    match ConstFuncNoArg with
    | Some na => Ret (FEConstFuncNoArg_OutputExpression na)
    | None =>
      match ConstFuncOneArg with
      | Some oa => FEConstFuncOneArg_OutputExpression oa
      | None =>
        match ConstFuncTwoArgs with
        | Some ta => FEConstFuncTwoArgs_OutputExpression ta
        | None =>
          s <- FEConstFuncExpression_String f ;;
          Ret (NilExpression,
               Some (Errorf "Invalid FEConstFuncExpression %v" [s]))
        end
      end
    end
  end
with FEConstFuncOneArg_OutputExpression (f : FEConstFuncOneArg)
  : result (Expression * option error) :=
  match f with
  | mkFEConstFuncOneArg ConstFuncOneArgName Argument =>
    match ConstFuncOneArgName, Argument with
    | Some fname, Some argument =>
      match FEConstFuncOneArgName_OutputExpression fname with
      | (_, Some err) => Ret (FuncExpr "" [], Some err)
      | (name, None) =>
        r <- FEConstFuncArgument_OutputExpression argument ;;
        match r with
        | (_, Some err) => Ret (FuncExpr name [], Some err)
        | (arg, None) => Ret (FuncExpr name [arg], None)
        end
      end
    | _, _ =>
      s <- FEConstFuncOneArg_String f ;;
      Ret (FuncExpr "" [], Some (Errorf "Invalid FEConstFuncOneArg %v" [s]))
    end
  end
with FEConstFuncTwoArgs_OutputExpression (f : FEConstFuncTwoArgs)
  : result (Expression * option error) :=
  match f with
  | mkFEConstFuncTwoArgs ConstFuncTwoArgsName Argument0 Argument1 =>
    match ConstFuncTwoArgsName, Argument0, Argument1 with
    | Some fname, Some argument0, Some argument1 =>
      match FEConstFuncTwoArgsName_OutputExpression fname with
      | (_, Some err) => Ret (FuncExpr "" [], Some err)
      | (name, None) =>
        r0 <- FEConstFuncArgument_OutputExpression argument0 ;;
        match r0 with
        | (_, Some err) => Ret (FuncExpr name [], Some err)
        | (arg0, None) =>
          r1 <- FEConstFuncArgument_OutputExpression argument1 ;;
          match r1 with
          | (_, Some err) => Ret (FuncExpr name [], Some err)
          | (arg1, None) => Ret (FuncExpr name [arg0; arg1], None)
          end
        end
      end
    | _, _, _ =>
      s <- FEConstFuncTwoArgs_String f ;;
      Ret (FuncExpr "" [], Some (Errorf "Invalid FEConstFuncTwoArgs %v" [s]))
    end
  end
with FEConstFuncArgument_OutputExpression (f : FEConstFuncArgument)
  : result (Expression * option error) :=
  match f with
  | mkFEConstFuncArgument SubFunc Field Argument =>
    match Argument with
    | Some v => Ret (FEValue_OutputExpression v)
    | None =>
      match Field with
      | Some fld => FEField_OutputExpression fld
      | None =>
        match SubFunc with
        | Some sf => FEConstFuncExpression_OutputExpression sf
        | None =>
          s <- FEConstFuncArgument_String f ;;
          Ret (NilExpression,
               Some (Errorf "Invalid FEConstFuncArgument %v" [s]))
        end
      end
    end
  end.

Definition FEConstFuncArgumentRHS_String (arg : FEConstFuncArgumentRHS)
  : result string :=
  match arg with
  | mkFEConstFuncArgumentRHS SubFunc Argument =>
    match Argument with
    | Some v => Ret (FEValue_String v)
    | None =>
      match SubFunc with
      | Some sf => FEConstFuncExpression_String sf
      | None => Ret "?? (FEConstFuncArgument)"
      end
    end
  end.

Definition FEConstFuncArgumentRHS_OutputExpression (f : FEConstFuncArgumentRHS)
  : result (Expression * option error) :=
  match f with
  | mkFEConstFuncArgumentRHS SubFunc Argument =>
    match SubFunc with
    | Some sf => FEConstFuncExpression_OutputExpression sf
    | None =>
      match Argument with
      | Some v => Ret (FEValue_OutputExpression v)
      | None =>
        s <- FEConstFuncArgumentRHS_String f ;;
        Ret (NilExpression,
             Some (Errorf "Invalid FEConstFuncArgumentRHS %v" [s]))
      end
    end
  end.

Definition FEConstFuncArgumentRHS_OutputRegexExpression
  (f : FEConstFuncArgumentRHS) : result (Expression * option error) :=
  match f with
  | mkFEConstFuncArgumentRHS SubFunc Argument =>
    match Argument with
    | None =>
      s <- FEConstFuncArgumentRHS_String f ;;
      Ret (NilExpression,
           Some (Errorf
                   "Invalid FEConstFuncArgumentRHS for regex expression %v"
                   [s]))
    | Some v =>
      if tokenIsPcreValueType ext (FEValue_String v)
      then Ret (MakePcreExpression ext (FEValue_String v))
      else Ret (RegexExpr (FEValue_String v), None)
    end
  end.

Definition FEBooleanFuncTwoArgsName_String (n : FEBooleanFuncTwoArgsName)
  : string :=
  match n with
  | mkFEBooleanFuncTwoArgsName RegexContains =>
    if isSetTrue RegexContains then FuncRegexp ext
    else "?? (FEBooleanFuncTwoArgsName)"
  end.

Definition FEBooleanFuncTwoArgsName_OutputExpression
  (n : FEBooleanFuncTwoArgsName) : Expression * option error :=
  match n with
  | mkFEBooleanFuncTwoArgsName RegexContains =>
    if isSetTrue RegexContains
    then (LikeExpr NilExpression NilExpression, None)
    else (NilExpression, Some ErrorNotFound)
  end.

Definition FEBooleanFuncTwoArgs_String (a : FEBooleanFuncTwoArgs)
  : result string :=
  match a with
  | mkFEBooleanFuncTwoArgs BooleanFuncTwoArgsName Argument0 Argument1 =>
    match BooleanFuncTwoArgsName, Argument0, Argument1 with
    | Some name, Some arg0, Some arg1 =>
      a0 <- FEConstFuncArgument_String arg0 ;;
      a1 <- FEConstFuncArgumentRHS_String arg1 ;;
      Ret (FEBooleanFuncTwoArgsName_String name
           ++ "( " ++ a0 ++ " , " ++ a1 ++ " )")
    | _, _, _ => Ret "?? (FEBooleanFuncTwoArgs)"
    end
  end.

(** In the last branch [f.BooleanFuncTwoArgsName.String()] is a call on a
    [nil] pointer when the name is missing. *)
Definition FEBooleanFuncTwoArgs_OutputExpression (f : FEBooleanFuncTwoArgs)
  : result (Expression * option error) :=
  match f with
  | mkFEBooleanFuncTwoArgs BooleanFuncTwoArgsName Argument0 Argument1 =>
    match BooleanFuncTwoArgsName, Argument0, Argument1 with
    | Some (mkFEBooleanFuncTwoArgsName (Some true) as name),
      Some argument0, Some argument1 =>
      match FEBooleanFuncTwoArgsName_OutputExpression name with
      | (_, Some err) => Ret (NilExpression, Some err)
      | (LikeExpr lhs rhs, None) =>
        r0 <- FEConstFuncArgument_OutputExpression argument0 ;;
        match r0 with
        | (_, Some err) => Ret (LikeExpr lhs rhs, Some err)
        | (arg0, None) =>
          r1 <- FEConstFuncArgumentRHS_OutputRegexExpression argument1 ;;
          match r1 with
          | (_, Some err) => Ret (LikeExpr arg0 rhs, Some err)
          | (arg1, None) => Ret (LikeExpr arg0 arg1, None)
          end
        end
      | (_, None) => Crash (PanicMsg "interface conversion: not a LikeExpr")
      end
    | _, _, _ =>
      deref BooleanFuncTwoArgsName (fun name =>
      Ret (NilExpression,
           Some (Errorf "Invalid FEBooleanFuncTwoArgs %v"
                   [FEBooleanFuncTwoArgsName_String name])))
    end
  end.

Definition FEExistsClause_String (f : FEExistsClause) : result string :=
  match f with
  | mkFEExistsClause Field =>
    match Field with
    | Some fld =>
      s <- FEField_String fld ;;
      Ret (OperatorExists ext ++ " ( " ++ s ++ " )")
    | None => Ret "?? (FEExistsClause)"
    end
  end.

Definition FEExistsClause_OutputExpression (f : FEExistsClause)
  : result (Expression * option error) :=
  match f with
  | mkFEExistsClause Field =>
    match Field with
    | Some fld =>
      r <- FEField_OutputExpression fld ;;
      match r with
      | (_, Some err) => Ret (NilExpression, Some err)
      | (fieldExpr, None) => Ret (ExistsExpr fieldExpr, None)
      end
    | None =>
      s <- FEExistsClause_String f ;;
      Ret (NilExpression, Some (Errorf "Invalid FEExistsClause %v" [s]))
    end
  end.

Definition FEBooleanFuncExpr_String (f : FEBooleanFuncExpr) : result string :=
  match f with
  | mkFEBooleanFuncExpr BooleanFuncTwoArgs ExistsClause =>
    match BooleanFuncTwoArgs with
    | Some ta => FEBooleanFuncTwoArgs_String ta
    | None =>
      match ExistsClause with
      | Some ec => FEExistsClause_String ec
      | None => Ret "?? (FEBooleanFuncExpr)"
      end
    end
  end.

Definition FEBooleanFuncExpr_OutputExpression (f : FEBooleanFuncExpr)
  : result (Expression * option error) :=
  match f with
  | mkFEBooleanFuncExpr BooleanFuncTwoArgs ExistsClause =>
    match BooleanFuncTwoArgs with
    | Some ta => FEBooleanFuncTwoArgs_OutputExpression ta
    | None =>
      match ExistsClause with
      | Some ec => FEExistsClause_OutputExpression ec
      | None =>
        Ret (NilExpression, Some (Errorf "Invalid FEBooleanFuncExpr" []))
      end
    end
  end.

Definition FEBooleanExpr_String (be : FEBooleanExpr) : result string :=
  match be with
  | mkFEBooleanExpr BooleanVal BooleanFunc =>
    match BooleanVal with
    | Some b => Ret (FEBoolean_String b)
    | None =>
      match BooleanFunc with
      | Some bf => FEBooleanFuncExpr_String bf
      | None => Ret "?? (FEBooleanExpr)"
      end
    end
  end.

Definition FEBooleanExpr_OutputExpression (f : FEBooleanExpr)
  : result (Expression * option error) :=
  match f with
  | mkFEBooleanExpr BooleanVal BooleanFunc =>
    match BooleanVal with
    | Some b => Ret (FEBoolean_OutputExpression b false (* asValue *))
    | None =>
      match BooleanFunc with
      | Some bf => FEBooleanFuncExpr_OutputExpression bf
      | None =>
        s <- FEBooleanExpr_String f ;;
        Ret (NilExpression, Some (Errorf "Invalid FEBooleanExpr %v" [s]))
      end
    end
  end.

Definition FEOpChar_String (f : FEOpChar) : string :=
  match f with
  | mkFEOpChar Not Equal LessThan GreaterThan =>
    if notNil Not then "!"
    else if notNil Equal then "="
    else if notNil LessThan then "<"
    else if notNil GreaterThan then ">"
    else ""
  end.

(** [p != nil && p.Field != nil] for the four fields of an [FEOpChar]. *)
Definition opCharNot (p : option FEOpChar) : bool :=
  match p with Some (mkFEOpChar Not _ _ _) => notNil Not | None => false end.
Definition opCharEqual (p : option FEOpChar) : bool :=
  match p with Some (mkFEOpChar _ Equal _ _) => notNil Equal | None => false end.
Definition opCharLessThan (p : option FEOpChar) : bool :=
  match p with
  | Some (mkFEOpChar _ _ LessThan _) => notNil LessThan
  | None => false
  end.
Definition opCharGreaterThan (p : option FEOpChar) : bool :=
  match p with
  | Some (mkFEOpChar _ _ _ GreaterThan) => notNil GreaterThan
  | None => false
  end.

Definition FECompareOp_IsEqual (feo : FECompareOp) : bool :=
  match feo with
  | mkFECompareOp OpChars0 OpChars1 =>
    (* = *)
    let singleEq := opCharEqual OpChars0 && negb (notNil OpChars1) in
    (* == *)
    let doubleEq := opCharEqual OpChars0 && opCharEqual OpChars1 in
    singleEq || doubleEq
  end.

Definition FECompareOp_IsNotEqual (feo : FECompareOp) : bool :=
  match feo with
  | mkFECompareOp OpChars0 OpChars1 =>
    (* != *)
    let notEqual0 := opCharNot OpChars0 && opCharEqual OpChars1 in
    (* <> *)
    let notEqual1 := opCharLessThan OpChars0 && opCharGreaterThan OpChars1 in
    notEqual0 || notEqual1
  end.

Definition FECompareOp_IsGreaterThan (feo : FECompareOp) : bool :=
  match feo with
  | mkFECompareOp OpChars0 OpChars1 =>
    opCharGreaterThan OpChars0 && negb (notNil OpChars1)
  end.

Definition FECompareOp_IsGreaterThanOrEqualTo (feo : FECompareOp) : bool :=
  match feo with
  | mkFECompareOp OpChars0 OpChars1 =>
    opCharGreaterThan OpChars0 && opCharEqual OpChars1
  end.

Definition FECompareOp_IsLessThan (feo : FECompareOp) : bool :=
  match feo with
  | mkFECompareOp OpChars0 OpChars1 =>
    opCharLessThan OpChars0 && negb (notNil OpChars1)
  end.

Definition FECompareOp_IsLessThanOrEqualTo (feo : FECompareOp) : bool :=
  match feo with
  | mkFECompareOp OpChars0 OpChars1 =>
    opCharLessThan OpChars0 && opCharEqual OpChars1
  end.

Definition FECompareOp_String (feo : FECompareOp) : string :=
  if FECompareOp_IsEqual feo then OperatorEquals ext
  else if FECompareOp_IsNotEqual feo then OperatorNotEquals ext
  else if FECompareOp_IsGreaterThan feo then OperatorGreaterThan ext
  else if FECompareOp_IsGreaterThanOrEqualTo feo then OperatorGreaterThanEq ext
  else if FECompareOp_IsLessThan feo then OperatorLessThan ext
  else if FECompareOp_IsLessThanOrEqualTo feo then OperatorLessThanEq ext
  else
    match feo with
    | mkFECompareOp OpChars0 OpChars1 =>
      let invalidOp :=
        (match OpChars0 with Some c => [FEOpChar_String c] | None => [] end
         ++ match OpChars1 with Some c => [FEOpChar_String c] | None => [] end)
        %list in
      match invalidOp with
      | [] => "?? (FECompareOp)"
      | _ => strings_Join invalidOp ""
      end
    end.

Definition FECompareOp_OutputExpression (f : FECompareOp)
  (lhs rhs : Expression) : Expression * option error :=
  if FECompareOp_IsEqual f then (EqualsExpr lhs rhs, None)
  else if FECompareOp_IsNotEqual f then (NotEqualsExpr lhs rhs, None)
  else if FECompareOp_IsGreaterThan f then (GreaterThanExpr lhs rhs, None)
  else if FECompareOp_IsGreaterThanOrEqualTo f
  then (GreaterEqualsExpr lhs rhs, None)
  else if FECompareOp_IsLessThan f then (LessThanExpr lhs rhs, None)
  else if FECompareOp_IsLessThanOrEqualTo f then (LessEqualsExpr lhs rhs, None)
  else (NilExpression,
        Some (Errorf "Invalid FECompareOp %v" [FECompareOp_String f])).

Definition FECheckOp_isNot (feco : FECheckOp) : bool :=
  match feco with mkFECheckOp Not Null Missing => isSetTrue Not end.

Definition FECheckOp_isMissingInternal (feco : FECheckOp) : bool :=
  match feco with mkFECheckOp Not Null Missing => isSetTrue Missing end.

Definition FECheckOp_isNullInternal (feco : FECheckOp) : bool :=
  match feco with mkFECheckOp Not Null Missing => isSetTrue Null end.

Definition FECheckOp_IsMissing (feco : FECheckOp) : bool :=
  negb (FECheckOp_isNot feco) && FECheckOp_isMissingInternal feco.

Definition FECheckOp_IsNotMissing (feco : FECheckOp) : bool :=
  FECheckOp_isNot feco && FECheckOp_isMissingInternal feco.

Definition FECheckOp_IsNull (feco : FECheckOp) : bool :=
  negb (FECheckOp_isNot feco) && FECheckOp_isNullInternal feco.

Definition FECheckOp_IsNotNull (feco : FECheckOp) : bool :=
  FECheckOp_isNot feco && FECheckOp_isNullInternal feco.

Definition FECheckOp_String (feco : FECheckOp) : string :=
  if FECheckOp_IsMissing feco then OperatorMissing ext
  else if FECheckOp_IsNotMissing feco then OperatorNotMissing ext
  else if FECheckOp_IsNull feco then OperatorNull ext
  else if FECheckOp_IsNotNull feco then OperatorNotNull ext
  else "?? (FECheckOp)".

Definition FECheckOp_OutputExpression (f : FECheckOp) (subExpr : Expression)
  : Expression * option error :=
  if FECheckOp_IsNotMissing f then (ExistsExpr subExpr, None)
  else if FECheckOp_IsMissing f then (NotExistsExpr subExpr, None)
  else if FECheckOp_IsNull f then (EqualsExpr subExpr (ValueExpr VNil), None)
  else if FECheckOp_IsNotNull f
  then (NotExpr (EqualsExpr subExpr (ValueExpr VNil)), None)
  else (NilExpression,
        Some (Errorf "Invalid FECheckOp %v" [FECheckOp_String f])).

Definition FELhs_String (fel : FELhs) : result string :=
  match fel with
  | mkFELhs Func Bool Field Value =>
    match Field with
    | Some fld => FEField_String fld
    | None =>
      match Value with
      | Some v => Ret (FEValue_String v)
      | None =>
        match Func with
        | Some fn => FEConstFuncExpression_String fn
        | None =>
          match Bool with
          | Some b => Ret (FEBoolean_String b)
          | None => Ret "?? (FELhs)"
          end
        end
      end
    end
  end.

Definition FELhs_OutputExpression (f : FELhs)
  : result (Expression * option error) :=
  match f with
  | mkFELhs Func Bool Field Value =>
    match Field with
    | Some fld => FEField_OutputExpression fld
    | None =>
      match Value with
      | Some v => Ret (FEValue_OutputExpression v)
      | None =>
        match Func with
        | Some fn => FEConstFuncExpression_OutputExpression fn
        | None =>
          match Bool with
          | Some b => Ret (FEBoolean_OutputExpression b true (* asValue *))
          | None =>
            s <- FELhs_String f ;;
            Ret (NilExpression, Some (Errorf "Invalid FELhs %v" [s]))
          end
        end
      end
    end
  end.

Definition FERhs_String (fer : FERhs) : result string :=
  match fer with
  | mkFERhs Func Bool Value Field =>
    match Field with
    | Some fld => FEField_String fld
    | None =>
      match Value with
      | Some v => Ret (FEValue_String v)
      | None =>
        match Func with
        | Some fn => FEConstFuncExpression_String fn
        | None =>
          match Bool with
          | Some b => Ret (FEBoolean_String b)
          | None => Ret "?? (FERhs)"
          end
        end
      end
    end
  end.

Definition FERhs_OutputExpression (f : FERhs)
  : result (Expression * option error) :=
  match f with
  | mkFERhs Func Bool Value Field =>
    match Field with
    | Some fld => FEField_OutputExpression fld
    | None =>
      match Value with
      | Some v => Ret (FEValue_OutputExpression v)
      | None =>
        match Func with
        | Some fn => FEConstFuncExpression_OutputExpression fn
        | None =>
          match Bool with
          | Some b => Ret (FEBoolean_OutputExpression b true (* asValue *))
          | None =>
            s <- FERhs_String f ;;
            Ret (NilExpression, Some (Errorf "Invalid FERhs %v" [s]))
          end
        end
      end
    end
  end.

Definition FEOperand_String (feo : FEOperand) : result string :=
  match feo with
  | mkFEOperand BooleanExpr LHS Op RHS CheckOp =>
    match BooleanExpr with
    | Some be => FEBooleanExpr_String be
    | None =>
      match LHS, CheckOp with
      | Some lhs, Some checkOp =>
        l <- FELhs_String lhs ;;
        Ret (l ++ " " ++ FECheckOp_String checkOp)
      | _, _ =>
        match LHS, Op, RHS with
        | Some lhs, Some op, Some rhs =>
          l <- FELhs_String lhs ;;
          r <- FERhs_String rhs ;;
          Ret (l ++ " " ++ FECompareOp_String op ++ " " ++ r)
        | _, _, _ => Ret "?? (FEOperand)"
        end
      end
    end
  end.

Definition FEOperand_OutputExpression (f : FEOperand)
  : result (Expression * option error) :=
  match f with
  | mkFEOperand BooleanExpr LHS Op RHS CheckOp =>
    match BooleanExpr with
    | Some be => FEBooleanExpr_OutputExpression be
    | None =>
      match LHS with
      | Some lhs =>
        rl <- FELhs_OutputExpression lhs ;;
        match rl with
        | (_, Some err) => Ret (NilExpression, Some err)
        | (lhsExpr, None) =>
          match CheckOp with
          | Some checkOp => Ret (FECheckOp_OutputExpression checkOp lhsExpr)
          | None =>
            match Op, RHS with
            | Some op, Some rhs =>
              rr <- FERhs_OutputExpression rhs ;;
              match rr with
              | (_, Some err) => Ret (NilExpression, Some err)
              | (rhsExpr, None) =>
                Ret (FECompareOp_OutputExpression op lhsExpr rhsExpr)
              end
            | _, _ =>
              s <- FEOperand_String f ;;
              Ret (NilExpression, Some (Errorf "Invalid FEOperand %v" [s]))
            end
          end
        end
      | None =>
        s <- FEOperand_String f ;;
        Ret (NilExpression, Some (Errorf "Invalid FEOperand %v" [s]))
      end
    end
  end.

Fixpoint FECondition_String (fec : FECondition) : result string :=
  match fec with
  | mkFECondition Not Operand =>
    match Not with
    | Some n =>
      s <- FECondition_String n ;;
      Ret (strings_Join [OperatorNot ext ++ " " ++ s] " ")
    | None =>
      match Operand with
      | Some o =>
        s <- FEOperand_String o ;;
        Ret (strings_Join [s] " ")
      | None => Ret (strings_Join ["?? (FECondition)"] " ")
      end
    end
  end.

Fixpoint FECondition_OutputExpression (f : FECondition)
  : result (Expression * option error) :=
  match f with
  | mkFECondition Not Operand =>
    match Not with
    | Some n =>
      r <- FECondition_OutputExpression n ;;
      Ret (NotExpr (fst r), snd r)
    | None =>
      match Operand with
      | Some o => FEOperand_OutputExpression o
      | None =>
        s <- FECondition_String f ;;
        Ret (NilExpression, Some (Errorf "Invalid FECondition %v" [s]))
      end
    end
  end.

(** The loop of [FEAndCondition.OutputExpression]: [outExpr] grows by one
    expression per condition, and the first error ends the loop. *)
Fixpoint andConditionLoop (conds : list FECondition) (outExpr : list Expression)
  : result (Expression * option error) :=
  match conds with
  | [] => Ret (AndExpr outExpr, None)
  | oneExpr :: rest =>
    r <- FECondition_OutputExpression oneExpr ;;
    match r with
    | (_, Some err) => Ret (AndExpr outExpr, Some err)
    | (expr, None) => andConditionLoop rest (outExpr ++ [expr])%list
    end
  end.

Definition FEAndCondition_OutputExpression (f : FEAndCondition)
  : result (Expression * option error) :=
  match f with
  | mkFEAndCondition OpenParens OrConditions CloseParens =>
    andConditionLoop OrConditions []
  end.

(** The first loop of [FilterExpression.OutputExpression], over
    [f.AndConditions]: the [OrExpr] built so far and the error that stopped
    the loop. *)
Fixpoint orLoop (conds : list FEAndCondition) (outExpr : list Expression)
  : result (list Expression * option error) :=
  match conds with
  | [] => Ret (outExpr, None)
  | oneExpr :: rest =>
    r <- FEAndCondition_OutputExpression oneExpr ;;
    match r with
    | (_, Some err) => Ret (outExpr, Some err)
    | (andExpr, None) => orLoop rest (outExpr ++ [andExpr])%list
    end
  end.

(** The second loop of [FilterExpression.OutputExpression], over
    [f.SubFilterExpr], written over the [OutputExpression] it calls for each
    nested expression, [convert]. *)
Fixpoint subFilterLoop
  (convert : FilterExpression -> result (Expression * option error))
  (subs : list FilterExpression) (combinedExpr : list Expression)
  : result (Expression * option error) :=
  match subs with
  | [] => Ret (AndExpr combinedExpr, None)
  | subFilterExpr :: rest =>
    r <- convert subFilterExpr ;;
    match r with
    | (_, Some err) => Ret (AndExpr combinedExpr, Some err)
    | (subExpr, None) =>
      subFilterLoop convert rest (combinedExpr ++ [subExpr])%list
    end
  end.

(** Outputs the head of the Expression match tree of which represents
    everything underneath *)
Fixpoint FilterExpression_OutputExpression (f : FilterExpression)
  : result (Expression * option error) :=
  match f with
  | mkFilterExpression AndConditions SubFilterExpr =>
    if negb (FilterExpression_GetTotalOpenParens f
             =? FilterExpression_GetTotalCloseParens f) then
      Ret (OrExpr [], Some ErrorMalformedParenthesis)
    else
      r <- orLoop AndConditions [] ;;
      match r with
      | (outExpr, Some err) => Ret (OrExpr outExpr, Some err)
      | (outExpr, None) =>
        match SubFilterExpr with
        | [] => Ret (OrExpr outExpr, None)
        | _ =>
          subFilterLoop FilterExpression_OutputExpression SubFilterExpr
                        [OrExpr outExpr]
        end
      end
  end.

End Conversion.

(* ------------------------------------------------------------------ *)
(** * Vocabulary of the properties *)

(** What holds of the state an outcome ends in. *)
Definition post (Q : binTreeState -> Prop) (o : outcome) : Prop :=
  match o with
  | Done state => Q state
  | Panic _ state => Q state
  | OutOfFuel => True
  end.

Definition countUnknown (l : list binTreeStateValue) : nat :=
  length (filter isUnknown l).

(** [extends st st']: [st'] is [st] with some [Unknown] entries decided. *)
Definition extends (st st' : binTreeState) : Prop :=
  tree st' = tree st /\
  stallIndex st' = stallIndex st /\
  length (data st') = length (data st) /\
  (forall j x, zget (data st) j = Some x -> x <> binTreeStateUnknown ->
               zget (data st') j = Some x) /\
  (countUnknown (data st') <= countUnknown (data st))%nat.

(** The block [resolveRecursive] runs for the left and for the right
    child: [if state.data[c] == Unknown { state.data[c] = Resolved;
    state.resolveRecursive(c) }]. *)
Definition visitChild (fuel : nat) (state : binTreeState) (c : Z) : outcome :=
  withData state c (fun v =>
  if isUnknown v then
    resolveRecursive fuel (setData state c binTreeStateResolved) c
  else Done state).

(** The value [MarkNode] writes for [value]. *)
Definition markValue (v : bool) : binTreeStateValue :=
  if v then binTreeStateTrue else binTreeStateFalse.

(** [Resolve] as the specification words it: walk the indices from the last
    one down to 0, stop as soon as the root is no longer [Unknown], and call
    [MarkNode(i, false)] on every node that is still [Unknown]. *)
Fixpoint resolveDown_spec (n : nat) (state : binTreeState) : outcome :=
  match n with
  | O => Done state
  | S i =>
    withData state 0 (fun root =>
    if negb (isUnknown root) then Done state
    else
      bind (withData state (Z.of_nat i) (fun cur =>
            if isUnknown cur then MarkNode state (Z.of_nat i) false
            else Done state))
           (resolveDown_spec i))
  end.

Definition Resolve_spec (state : binTreeState) : outcome :=
  resolveDown_spec (length (data state)) state.

(** [state.data[index]] holds a value other than [Unknown]. *)
Definition decided (state : binTreeState) (index : Z) : Prop :=
  exists x, zget (data state) index = Some x /\ x <> binTreeStateUnknown.

(** [child t p c]: node [p] of [t] has [c] as its left or as its right
    link, as [resolveRecursive] follows them. *)
Definition child (t : binTree) (p c : Z) : Prop :=
  exists n, zget t p = Some n /\
    ((binTreeNodeTypeHasLeft (NodeType n) = true /\ Left n = c) \/
     (binTreeNodeTypeHasRight (NodeType n) = true /\ Right n = c)).

(** [below t i d]: [d] is a descendant of [i], reached from [i] over one or
    more links. *)
Inductive below (t : binTree) (i : Z) : Z -> Prop :=
| below_child c : child t i c -> below t i c
| below_step p c : below t i p -> child t p c -> below t i c.

(** [reachUnknown t s i d]: [d] is a descendant of [i] and every node on the
    way from [i] to [d], [i] excluded and [d] included, is [Unknown] in [s]. *)
Inductive reachUnknown (t : binTree) (s : list binTreeStateValue) (i : Z)
  : Z -> Prop :=
| ru_child c :
    child t i c -> zget s c = Some binTreeStateUnknown -> reachUnknown t s i c
| ru_step p c :
    reachUnknown t s i p -> child t p c ->
    zget s c = Some binTreeStateUnknown -> reachUnknown t s i c.

(** A link from [p] to [c] is consistent when [c] comes after [p] in the
    array and names [p] as its parent. *)
Definition linkOk (t : binTree) (p c : Z) : bool :=
  (p <? c) &&
  match zget t c with
  | Some n => ParentIdx n =? p
  | None => false
  end.

Definition nodeLinksOk (t : binTree) (p : Z) (n : binTreeNode) : bool :=
  (if binTreeNodeTypeHasLeft (NodeType n) then linkOk t p (Left n) else true)
  && (if binTreeNodeTypeHasRight (NodeType n) then linkOk t p (Right n)
      else true).

(** Every left and right link of [t] is consistent.  [Validate] does not
    look at where the links point beyond their bounds; a tree in pre-order
    layout has this property. *)
Definition linksOk (t : binTree) : bool :=
  forallb (fun pn => nodeLinksOk t (Z.of_nat (fst pn)) (snd pn))
          (combine (seq 0 (length t)) t).

(** The entries that a visit changes: they were [Unknown], are [Resolved]
    afterwards, and are the visited child or reached from it over [Unknown]
    entries. *)
Definition changesOf (st st' : binTreeState) (P : Z -> Prop) : Prop :=
  forall j, zget (data st) j = Some binTreeStateUnknown ->
            zget (data st') j <> Some binTreeStateUnknown ->
            zget (data st') j = Some binTreeStateResolved /\ P j.

(** After a walk every entry that the walk decided has decided children. *)
Definition closedOver (st st' : binTreeState) : Prop :=
  forall p, zget (data st) p = Some binTreeStateUnknown -> decided st' p ->
  forall c, child (tree st) p c -> decided st' c.

(* ------------------------------------------------------------------ *)
(** * Sample trees *)

(** [NOT (NOT leaf)]: nodes 0 and 1 are [Not], node 2 is the leaf. *)
Definition notNotLeaf : binTree :=
  [ NewBinTreeNode nodeTypeNot 0 1 0;
    NewBinTreeNode nodeTypeNot 0 2 0;
    NewBinTreeNode nodeTypeLeaf 1 0 0 ].

(** [leaf OR (leaf NEOR leaf)]: node 0 is [Or], node 1 a leaf, node 2 the
    [Neor] with the leaves 3 and 4. *)
Definition orLeafNeor : binTree :=
  [ NewBinTreeNode nodeTypeOr 0 1 2;
    NewBinTreeNode nodeTypeLeaf 0 0 0;
    NewBinTreeNode nodeTypeNeor 0 3 4;
    NewBinTreeNode nodeTypeLeaf 2 0 0;
    NewBinTreeNode nodeTypeLeaf 2 0 0 ].

(** The claim on [MarkNode] read literally: every descendant of the marked
    node that is [Unknown] becomes [Resolved], whatever lies between it and
    the marked node. *)
Definition MarkNode_resolves_all_unknown_below : Prop :=
  forall st i v st',
    Validate (tree st) = Ret None -> linksOk (tree st) = true ->
    zget (data st) i = Some binTreeStateUnknown ->
    MarkNode st i v = Done st' ->
    zget (data st') i = Some (markValue v) /\
    forall d, below (tree st) i d ->
      (zget (data st) d = Some binTreeStateUnknown ->
       zget (data st') d = Some binTreeStateResolved) /\
      (zget (data st) d <> Some binTreeStateUnknown ->
       zget (data st') d = zget (data st) d).

(** [atOrBelow t s i]: [i] is the node [s] or one of its descendants. *)
Definition atOrBelow (t : binTree) (s i : Z) : Prop := i = s \/ below t s i.

(** [onlyChanges P st st']: the entries of [st'] that differ from those of
    [st] all have an index in [P]. *)
Definition onlyChanges (P : Z -> Prop) (st st' : binTreeState) : Prop :=
  forall j, zget (data st') j <> zget (data st) j -> P j.

(** A single leaf with a left link set, which no leaf may have. *)
Definition leafWithLeft : binTree := [ NewBinTreeNode nodeTypeLeaf 0 1 0 ].

(** [NOT (NOT leaf)] with the left link of node 1 pointing at node 1. *)
Definition notSelfLoop : binTree :=
  [ NewBinTreeNode nodeTypeNot 0 1 0;
    NewBinTreeNode nodeTypeNot 0 1 0;
    NewBinTreeNode nodeTypeLeaf 1 0 0 ].

(** [isLeafAt t i]: node [i] of [t] is a leaf. *)
Definition isLeafAt (t : binTree) (i : Z) : bool :=
  match zget t i with
  | Some n => NodeType n =? nodeTypeLeaf
  | None => false
  end.

(** A sequence of [MarkNode] calls, each on the state the one before
    returned. *)
Fixpoint markAll (marks : list (Z * bool)) (state : binTreeState) : outcome :=
  match marks with
  | [] => Done state
  | (i, v) :: rest => bind (MarkNode state i v) (markAll rest)
  end.

(** The state has the shape [NewState] gives it and no stall. *)
Definition freshShape (t : binTree) (st : binTreeState) : Prop :=
  tree st = t /\ stallIndex st = 0 /\ length (data st) = length t.

(** Under a decided node every child is decided. *)
Definition downClosed (t : binTree) (st : binTreeState) : Prop :=
  forall p c, child t p c -> decided st p -> decided st c.

(** A [Neor] node [n] that is [Unknown] has a child that is not decided. *)
Definition neorWaitsAt (t : binTree) (st : binTreeState) (n : Z) : Prop :=
  forall node, zget t n = Some node -> NodeType node = nodeTypeNeor ->
    zget (data st) n = Some binTreeStateUnknown ->
    decided st (Left node) -> decided st (Right node) -> False.

(** A [Neor] node [n] that is [True] has a [True] child, and one that is
    [False] has none. *)
Definition neorValueAt (t : binTree) (st : binTreeState) (n : Z) : Prop :=
  forall node, zget t n = Some node -> NodeType node = nodeTypeNeor ->
    (zget (data st) n = Some binTreeStateTrue ->
       zget (data st) (Left node) = Some binTreeStateTrue \/
       zget (data st) (Right node) = Some binTreeStateTrue) /\
    (zget (data st) n = Some binTreeStateFalse ->
       zget (data st) (Left node) <> Some binTreeStateTrue /\
       zget (data st) (Right node) <> Some binTreeStateTrue).

Definition neorInv (t : binTree) (st : binTreeState) : Prop :=
  freshShape t st /\ downClosed t st /\
  (forall n, neorWaitsAt t st n) /\ (forall n, neorValueAt t st n).

(** What [checkNode] has established when it marks a [Neor] node [i] with
    [v]: both children are decided and [v] tells whether one is [True]. *)
Definition neorMarkOk (t : binTree) (st : binTreeState) (i : Z) (v : bool)
  : Prop :=
  forall node, zget t i = Some node -> NodeType node = nodeTypeNeor ->
    exists l r,
      zget (data st) (Left node) = Some l /\
      zget (data st) (Right node) = Some r /\
      l <> binTreeStateUnknown /\ r <> binTreeStateUnknown /\
      v = isTrue l || isTrue r.

(** The claim on [Neor] read literally: once both children are decided the
    node is [True] or [False]. *)
Definition Neor_is_True_or_False_once_children_decided : Prop :=
  forall t marks st n node l r,
    linksOk t = true ->
    Forall (fun m => isLeafAt t (fst m) = true) marks ->
    markAll marks (NewState t) = Done st ->
    zget t n = Some node -> NodeType node = nodeTypeNeor ->
    zget (data st) (Left node) = Some l ->
    zget (data st) (Right node) = Some r ->
    (isUnknown l || isUnknown r = true ->
     zget (data st) n = Some binTreeStateUnknown) /\
    (isUnknown l || isUnknown r = false ->
     zget (data st) n = Some (markValue (isTrue l || isTrue r))).

(* ------------------------------------------------------------------ *)
(** * Sample syntax trees and an instance of the externals *)

Definition isDigit (c : ascii) : bool :=
  let n := nat_of_ascii c in (48 <=? n)%nat && (n <=? 57)%nat.

(** [matchDigits pat s]: [s] has the shape [pat], where [None] stands for a
    decimal digit and [Some c] for the character [c]. *)
Fixpoint matchDigits (pat : list (option ascii)) (s : string) : bool :=
  match pat, s with
  | [], EmptyString => true
  | None :: pat', String c s' => isDigit c && matchDigits pat' s'
  | Some d :: pat', String c s' => Ascii.eqb c d && matchDigits pat' s'
  | _, _ => false
  end.

Definition dash : option ascii := Some "-"%char.

(** Modelled from the spec: the lexemes of sections 4.4.1 and 6.3, the
    function names of section 3.4, and the three ISO-8601 formats of section
    4.4.2 as YYYY, YYYY-MM and YYYY-MM-DD; the package declares all of them
    outside the two source files.  The examples print no float and hold no
    PCRE pattern. *)
Definition sampleExternals : Externals := {|
  iso8601Year := matchDigits [None; None; None; None];
  iso8601YearAndMonth :=
    matchDigits [None; None; None; None; dash; None; None];
  iso8601CompleteDate :=
    matchDigits [None; None; None; None; dash; None; None; dash; None; None];
  tokenIsPcreValueType := fun _ => false;
  MakePcreExpression := fun s => (PcreExpr s, None);
  formatFloat := fun _ => "";
  OperatorNot := "NOT";
  OperatorTrue := "TRUE";
  OperatorFalse := "FALSE";
  OperatorMeta := "META";
  OperatorExists := "EXISTS";
  OperatorEquals := "=";
  OperatorNotEquals := "!=";
  OperatorGreaterThan := ">";
  OperatorGreaterThanEq := ">=";
  OperatorLessThan := "<";
  OperatorLessThanEq := "<=";
  OperatorMissing := "IS MISSING";
  OperatorNotMissing := "IS NOT MISSING";
  OperatorNull := "IS NULL";
  OperatorNotNull := "IS NOT NULL";
  FuncRegexp := "REGEXP_CONTAINS";
  FuncAbs := "ABS"; FuncAcos := "ACOS"; FuncAsin := "ASIN"; FuncAtan := "ATAN";
  FuncCeil := "CEIL"; FuncCos := "COS"; FuncDate := "DATE";
  FuncDeg := "DEGREES"; FuncExp := "EXP"; FuncFloor := "FLOOR";
  FuncLog := "LOG"; FuncLn := "LN"; FuncSin := "SIN"; FuncTan := "TAN";
  FuncRad := "RADIANS"; FuncRound := "ROUND"; FuncSqrt := "SQRT";
  FuncAtan2 := "ATAN2"; FuncPower := "POW";
  MathFuncNeg := "neg"; MathFuncAdd := "add"; MathFuncSub := "sub";
  MathFuncMul := "mul"; MathFuncDiv := "div"; MathFuncMod := "mod";
  MathFuncAbs := "abs"; MathFuncAcos := "acos"; MathFuncAsin := "asin";
  MathFuncAtan := "atan"; MathFuncCeil := "ceil"; MathFuncCos := "cos";
  DateFunc := "date"; MathFuncDegrees := "degrees"; MathFuncExp := "exp";
  MathFuncFloor := "floor"; MathFuncLog := "log"; MathFuncLn := "ln";
  MathFuncSin := "sin"; MathFuncTan := "tan"; MathFuncRadians := "radians";
  MathFuncRound := "round"; MathFuncSqrt := "sqrt"; MathFuncAtan2 := "atan2";
  MathFuncPow := "pow"
|}.

(** The condition [TRUE]. *)
Definition conditionTrue : FECondition :=
  mkFECondition None
    (Some (mkFEOperand
             (Some (mkFEBooleanExpr
                      (Some (mkFEBoolean (Some true) None None None)) None))
             None None None None)).

(** The tree of [( TRUE AND ( TRUE ) )].  A condition cannot start with a
    parenthesis, so the grammar takes [( TRUE] as the only [AndCondition] and
    [( TRUE ) )], after [AND], as a nested [FilterExpression] that closes
    both parentheses. *)
Definition nestedParens : FilterExpression :=
  mkFilterExpression
    [ mkFEAndCondition [mkFEOpenParen "("] [conditionTrue] [] ]
    [ mkFilterExpression
        [ mkFEAndCondition [mkFEOpenParen "("] [conditionTrue]
            [mkFECloseParen ")"; mkFECloseParen ")"] ]
        [] ].

(** The path segment [2021-01-02]. *)
Definition datePath : FEOnePath :=
  mkFEOnePath None (Some (mkFEStringType "" "" "" "2021-01-02")) [].

(** The field [- 2021-01-02 + 1]. *)
Definition dateFieldWithMath : FEField :=
  mkFEField (Some true) [datePath]
    (Some (mkFEMathArithmeticOp (Some true) None None None None))
    (Some (mkFEMathValue (Some 1) None)).

(* ------------------------------------------------------------------ *)
(** * Trees in pre-order layout *)

(** Modelled from the spec: section 3.1, the trees a BinTree stands for.
    [Or], [And] and [Neor] have a left and a right child, [Not] and [Loop]
    have a left child only, a leaf has none. *)
Inductive shape : Type :=
| ShLeaf
| ShNot (c : shape)
| ShLoop (c : shape)
| ShOr (l r : shape)
| ShAnd (l r : shape)
| ShNeor (l r : shape).

Fixpoint shapeSize (sh : shape) : nat :=
  match sh with
  | ShLeaf => 1
  | ShNot c | ShLoop c => S (shapeSize c)
  | ShOr l r | ShAnd l r | ShNeor l r => S (shapeSize l + shapeSize r)
  end.

(** Modelled from the spec: section 3.1, the flat array of a tree in
    pre-order, depth first and left before right.  The node of [sh] stands
    at index [pos] and names [parent] as its parent; its left child follows
    it at [pos + 1], its right child comes after the whole left subtree; an
    absent child is 0. *)
Fixpoint layout (sh : shape) (pos parent : Z) : list binTreeNode :=
  match sh with
  | ShLeaf => [NewBinTreeNode nodeTypeLeaf parent 0 0]
  | ShNot c =>
    NewBinTreeNode nodeTypeNot parent (pos + 1) 0 :: layout c (pos + 1) pos
  | ShLoop c =>
    NewBinTreeNode nodeTypeLoop parent (pos + 1) 0 :: layout c (pos + 1) pos
  | ShOr l r =>
    NewBinTreeNode nodeTypeOr parent (pos + 1)
                   (pos + 1 + Z.of_nat (shapeSize l))
    :: layout l (pos + 1) pos
       ++ layout r (pos + 1 + Z.of_nat (shapeSize l)) pos
  | ShAnd l r =>
    NewBinTreeNode nodeTypeAnd parent (pos + 1)
                   (pos + 1 + Z.of_nat (shapeSize l))
    :: layout l (pos + 1) pos
       ++ layout r (pos + 1 + Z.of_nat (shapeSize l)) pos
  | ShNeor l r =>
    NewBinTreeNode nodeTypeNeor parent (pos + 1)
                   (pos + 1 + Z.of_nat (shapeSize l))
    :: layout l (pos + 1) pos
       ++ layout r (pos + 1 + Z.of_nat (shapeSize l)) pos
  end.

(** The root is node 0 and is its own parent. *)
Definition preorderTree (sh : shape) : binTree := layout sh 0 0.

(** [laidOut t sh pos parent]: the nodes of [t] from index [pos] on are the
    pre-order layout of [sh] under the parent [parent]. *)
Inductive laidOut (t : binTree) : shape -> Z -> Z -> Prop :=
| lo_leaf pos parent n :
    zget t pos = Some n -> NodeType n = nodeTypeLeaf ->
    ParentIdx n = parent -> Left n = 0 -> Right n = 0 ->
    laidOut t ShLeaf pos parent
| lo_unary sh c pos parent n :
    (sh = ShNot c /\ NodeType n = nodeTypeNot) \/
    (sh = ShLoop c /\ NodeType n = nodeTypeLoop) ->
    zget t pos = Some n -> ParentIdx n = parent ->
    Left n = pos + 1 -> Right n = 0 ->
    laidOut t c (pos + 1) pos ->
    laidOut t sh pos parent
| lo_binary sh l r pos parent n :
    (sh = ShOr l r /\ NodeType n = nodeTypeOr) \/
    (sh = ShAnd l r /\ NodeType n = nodeTypeAnd) \/
    (sh = ShNeor l r /\ NodeType n = nodeTypeNeor) ->
    zget t pos = Some n -> ParentIdx n = parent ->
    Left n = pos + 1 -> Right n = pos + 1 + Z.of_nat (shapeSize l) ->
    laidOut t l (pos + 1) pos ->
    laidOut t r (pos + 1 + Z.of_nat (shapeSize l)) pos ->
    laidOut t sh pos parent.


(** [r] is not a return with [ErrorMalformedParenthesis]. *)
Definition noParenErr (r : result (Expression * option error)) : Prop :=
  forall e, r <> Ret (e, Some ErrorMalformedParenthesis).

Definition noParenErrPair (p : Expression * option error) : Prop :=
  snd p <> Some ErrorMalformedParenthesis.

(** The totals of opening and closing parentheses match for [f] and for
    every [FilterExpression] nested in it. *)
Fixpoint everyLevelBalanced (f : FilterExpression) : bool :=
  match f with
  | mkFilterExpression AndConditions SubFilterExpr =>
    (FilterExpression_GetTotalOpenParens f
     =? FilterExpression_GetTotalCloseParens f)
    && forallb everyLevelBalanced SubFilterExpr
  end.


(* ------------------------------------------------------------------ *)
(** * Vocabulary of the further properties *)

(** What a reset keeps, whether it returns or panics. *)
Definition resetFrame (st : binTreeState) (i : Z) (st' : binTreeState) : Prop :=
  tree st' = tree st /\ stallIndex st' = stallIndex st /\
  length (data st') = length (data st) /\
  (forall k, zget (data st') k = zget (data st) k \/
             zget (data st') k = Some binTreeStateUnknown) /\
  (forall k, ~ atOrBelow (tree st) i k ->
             zget (data st') k = zget (data st) k).

(** What [validateItem] has checked of a node it accepted: the type is one
    of the six, and the links of an inner node are set and inside the tree
    where the type has the child, and 0 where it has none.  Of a leaf it
    checks the type only. *)
Definition nodeChecked (t : binTree) (n : binTreeNode) : Prop :=
  NodeType n = nodeTypeLeaf \/
  ((NodeType n = nodeTypeOr \/ NodeType n = nodeTypeAnd \/
    NodeType n = nodeTypeNeor) /\
   0 < Left n < zlen t /\ 0 < Right n < zlen t) \/
  ((NodeType n = nodeTypeNot \/ NodeType n = nodeTypeLoop) /\
   0 < Left n < zlen t /\ Right n = 0).

(** What [validateItem], called on [item] with [parent], has checked of the
    node [j] that it walked over. *)
Definition walkedOver (t : binTree) (item parent j : Z) : Prop :=
  exists n, zget t j = Some n /\ nodeChecked t n /\
    (j = item -> ParentIdx n = parent) /\
    (item < j ->
     item <= ParentIdx n < j /\
     exists pn, zget t (ParentIdx n) = Some pn /\
                NodeType pn <> nodeTypeLeaf).

(** [valueOk st node b]: the children of [node] hold, in [st], values from
    which [checkNode] gives the node the value [b]. *)
Definition valueOk (st : binTreeState) (node : binTreeNode) (b : bool) : Prop :=
  let l := zget (data st) (Left node) in
  let r := zget (data st) (Right node) in
  if (NodeType node =? nodeTypeOr) || (NodeType node =? nodeTypeNeor) then
    if b then l = Some binTreeStateTrue \/ r = Some binTreeStateTrue
    else l = Some binTreeStateFalse /\ r = Some binTreeStateFalse
  else if NodeType node =? nodeTypeAnd then
    if b then l = Some binTreeStateTrue /\ r = Some binTreeStateTrue
    else l = Some binTreeStateFalse \/ r = Some binTreeStateFalse
  else if NodeType node =? nodeTypeNot then l = Some (markValue (negb b))
  else if NodeType node =? nodeTypeLoop then l = Some (markValue b)
  else True.

(** Every node that holds [True] or [False] holds the value of its
    children. *)
Definition valuesOk (t : binTree) (st : binTreeState) : Prop :=
  forall n node b, zget t n = Some node ->
    zget (data st) n = Some (markValue b) -> valueOk st node b.

(** A node is [Resolved] only under a decided parent. *)
Definition resolvedUnder (t : binTree) (st : binTreeState) : Prop :=
  forall c, zget (data st) c = Some binTreeStateResolved ->
  forall p, child t p c -> decided st p.

(** What [checkNode] has read when it calls [MarkNode(index, b)] on
    [node]. *)
Definition readOk (st : binTreeState) (node : binTreeNode) (b : bool) : Prop :=
  if NodeType node =? nodeTypeNeor then
    exists l r,
      zget (data st) (Left node) = Some l /\
      zget (data st) (Right node) = Some r /\
      l <> binTreeStateUnknown /\ r <> binTreeStateUnknown /\
      b = isTrue l || isTrue r
  else valueOk st node b.

(** [v] is [Unknown] or [Resolved]: it carries no truth value. *)
Definition noValue (v : binTreeStateValue) : Prop :=
  v = binTreeStateUnknown \/ v = binTreeStateResolved.

(** What [checkNode] has read when it returns without a call of
    [MarkNode]: a child without a truth value. *)
Definition idleRead (st : binTreeState) (node : binTreeNode) : Prop :=
  (exists l, zget (data st) (Left node) = Some l /\ noValue l) \/
  (binTreeNodeTypeHasRight (NodeType node) = true /\
   exists r, zget (data st) (Right node) = Some r /\ noValue r).

(** The leaves that hold [True] or [False] hold a value that [leafOk]
    allows. *)
Definition leavesAgree (t : binTree) (leafOk : Z -> bool -> Prop)
  (st : binTreeState) : Prop :=
  forall i b, isLeafAt t i = true ->
    zget (data st) i = Some (markValue b) -> leafOk i b.

(** What a mark must satisfy to keep the values sound: an inner node is
    marked with the value of its children, a leaf with a value that
    [leafOk] allows. *)
Definition markOk (t : binTree) (leafOk : Z -> bool -> Prop)
  (st : binTreeState) (i : Z) (v : bool) : Prop :=
  (forall node, zget t i = Some node -> valueOk st node v) /\
  (isLeafAt t i = true -> leafOk i v).

Definition valueInv (t : binTree) (leafOk : Z -> bool -> Prop)
  (st : binTreeState) : Prop :=
  tree st = t /\ valuesOk t st /\ resolvedUnder t st /\
  leavesAgree t leafOk st.

(** An inner node that is [Unknown] has an [Unknown] child. *)
Definition waitsAt (t : binTree) (st : binTreeState) (n : Z) : Prop :=
  forall node, zget t n = Some node -> NodeType node <> nodeTypeLeaf ->
    zget (data st) n = Some binTreeStateUnknown ->
    zget (data st) (Left node) = Some binTreeStateUnknown \/
    (binTreeNodeTypeHasRight (NodeType node) = true /\
     zget (data st) (Right node) = Some binTreeStateUnknown).

(** A state without a stall in which the root is not [Resolved]. *)
Definition waitInv (t : binTree) (st : binTreeState) : Prop :=
  tree st = t /\ stallIndex st = 0 /\ length (data st) = length t /\
  resolvedUnder t st /\ zget (data st) 0 <> Some binTreeStateResolved.

(** Modelled from the spec: section 3.1, the truth value of the formula
    under node [n] when the leaves have the values [a]: [Or] and [Neor] are
    the disjunction, [And] the conjunction, [Not] the negation and [Loop]
    the value of the child.  The links are followed as [resolveRecursive]
    follows them. *)
Fixpoint evalNode (fuel : nat) (t : binTree) (a : Z -> bool) (n : Z)
  : option bool :=
  match fuel with
  | O => None
  | S fuel' =>
    match zget t n with
    | None => None
    | Some node =>
      let l := evalNode fuel' t a (Left node) in
      let r := evalNode fuel' t a (Right node) in
      if NodeType node =? nodeTypeLeaf then Some (a n)
      else if (NodeType node =? nodeTypeOr) || (NodeType node =? nodeTypeNeor)
      then match l, r with Some x, Some y => Some (x || y) | _, _ => None end
      else if NodeType node =? nodeTypeAnd
      then match l, r with Some x, Some y => Some (x && y) | _, _ => None end
      else if NodeType node =? nodeTypeNot then option_map negb l
      else if NodeType node =? nodeTypeLoop then l
      else None
    end
  end.

(** The claim on monotonicity read literally: a call that changes a decided
    entry is a [Reset], or a [ResetNode] on the node or on one of its
    ancestors. *)
Definition only_Reset_and_ResetNode_change_decided : Prop :=
  forall st j x m st',
    zget (data st) j = Some x -> x <> binTreeStateUnknown ->
    finalState (call m st) = Some st' ->
    zget (data st') j <> Some x ->
    m = CallReset \/
    exists i, m = CallResetNode i /\ atOrBelow (tree st) i j.

(** A [Resolved] node has a decided parent. *)
Definition resolvedByParent (t : binTree) (st : binTreeState) : Prop :=
  forall c, zget (data st) c = Some binTreeStateResolved ->
  exists p, child t p c /\ decided st p.


(** Every node but the root is the left or the right link of the node that
    it names as its parent. *)
Definition parentLinked (t : binTree) : bool :=
  forallb (fun jn =>
    let j := Z.of_nat (fst jn) in
    (j =? 0) ||
    match zget t (ParentIdx (snd jn)) with
    | Some pn =>
      (binTreeNodeTypeHasLeft (NodeType pn) && (Left pn =? j)) ||
      (binTreeNodeTypeHasRight (NodeType pn) && (Right pn =? j))
    | None => false
    end) (combine (seq 0 (length t)) t).

(** The outcome is no panic, and a returned state satisfies [Q]. *)
Definition endsWell (Q : binTreeState -> Prop) (o : outcome) : Prop :=
  match o with
  | Done state => Q state
  | Panic _ _ => False
  | OutOfFuel => True
  end.

(** A state of the tree [t] in which every child of a decided node is
    decided. *)
Definition safeState (t : binTree) (st : binTreeState) : Prop :=
  tree st = t /\ length (data st) = length t /\ downClosed t st.

(** What the loop of [Resolve] keeps: the values are sound for the leaf
    values [a], an [Unknown] inner node has an [Unknown] child, and [a] is
    false on the [Unknown] leaves. *)
Definition resolveInv (t : binTree) (a : Z -> bool) (st : binTreeState)
  : Prop :=
  valueInv t (fun i b => a i = b) st /\ waitInv t st /\
  (forall n, waitsAt t st n) /\ safeState t st /\
  (forall j, isLeafAt t j = true ->
             zget (data st) j = Some binTreeStateUnknown -> a j = false).

(** The sum of a list of counts. *)
Definition zsum (l : list Z) : Z := fold_right Z.add 0 l.

(** [x] is the conversion of the And-condition [ac]: the [AndExpr] of the
    conversions of its conditions, in their order. *)
Definition andConverts (ext : Externals) (ac : FEAndCondition) (x : Expression)
  : Prop :=
  match ac with
  | mkFEAndCondition _ OrConditions _ =>
    exists xs, x = AndExpr xs /\
      Forall2 (fun c y => FECondition_OutputExpression ext c = Ret (y, None))
              OrConditions xs
  end.

(** [e] holds no [nil] expression, at the top or nested. *)
Fixpoint noNil (e : Expression) : bool :=
  match e with
  | NilExpression => false
  | OrExpr exprs | AndExpr exprs => forallb noNil exprs
  | NotExpr s | ExistsExpr s | NotExistsExpr s => noNil s
  | FuncExpr _ params => forallb noNil params
  | EqualsExpr l r | NotEqualsExpr l r | GreaterThanExpr l r
  | GreaterEqualsExpr l r | LessThanExpr l r | LessEqualsExpr l r
  | LikeExpr l r => noNil l && noNil r
  | TrueExpr | FalseExpr | ValueExpr _ | FieldExpr _ | RegexExpr _
  | PcreExpr _ => true
  end.

(** A returned pair without an error holds an expression without [nil]. *)
Definition soundPair (p : Expression * option error) : Prop :=
  snd p = None -> noNil (fst p) = true.

Definition soundResult (r : result (Expression * option error)) : Prop :=
  forall p, r = Ret p -> soundPair p.

(** The tree of [TRUE AND TRUE]: the second [TRUE] is a nested
    [FilterExpression]. *)
Definition trueAndTrue : FilterExpression :=
  mkFilterExpression
    [ mkFEAndCondition [] [conditionTrue] [] ]
    [ mkFilterExpression [ mkFEAndCondition [] [conditionTrue] [] ] [] ].

(** Exactly one of the four fields of the character is set, as the grammar
    sets them. *)
Definition oneCharSet (c : FEOpChar) : bool :=
  match c with
  | mkFEOpChar Not Equal LessThan GreaterThan =>
    (length (filter (fun b : bool => b)
               [notNil Not; notNil Equal; notNil LessThan; notNil GreaterThan])
     =? 1)%nat
  end.

(** The one or two characters of the operator, as they were read. *)
Definition compareOpText (f : FECompareOp) : string :=
  match f with
  | mkFECompareOp OpChars0 OpChars1 =>
    (match OpChars0 with Some c => FEOpChar_String c | None => "" end
     ++ match OpChars1 with Some c => FEOpChar_String c | None => "" end)%string
  end.


(* ================================================================== *)
(** * Proofs *)

(* ------------------------------------------------------------------ *)
(** * Facts about slices *)

Section Slices.
Context {A : Type}.
Implicit Types (l : list A) (v x : A).

Lemma length_list_set l n v : length (list_set l n v) = length l.
Proof.
  revert n; induction l as [|a l IH]; intros [|n]; simpl; auto.
Qed.

Lemma nth_error_list_set_eq l n v :
  (n < length l)%nat -> nth_error (list_set l n v) n = Some v.
Proof.
  revert n; induction l as [|a l IH]; intros [|n] H; simpl in *;
    try lia; auto.
  apply IH; lia.
Qed.

Lemma nth_error_list_set_ne l n m v :
  n <> m -> nth_error (list_set l n v) m = nth_error l m.
Proof.
  revert n m; induction l as [|a l IH]; intros [|n] [|m] H; simpl;
    auto; try congruence.
Qed.

Lemma zget_range l i x : zget l i = Some x -> 0 <= i < zlen l.
Proof.
  unfold zget, zlen. destruct (Z.ltb_spec i 0); [discriminate|].
  intros H0. assert (nth_error l (Z.to_nat i) <> None) as Hn by congruence.
  apply nth_error_Some in Hn. lia.
Qed.

Lemma zget_in_range l i : 0 <= i < zlen l -> exists x, zget l i = Some x.
Proof.
  unfold zget, zlen. intros H. destruct (Z.ltb_spec i 0); [lia|].
  destruct (nth_error l (Z.to_nat i)) eqn:E; eauto.
  apply nth_error_None in E. lia.
Qed.

Lemma zlen_zset l i v : zlen (zset l i v) = zlen l.
Proof.
  unfold zset, zlen. destruct (i <? 0); auto. now rewrite length_list_set.
Qed.

Lemma length_zset l i v : length (zset l i v) = length l.
Proof.
  unfold zset. destruct (i <? 0); auto. now rewrite length_list_set.
Qed.

Lemma zget_zset_eq l i v x : zget l i = Some x -> zget (zset l i v) i = Some v.
Proof.
  intros H. pose proof (zget_range _ _ _ H) as Hr. unfold zget, zset, zlen in *.
  destruct (Z.ltb_spec i 0); [lia|]. apply nth_error_list_set_eq. lia.
Qed.

Lemma zget_zset_ne l i j v : i <> j -> zget (zset l i v) j = zget l j.
Proof.
  intros H. unfold zget, zset.
  destruct (Z.ltb_spec j 0); auto. destruct (Z.ltb_spec i 0); auto.
  apply nth_error_list_set_ne. lia.
Qed.

Lemma zget_zset l i j v x :
  zget (zset l i v) j = Some x ->
  (i = j /\ x = v) \/ (zget l j = Some x).
Proof.
  intros H. destruct (Z.eq_dec i j) as [->|Hne].
  - destruct (zget l j) eqn:E.
    + rewrite (zget_zset_eq _ _ v _ E) in H. left; split; congruence.
    + pose proof (zget_range _ _ _ H) as Hr. rewrite zlen_zset in Hr.
      destruct (zget_in_range l _ Hr) as [y Hy]. congruence.
  - rewrite zget_zset_ne in H by auto. now right.
Qed.
End Slices.

(* ------------------------------------------------------------------ *)
(** * Reasoning about outcomes *)

Lemma post_impl (P Q : binTreeState -> Prop) o :
  (forall s, P s -> Q s) -> post P o -> post Q o.
Proof. destruct o; simpl; auto. Qed.

Lemma post_bind Q o k :
  post (fun s => Q s /\ post Q (k s)) o -> post Q (bind o k).
Proof. destruct o; simpl; tauto. Qed.

Lemma post_withData Q st i k :
  Q st ->
  (forall v, zget (data st) i = Some v -> post Q (k v)) ->
  post Q (withData st i k).
Proof. unfold withData. intros H0 H. destruct (zget (data st) i); simpl; auto. Qed.

Lemma post_withNode Q st i k :
  Q st ->
  (forall n, zget (tree st) i = Some n -> post Q (k n)) ->
  post Q (withNode st i k).
Proof. unfold withNode. intros H0 H. destruct (zget (tree st) i); simpl; auto. Qed.

Lemma isUnknown_true v : isUnknown v = true -> v = binTreeStateUnknown.
Proof. destruct v; simpl; congruence. Qed.

Lemma isUnknown_false v : isUnknown v = false -> v <> binTreeStateUnknown.
Proof. destruct v; simpl; congruence. Qed.

Lemma countUnknown_list_set l n v :
  nth_error l n = Some binTreeStateUnknown -> isUnknown v = false ->
  S (countUnknown (list_set l n v)) = countUnknown l.
Proof.
  unfold countUnknown. revert n; induction l as [|a l IH]; intros [|n] H Hv;
    simpl in *; try discriminate.
  - injection H as ->. simpl. now rewrite Hv.
  - destruct (isUnknown a); simpl; rewrite (IH n); auto.
Qed.

Lemma countUnknown_zset l i v :
  zget l i = Some binTreeStateUnknown -> isUnknown v = false ->
  S (countUnknown (zset l i v)) = countUnknown l.
Proof.
  unfold zget, zset. destruct (i <? 0); [discriminate|].
  apply countUnknown_list_set.
Qed.

Lemma countUnknown_le_length l : (countUnknown l <= length l)%nat.
Proof. unfold countUnknown. apply filter_length_le. Qed.

(* ------------------------------------------------------------------ *)
(** * Decided entries stay as they are *)

Lemma extends_refl st : extends st st.
Proof. unfold extends; intuition. Qed.

Lemma extends_trans st1 st2 st3 :
  extends st1 st2 -> extends st2 st3 -> extends st1 st3.
Proof.
  unfold extends. intros (T1 & S1 & L1 & M1 & C1) (T2 & S2 & L2 & M2 & C2).
  repeat split; try congruence; try lia. auto.
Qed.

Lemma extends_setData st i v :
  zget (data st) i = Some binTreeStateUnknown -> isUnknown v = false ->
  extends st (setData st i v).
Proof.
  intros Hi Hv. unfold extends, setData; simpl. repeat split.
  - apply length_zset.
  - intros j x Hj Hx. destruct (Z.eq_dec i j) as [->|Hne]; [congruence|].
    now rewrite zget_zset_ne.
  - pose proof (countUnknown_zset _ _ _ Hi Hv). lia.
Qed.

Lemma post_extends_trans st st1 o :
  extends st st1 -> post (extends st1) o -> post (extends st) o.
Proof. intros H. apply post_impl. intros s. now apply extends_trans. Qed.

Lemma resolveRecursive_S fuel st i :
  resolveRecursive (S fuel) st i =
  withNode st i (fun n =>
  bind (if binTreeNodeTypeHasLeft (NodeType n)
        then visitChild fuel st (Left n) else Done st) (fun st1 =>
  if binTreeNodeTypeHasRight (NodeType n)
  then visitChild fuel st1 (Right n) else Done st1)).
Proof. reflexivity. Qed.

Lemma visitChild_extends fuel :
  (forall st i, post (extends st) (resolveRecursive fuel st i)) ->
  forall st c, post (extends st) (visitChild fuel st c).
Proof.
  intros IH st c. apply post_withData; [apply extends_refl|]. intros v Hv.
  destruct (isUnknown v) eqn:E; [|apply extends_refl].
  apply isUnknown_true in E; subst v.
  eapply post_extends_trans; [|apply IH]. now apply extends_setData.
Qed.

Lemma resolveRecursive_extends fuel :
  forall st i, post (extends st) (resolveRecursive fuel st i).
Proof.
  induction fuel as [|fuel IH]; intros st i; [exact I|].
  rewrite resolveRecursive_S.
  apply post_withNode; [apply extends_refl|]. intros n _.
  apply post_bind.
  assert (post (extends st)
            (if binTreeNodeTypeHasLeft (NodeType n)
             then visitChild fuel st (Left n) else Done st)) as HL.
  { destruct (binTreeNodeTypeHasLeft (NodeType n));
      [now apply visitChild_extends|apply extends_refl]. }
  revert HL. apply post_impl. intros s1 H1. split; [exact H1|].
  destruct (binTreeNodeTypeHasRight (NodeType n)); [|exact H1].
  eapply post_extends_trans; [exact H1|now apply visitChild_extends].
Qed.

Ltac post_step :=
  match goal with
  | |- post _ (withData _ _ _) => apply post_withData; [|intros ? ?]
  | |- post _ (withNode _ _ _) => apply post_withNode; [|intros ? ?]
  | |- post _ (if ?c then _ else _) => destruct c eqn:?
  | |- post _ (Done _) => simpl
  | |- post _ (Panic _ _) => simpl
  end.

(** Whatever holds of the state on entry and after every call back holds
    after [checkNode]. *)
Lemma checkNodeWith_post (Q : binTreeState -> Prop) mark st i :
  Q st -> (forall b, post Q (mark st i b)) ->
  post Q (checkNodeWith mark st i).
Proof.
  intros H0 Hm. unfold checkNodeWith. repeat post_step; auto.
Qed.

Lemma MarkNode_fuel_S fuel st i v :
  MarkNode_fuel (S fuel) st i v =
  withData st i (fun cur =>
  if negb (isUnknown cur) then
    Panic (PanicMsg "cannot resolve same state node twice") st
  else
    bind (resolveRecursive (S fuel)
            (setData st i (if v then binTreeStateTrue else binTreeStateFalse))
            i) (fun st2 =>
    if i =? 0 then Done st2
    else if i =? stallIndex st2 then Done st2
    else withNode st2 i (fun defNode =>
         checkNodeWith (MarkNode_fuel fuel) st2 (ParentIdx defNode)))).
Proof. reflexivity. Qed.

Lemma MarkNode_fuel_extends fuel :
  forall st i v, post (extends st) (MarkNode_fuel fuel st i v).
Proof.
  induction fuel as [|fuel IH]; intros st i v; [exact I|].
  rewrite MarkNode_fuel_S.
  apply post_withData; [apply extends_refl|]. intros cur Hcur.
  destruct (isUnknown cur) eqn:E; cbn [negb]; [|apply extends_refl].
  apply isUnknown_true in E; subst cur.
  set (st1 := setData st i (if v then binTreeStateTrue else binTreeStateFalse)).
  assert (extends st st1) as H1.
  { apply extends_setData; auto. now destruct v. }
  apply post_bind.
  generalize (resolveRecursive_extends (S fuel) st1 i). apply post_impl.
  intros st2 H2. assert (extends st st2) as H02 by (eapply extends_trans; eauto).
  split; [exact H02|].
  repeat post_step; auto.
  apply checkNodeWith_post; [exact H02|]. intros b.
  eapply post_extends_trans; [exact H02|apply IH].
Qed.

Lemma MarkNode_extends st i v : post (extends st) (MarkNode st i v).
Proof. apply MarkNode_fuel_extends. Qed.

Lemma checkNode_extends st i : post (extends st) (checkNode st i).
Proof.
  apply checkNodeWith_post; [apply extends_refl|]. intros b.
  apply MarkNode_extends.
Qed.

Lemma Resolve_loop_extends n :
  forall st, post (extends st) (Resolve_loop n st).
Proof.
  induction n as [|n IH]; intros st; simpl; [apply extends_refl|].
  apply post_withData; [apply extends_refl|]. intros cur Hcur.
  apply post_bind.
  assert (post (extends st)
            (if isUnknown cur then MarkNode st (Z.of_nat n) false else Done st))
    as H.
  { destruct (isUnknown cur); [apply MarkNode_extends|apply extends_refl]. }
  revert H. apply post_impl. intros st1 H1. split; [exact H1|].
  repeat post_step; auto.
  eapply post_extends_trans; [exact H1|apply IH].
Qed.

Lemma Resolve_extends st : post (extends st) (Resolve st).
Proof.
  unfold Resolve. repeat post_step; try apply extends_refl.
  apply Resolve_loop_extends.
Qed.

(* ------------------------------------------------------------------ *)
(** * The fuel of the entry points is enough *)

Lemma bind_returns o k :
  o <> OutOfFuel -> (forall s, o = Done s -> k s <> OutOfFuel) ->
  bind o k <> OutOfFuel.
Proof. destruct o; simpl; auto. Qed.

Lemma withData_returns st i k :
  (forall v, zget (data st) i = Some v -> k v <> OutOfFuel) ->
  withData st i k <> OutOfFuel.
Proof. unfold withData. destruct (zget (data st) i); auto. discriminate. Qed.

Lemma withNode_returns st i k :
  (forall n, zget (tree st) i = Some n -> k n <> OutOfFuel) ->
  withNode st i k <> OutOfFuel.
Proof. unfold withNode. destruct (zget (tree st) i); auto. discriminate. Qed.

Ltac returns_step :=
  match goal with
  | |- withData _ _ _ <> OutOfFuel => apply withData_returns; intros ? ?
  | |- withNode _ _ _ <> OutOfFuel => apply withNode_returns; intros ? ?
  | |- (if ?c then _ else _) <> OutOfFuel => destruct c eqn:?
  | |- Done _ <> OutOfFuel => discriminate
  | |- Panic _ _ <> OutOfFuel => discriminate
  end.

Lemma post_Done Q o s : post Q o -> o = Done s -> Q s.
Proof. intros H ->. exact H. Qed.

Lemma extends_count st st' :
  extends st st' -> (countUnknown (data st') <= countUnknown (data st))%nat.
Proof. unfold extends; tauto. Qed.

Lemma visitChild_returns fuel :
  (forall st i, (countUnknown (data st) < fuel)%nat ->
                resolveRecursive fuel st i <> OutOfFuel) ->
  forall st c, (countUnknown (data st) < S fuel)%nat ->
               visitChild fuel st c <> OutOfFuel.
Proof.
  intros IH st c Hc. unfold visitChild. repeat returns_step. apply IH.
  apply isUnknown_true in Heqb; subst v.
  pose proof (countUnknown_zset (data st) c binTreeStateResolved H eq_refl).
  simpl. lia.
Qed.

Lemma resolveRecursive_returns fuel :
  forall st i, (countUnknown (data st) < fuel)%nat ->
               resolveRecursive fuel st i <> OutOfFuel.
Proof.
  induction fuel as [|fuel IH]; intros st i Hc; [lia|].
  rewrite resolveRecursive_S.
  apply withNode_returns. intros n _. apply bind_returns.
  - destruct (binTreeNodeTypeHasLeft (NodeType n));
      [now apply visitChild_returns|discriminate].
  - intros s1 E1.
    assert (extends st s1) as Hx.
    { destruct (binTreeNodeTypeHasLeft (NodeType n)).
      + eapply post_Done; [|exact E1].
        apply visitChild_extends. apply resolveRecursive_extends.
      + injection E1 as <-. apply extends_refl. }
    apply extends_count in Hx.
    destruct (binTreeNodeTypeHasRight (NodeType n)); [|discriminate].
    apply visitChild_returns; auto. lia.
Qed.

Lemma checkNodeWith_returns mark st i :
  (forall b, mark st i b <> OutOfFuel) ->
  checkNodeWith mark st i <> OutOfFuel.
Proof. intros Hm. unfold checkNodeWith. repeat returns_step; auto. Qed.

Lemma MarkNode_fuel_returns fuel :
  forall st i v, (countUnknown (data st) < fuel)%nat ->
                 MarkNode_fuel fuel st i v <> OutOfFuel.
Proof.
  induction fuel as [|fuel IH]; intros st i v Hc; [lia|].
  rewrite MarkNode_fuel_S.
  apply withData_returns. intros cur Hcur.
  destruct (isUnknown cur) eqn:E; cbn [negb]; [|discriminate].
  apply isUnknown_true in E; subst cur.
  set (st1 := setData st i (if v then binTreeStateTrue else binTreeStateFalse)).
  assert (S (countUnknown (data st1)) = countUnknown (data st)) as Hc1.
  { apply countUnknown_zset; auto. now destruct v. }
  apply bind_returns.
  - apply resolveRecursive_returns. lia.
  - intros st2 E2.
    pose proof (post_Done _ _ _ (resolveRecursive_extends (S fuel) st1 i) E2) as Hx.
    apply extends_count in Hx.
    repeat returns_step. apply checkNodeWith_returns. intros b. apply IH. lia.
Qed.

Lemma MarkNode_returns st i v : MarkNode st i v <> OutOfFuel.
Proof.
  apply MarkNode_fuel_returns. pose proof (countUnknown_le_length (data st)). lia.
Qed.

Lemma checkNode_returns st i : checkNode st i <> OutOfFuel.
Proof. apply checkNodeWith_returns. intros b. apply MarkNode_returns. Qed.

Lemma Resolve_loop_returns n : forall st, Resolve_loop n st <> OutOfFuel.
Proof.
  induction n as [|n IH]; intros st; simpl; [discriminate|].
  apply withData_returns. intros cur _. apply bind_returns.
  - destruct (isUnknown cur); [apply MarkNode_returns|discriminate].
  - intros st1 _. repeat returns_step. apply IH.
Qed.

Lemma Resolve_returns st : Resolve st <> OutOfFuel.
Proof. unfold Resolve. repeat returns_step. apply Resolve_loop_returns. Qed.

(* ------------------------------------------------------------------ *)
(** * What one [MarkNode] does to the marked node *)

Lemma extends_get st st' j x :
  extends st st' -> zget (data st) j = Some x -> x <> binTreeStateUnknown ->
  zget (data st') j = Some x.
Proof. unfold extends. intros (_ & _ & _ & H & _). apply H. Qed.

Lemma MarkNode_fuel_after_set fuel st i v :
  zget (data st) i = Some binTreeStateUnknown ->
  post (extends (setData st i (markValue v))) (MarkNode_fuel fuel st i v).
Proof.
  intros Hi. destruct fuel as [|fuel]; [exact I|].
  rewrite MarkNode_fuel_S. unfold withData. rewrite Hi. cbn [isUnknown negb].
  fold (markValue v). set (st1 := setData st i (markValue v)).
  apply post_bind.
  generalize (resolveRecursive_extends (S fuel) st1 i). apply post_impl.
  intros st2 H2. split; [exact H2|].
  repeat post_step; auto.
  apply checkNodeWith_post; [exact H2|]. intros b.
  eapply post_extends_trans; [exact H2|apply MarkNode_fuel_extends].
Qed.

Lemma MarkNode_fuel_sets fuel st i v :
  zget (data st) i = Some binTreeStateUnknown ->
  post (fun st' => zget (data st') i = Some (markValue v))
       (MarkNode_fuel fuel st i v).
Proof.
  intros Hi. generalize (MarkNode_fuel_after_set fuel st i v Hi).
  apply post_impl. intros st' Hx.
  eapply extends_get; [exact Hx| |destruct v; discriminate].
  simpl. eapply zget_zset_eq; eauto.
Qed.

(* ------------------------------------------------------------------ *)
(** * [Resolve] *)

Lemma extends_length st st' :
  extends st st' -> length (data st') = length (data st).
Proof. unfold extends; tauto. Qed.

Lemma zget_of_nat_lt {A} (l : list A) (n : nat) :
  (n < length l)%nat -> exists x, zget l (Z.of_nat n) = Some x.
Proof. intros H. apply zget_in_range. unfold zlen. lia. Qed.

Lemma decided_root_after_mark_step st st1 cur :
  zget (data st) 0 = Some cur ->
  (if isUnknown cur then MarkNode st 0 false else Done st) = Done st1 ->
  decided st1 0.
Proof.
  intros Hcur E. destruct (isUnknown cur) eqn:U.
  - apply isUnknown_true in U; subst cur.
    pose proof (post_Done _ _ _ (MarkNode_fuel_sets _ st 0 false Hcur) E) as H.
    exists binTreeStateFalse. split; [exact H|discriminate].
  - injection E as <-. exists cur. split; [exact Hcur|now apply isUnknown_false].
Qed.

Lemma Resolve_loop_root n :
  forall st st', n <> O -> Resolve_loop n st = Done st' -> decided st' 0.
Proof.
  induction n as [|n IH]; intros st st' Hn E; [congruence|]. simpl in E.
  unfold withData at 1 in E.
  destruct (zget (data st) (Z.of_nat n)) as [cur|] eqn:Hcur; [|discriminate].
  destruct (if isUnknown cur then MarkNode st (Z.of_nat n) false else Done st)
    as [st1| |] eqn:E1; simpl in E; try discriminate.
  unfold withData in E.
  destruct (zget (data st1) 0) as [root|] eqn:Hroot; [|discriminate].
  destruct (isUnknown root) eqn:U; simpl in E.
  - destruct n as [|n].
    + simpl in E. injection E as <-.
      eapply decided_root_after_mark_step; [exact Hcur|exact E1].
    + eapply IH; [discriminate|exact E].
  - injection E as <-. exists root. split; [exact Hroot|now apply isUnknown_false].
Qed.

Lemma Resolve_root st st' : Resolve st = Done st' -> decided st' 0.
Proof.
  unfold Resolve, withData. intros E.
  destruct (zget (data st) 0) as [root|] eqn:Hroot; [|discriminate].
  destruct (isUnknown root) eqn:U; simpl in E.
  - eapply Resolve_loop_root; [|exact E].
    apply zget_range in Hroot. unfold zlen in Hroot. lia.
  - injection E as <-. exists root. split; [exact Hroot|now apply isUnknown_false].
Qed.

Lemma Resolve_decided_root st : decided st 0 -> Resolve st = Done st.
Proof.
  intros (x & Hx & Hne). unfold Resolve, withData. rewrite Hx.
  destruct x; simpl; congruence.
Qed.

Lemma Resolve_loop_refines n :
  forall st, zget (data st) 0 = Some binTreeStateUnknown ->
             Resolve_loop n st = resolveDown_spec n st.
Proof.
  induction n as [|n IH]; intros st Hroot; [reflexivity|]. simpl.
  unfold withData at 3. rewrite Hroot. cbn [isUnknown negb].
  unfold withData at 1 3.
  destruct (zget (data st) (Z.of_nat n)) as [cur|] eqn:Hcur; [|reflexivity].
  assert (post (extends st)
            (if isUnknown cur then MarkNode st (Z.of_nat n) false else Done st))
    as Hx.
  { destruct (isUnknown cur); [apply MarkNode_extends|apply extends_refl]. }
  destruct (if isUnknown cur then MarkNode st (Z.of_nat n) false else Done st)
    as [st1| |] eqn:E1; simpl; try reflexivity.
  simpl in Hx. apply extends_length in Hx.
  assert (exists r, zget (data st1) 0 = Some r) as [r Hr].
  { change 0 with (Z.of_nat 0). apply zget_of_nat_lt.
    apply zget_range in Hroot. unfold zlen in Hroot. lia. }
  unfold withData. rewrite Hr.
  destruct n as [|n].
  - simpl. now destruct (isUnknown r).
  - destruct (isUnknown r) eqn:U; cbn [negb].
    + apply isUnknown_true in U; subst r. now apply IH.
    + simpl. unfold withData. rewrite Hr, U. reflexivity.
Qed.

Lemma Resolve_refines st : data st <> [] -> Resolve st = Resolve_spec st.
Proof.
  intros Hne. unfold Resolve, Resolve_spec.
  destruct (data st) as [|x l] eqn:Hd; [congruence|].
  unfold withData at 1. rewrite Hd. cbn [zget Z.ltb Z.compare Z.to_nat nth_error].
  destruct (isUnknown x) eqn:U; cbn [negb].
  - rewrite <- Hd. apply Resolve_loop_refines. rewrite Hd.
    apply isUnknown_true in U. now subst x.
  - simpl. unfold withData. rewrite Hd. simpl. now rewrite U.
Qed.

(* ------------------------------------------------------------------ *)
(** * The depth-first walk of [resolveRecursive] *)

Lemma bind_Done o k s :
  bind o k = Done s -> exists s1, o = Done s1 /\ k s1 = Done s.
Proof. destruct o; simpl; intros H; try discriminate. eauto. Qed.

Lemma withData_Done st i k s :
  withData st i k = Done s ->
  exists v, zget (data st) i = Some v /\ k v = Done s.
Proof.
  unfold withData. destruct (zget (data st) i); intros H; try discriminate.
  eauto.
Qed.

Lemma withNode_Done st i k s :
  withNode st i k = Done s ->
  exists n, zget (tree st) i = Some n /\ k n = Done s.
Proof.
  unfold withNode. destruct (zget (tree st) i); intros H; try discriminate.
  eauto.
Qed.

Lemma extends_tree st st' : extends st st' -> tree st' = tree st.
Proof. unfold extends; tauto. Qed.

Lemma extends_stall st st' : extends st st' -> stallIndex st' = stallIndex st.
Proof. unfold extends; tauto. Qed.

Lemma extends_decided st st' j : extends st st' -> decided st j -> decided st' j.
Proof. intros H (x & Hx & Hne). exists x. split; auto. eapply extends_get; eauto. Qed.

Lemma extends_get_Some st st' j x :
  extends st st' -> zget (data st) j = Some x ->
  exists y, zget (data st') j = Some y.
Proof.
  intros H Hx. apply zget_in_range. apply zget_range in Hx.
  unfold zlen in *. rewrite (extends_length _ _ H). exact Hx.
Qed.

Lemma extends_unknown_back st st' j :
  extends st st' -> zget (data st') j = Some binTreeStateUnknown ->
  zget (data st) j = Some binTreeStateUnknown.
Proof.
  intros H Hj.
  assert (exists y, zget (data st) j = Some y) as [y Hy].
  { apply zget_in_range. apply zget_range in Hj. unfold zlen in *.
    rewrite <- (extends_length _ _ H). exact Hj. }
  destruct y; auto; pose proof (extends_get _ _ _ _ H Hy) as H';
    rewrite H' in Hj by discriminate; discriminate.
Qed.

Lemma decided_or_unknown st j x :
  zget (data st) j = Some x ->
  decided st j \/ zget (data st) j = Some binTreeStateUnknown.
Proof.
  intros H. destruct x; [now right| | |]; left; eexists; split; eauto; discriminate.
Qed.

Lemma not_decided_unknown st j :
  zget (data st) j = Some binTreeStateUnknown -> ~ decided st j.
Proof. intros H (x & Hx & Hne). congruence. Qed.

Lemma reachUnknown_unknown t s i d :
  reachUnknown t s i d -> zget s d = Some binTreeStateUnknown.
Proof. destruct 1; auto. Qed.

Lemma reachUnknown_below t s i d : reachUnknown t s i d -> below t i d.
Proof.
  induction 1; [now apply below_child|eapply below_step; eauto].
Qed.

Lemma reachUnknown_mono t s s' i d :
  (forall x, zget s' x = Some binTreeStateUnknown ->
             zget s x = Some binTreeStateUnknown) ->
  reachUnknown t s' i d -> reachUnknown t s i d.
Proof.
  intros H. induction 1; [apply ru_child|eapply ru_step]; eauto.
Qed.

Lemma reachUnknown_cons t s i c d :
  child t i c -> zget s c = Some binTreeStateUnknown ->
  reachUnknown t s c d -> reachUnknown t s i d.
Proof.
  intros Hc Hu. induction 1.
  - eapply ru_step; eauto. now apply ru_child.
  - eapply ru_step; eauto.
Qed.

Lemma child_left t p n :
  zget t p = Some n -> binTreeNodeTypeHasLeft (NodeType n) = true ->
  child t p (Left n).
Proof. intros H1 H2. exists n. auto. Qed.

Lemma child_right t p n :
  zget t p = Some n -> binTreeNodeTypeHasRight (NodeType n) = true ->
  child t p (Right n).
Proof. intros H1 H2. exists n. auto. Qed.

Lemma child_cases t p c n :
  zget t p = Some n -> child t p c ->
  (binTreeNodeTypeHasLeft (NodeType n) = true /\ c = Left n) \/
  (binTreeNodeTypeHasRight (NodeType n) = true /\ c = Right n).
Proof.
  intros H (n' & H' & Hc). assert (n' = n) by congruence. subst n'.
  destruct Hc as [[? ?]|[? ?]]; [left|right]; auto.
Qed.

Lemma changesOf_refl st P : changesOf st st P.
Proof. intros j H1 H2. congruence. Qed.

Lemma reach_via_child t s i c j :
  child t i c -> zget s c = Some binTreeStateUnknown ->
  j = c \/ reachUnknown t s c j -> reachUnknown t s i j.
Proof.
  intros Hc Hu [->|H]; [now apply ru_child|eapply reachUnknown_cons; eauto].
Qed.

Lemma visitChild_changes fuel :
  (forall st i st', resolveRecursive fuel st i = Done st' ->
     changesOf st st' (reachUnknown (tree st) (data st) i)) ->
  forall st c st', visitChild fuel st c = Done st' ->
    changesOf st st' (fun j =>
      zget (data st) c = Some binTreeStateUnknown /\
      (j = c \/ reachUnknown (tree st) (data st) c j)).
Proof.
  intros IH st c st' E. apply withData_Done in E as (v & Hv & E).
  destruct (isUnknown v) eqn:U.
  - apply isUnknown_true in U; subst v.
    set (stc := setData st c binTreeStateResolved) in *.
    assert (extends st stc) as Hx by (now apply extends_setData).
    pose proof (post_Done _ _ _ (resolveRecursive_extends fuel stc c) E) as Hx'.
    intros j Hj Hj'. destruct (Z.eq_dec j c) as [->|Hne].
    + split; [|auto].
      eapply extends_get; [exact Hx'| |discriminate].
      simpl. eapply zget_zset_eq; eauto.
    + destruct (IH _ _ _ E j) as [HR Hreach]; auto.
      { simpl. rewrite zget_zset_ne by auto. exact Hj. }
      split; [exact HR|]. split; [exact Hv|]. right.
      eapply reachUnknown_mono; [|exact Hreach].
      intros x Hxu. eapply (extends_unknown_back st stc); eauto.
  - injection E as <-. apply changesOf_refl.
Qed.

Lemma resolveRecursive_changes fuel :
  forall st i st', resolveRecursive fuel st i = Done st' ->
    changesOf st st' (reachUnknown (tree st) (data st) i).
Proof.
  induction fuel as [|fuel IH]; intros st i st' E; [discriminate|].
  rewrite resolveRecursive_S in E.
  apply withNode_Done in E as (n & Hn & E).
  apply bind_Done in E as (st1 & E1 & E2).
  assert (extends st st1 /\
          changesOf st st1 (reachUnknown (tree st) (data st) i)) as [Hx1 Hc1].
  { destruct (binTreeNodeTypeHasLeft (NodeType n)) eqn:HL.
    - split.
      + eapply post_Done; [|exact E1]. apply visitChild_extends.
        apply resolveRecursive_extends.
      + intros j Hj Hj'.
        destruct (visitChild_changes fuel IH _ _ _ E1 j Hj Hj') as (HR & Hu & Hr).
        split; [exact HR|]. eapply reach_via_child; eauto.
        now apply child_left.
    - injection E1 as <-. split; [apply extends_refl|apply changesOf_refl]. }
  assert (extends st1 st' /\
          changesOf st1 st' (reachUnknown (tree st) (data st) i)) as [Hx2 Hc2].
  { destruct (binTreeNodeTypeHasRight (NodeType n)) eqn:HR.
    - split.
      + eapply post_Done; [|exact E2]. apply visitChild_extends.
        apply resolveRecursive_extends.
      + intros j Hj Hj'.
        destruct (visitChild_changes fuel IH _ _ _ E2 j Hj Hj') as (HRes & Hu & Hr).
        split; [exact HRes|].
        rewrite (extends_tree _ _ Hx1) in Hr.
        apply (reachUnknown_mono _ (data st) (data st1)).
        { intros x. apply extends_unknown_back. exact Hx1. }
        eapply reach_via_child; eauto.
        rewrite <- (extends_tree _ _ Hx1) at 1.
        rewrite (extends_tree _ _ Hx1). now apply child_right.
    - injection E2 as <-. split; [apply extends_refl|apply changesOf_refl]. }
  intros j Hj Hj'.
  destruct (extends_get_Some _ _ _ _ Hx1 Hj) as [y Hy].
  destruct (decided_or_unknown _ _ _ Hy) as [(x & Hx & Hne)|Hu].
  - destruct (Hc1 j Hj) as [HR Hr]; [congruence|].
    split; [|exact Hr]. eapply extends_get; eauto. discriminate.
  - destruct (Hc2 j Hu Hj') as [HR Hr]. split; [exact HR|].
    eapply reachUnknown_mono; [|exact Hr]. intros x Hxu. exact Hxu.
Qed.

Lemma closedOver_refl st : closedOver st st.
Proof. intros p Hp Hd. now apply not_decided_unknown in Hp. Qed.

Lemma visitChild_closed fuel :
  (forall st i st', resolveRecursive fuel st i = Done st' ->
     (forall c, child (tree st) i c -> decided st' c) /\ closedOver st st') ->
  forall st c st', visitChild fuel st c = Done st' ->
    decided st' c /\ closedOver st st'.
Proof.
  intros IH st c st' E. apply withData_Done in E as (v & Hv & E).
  destruct (isUnknown v) eqn:U.
  - apply isUnknown_true in U; subst v.
    set (stc := setData st c binTreeStateResolved) in *.
    pose proof (post_Done _ _ _ (resolveRecursive_extends fuel stc c) E) as Hx'.
    destruct (IH _ _ _ E) as [Hkids Hcl].
    assert (decided st' c) as Hdc.
    { eapply extends_decided; [exact Hx'|]. exists binTreeStateResolved.
      split; [|discriminate]. simpl. eapply zget_zset_eq; eauto. }
    split; [exact Hdc|].
    intros p Hp Hd c' Hc'. destruct (Z.eq_dec p c) as [->|Hne].
    + apply Hkids. exact Hc'.
    + apply (Hcl p); auto. simpl. rewrite zget_zset_ne by auto. exact Hp.
  - injection E as <-. split; [|apply closedOver_refl].
    exists v. split; [exact Hv|now apply isUnknown_false].
Qed.

Lemma resolveRecursive_closed fuel :
  forall st i st', resolveRecursive fuel st i = Done st' ->
    (forall c, child (tree st) i c -> decided st' c) /\ closedOver st st'.
Proof.
  induction fuel as [|fuel IH]; intros st i st' E; [discriminate|].
  rewrite resolveRecursive_S in E.
  apply withNode_Done in E as (n & Hn & E).
  apply bind_Done in E as (st1 & E1 & E2).
  assert (extends st st1) as Hx1.
  { destruct (binTreeNodeTypeHasLeft (NodeType n)).
    - eapply post_Done; [|exact E1]. apply visitChild_extends.
      apply resolveRecursive_extends.
    - injection E1 as <-. apply extends_refl. }
  assert (extends st1 st') as Hx2.
  { destruct (binTreeNodeTypeHasRight (NodeType n)).
    - eapply post_Done; [|exact E2]. apply visitChild_extends.
      apply resolveRecursive_extends.
    - injection E2 as <-. apply extends_refl. }
  assert ((binTreeNodeTypeHasLeft (NodeType n) = true -> decided st1 (Left n))
          /\ closedOver st st1) as [HdL Hcl1].
  { destruct (binTreeNodeTypeHasLeft (NodeType n)).
    - destruct (visitChild_closed fuel IH _ _ _ E1); auto.
    - injection E1 as <-. split; [discriminate|apply closedOver_refl]. }
  assert ((binTreeNodeTypeHasRight (NodeType n) = true -> decided st' (Right n))
          /\ closedOver st1 st') as [HdR Hcl2].
  { destruct (binTreeNodeTypeHasRight (NodeType n)).
    - destruct (visitChild_closed fuel IH _ _ _ E2); auto.
    - injection E2 as <-. split; [discriminate|apply closedOver_refl]. }
  split.
  - intros c Hc.
    destruct (child_cases _ _ _ _ Hn Hc) as [[H ->]|[H ->]].
    + eapply extends_decided; [exact Hx2|auto].
    + auto.
  - intros p Hp Hd c Hc.
    destruct (extends_get_Some _ _ _ _ Hx1 Hp) as [y Hy].
    destruct (decided_or_unknown _ _ _ Hy) as [Hd1|Hu].
    + eapply extends_decided; [exact Hx2|]. eapply Hcl1; eauto.
    + eapply Hcl2; eauto. rewrite (extends_tree _ _ Hx1). exact Hc.
Qed.

(** The walk decides every node it can reach over [Unknown] entries, and
    changes nothing else. *)
Lemma resolveRecursive_reach fuel st i st' :
  resolveRecursive fuel st i = Done st' ->
  forall d, reachUnknown (tree st) (data st) i d ->
            zget (data st') d = Some binTreeStateResolved.
Proof.
  intros E. destruct (resolveRecursive_closed _ _ _ _ E) as [Hkids Hcl].
  pose proof (resolveRecursive_changes _ _ _ _ E) as Hch.
  assert (forall d, zget (data st) d = Some binTreeStateUnknown ->
                    decided st' d ->
                    zget (data st') d = Some binTreeStateResolved) as Hdec.
  { intros d Hu (x & Hx & Hne). apply Hch; auto. congruence. }
  induction 1 as [c Hc Hu|p c Hr IH Hc Hu].
  - apply Hdec; auto.
  - apply Hdec; auto. apply (Hcl p); auto.
    + eapply reachUnknown_unknown; eauto.
    + exists binTreeStateResolved. split; [exact IH|discriminate].
Qed.

Lemma resolveRecursive_unreached fuel st i st' :
  resolveRecursive fuel st i = Done st' ->
  forall d, ~ reachUnknown (tree st) (data st) i d ->
            zget (data st') d = zget (data st) d.
Proof.
  intros E d Hn.
  pose proof (post_Done _ _ _ (resolveRecursive_extends fuel st i) E) as Hx.
  pose proof (resolveRecursive_changes _ _ _ _ E) as Hch.
  destruct (zget (data st) d) as [x|] eqn:Hd.
  - destruct (extends_get_Some _ _ _ _ Hx Hd) as [y Hy].
    destruct (decided_or_unknown _ _ _ Hd) as [(x' & Hx' & Hne)|Hu].
    + eapply extends_get; eauto. congruence.
    + destruct (decided_or_unknown _ _ _ Hy) as [(y' & Hy' & Hne)|Hu'].
      * exfalso. apply Hn. apply (Hch d); congruence.
      * congruence.
  - destruct (zget (data st') d) as [y|] eqn:Hy; auto.
    apply zget_range in Hy. unfold zlen in Hy.
    rewrite (extends_length _ _ Hx) in Hy.
    destruct (zget_in_range (data st) d Hy). congruence.
Qed.

(* ------------------------------------------------------------------ *)
(** * Consistent links and validated parents *)

Lemma in_combine_seq {A} (l : list A) :
  forall start k x, nth_error l k = Some x ->
    In ((start + k)%nat, x) (combine (seq start (length l)) l).
Proof.
  induction l as [|a l IH]; intros start [|k] x H; simpl in *;
    try discriminate.
  - injection H as ->. left. f_equal. lia.
  - right. replace (start + S k)%nat with (S start + k)%nat by lia.
    now apply IH.
Qed.

Lemma linksOk_node t p n :
  linksOk t = true -> zget t p = Some n -> nodeLinksOk t p n = true.
Proof.
  unfold linksOk. intros H Hn. rewrite forallb_forall in H.
  pose proof (zget_range _ _ _ Hn) as Hr. unfold zget in Hn.
  destruct (Z.ltb_spec p 0); [lia|].
  specialize (H (Z.to_nat p, n) (in_combine_seq t 0%nat _ _ Hn)).
  simpl in H. rewrite Z2Nat.id in H by lia. exact H.
Qed.

Lemma linkOk_spec t p c :
  linkOk t p c = true ->
  p < c /\ exists n, zget t c = Some n /\ ParentIdx n = p.
Proof.
  unfold linkOk. intros H. apply andb_prop in H as [H1 H2].
  apply Z.ltb_lt in H1. destruct (zget t c) as [n|]; [|discriminate].
  apply Z.eqb_eq in H2. eauto.
Qed.

Lemma linksOk_child t p c :
  linksOk t = true -> child t p c ->
  p < c /\ exists n, zget t c = Some n /\ ParentIdx n = p.
Proof.
  intros H (n & Hn & Hc). pose proof (linksOk_node _ _ _ H Hn) as Hk.
  unfold nodeLinksOk in Hk. apply andb_prop in Hk as [HL HR].
  destruct Hc as [[Hh <-]|[Hh <-]]; rewrite Hh in *; now apply linkOk_spec.
Qed.

Lemma linksOk_below_lt t i d : linksOk t = true -> below t i d -> i < d.
Proof.
  intros H. induction 1 as [c Hc|p c Hb IH Hc];
    destruct (linksOk_child _ _ _ H Hc); lia.
Qed.

Lemma vthen_Ret r k pos :
  vthen r k = Ret (pos, None) ->
  exists p1, r = Ret (p1, None) /\ k p1 = Ret (pos, None).
Proof.
  unfold vthen, rbind. destruct r as [[p1 [e|]]| |]; simpl; intros H;
    try discriminate. eauto.
Qed.

Lemma validateItem_parents fuel t :
  forall item parent pos,
    validateItem fuel t item parent = Ret (pos, None) ->
    item < pos /\
    (exists n, zget t item = Some n /\ ParentIdx n = parent) /\
    (forall j, item < j < pos ->
       exists n, zget t j = Some n /\ item <= ParentIdx n < j).
Proof.
  induction fuel as [|fuel IH]; intros item parent pos E; [discriminate|].
  simpl in E. destruct (zget t item) as [n|] eqn:Hn; [|discriminate].
  destruct (Z.eqb_spec (ParentIdx n) parent) as [Hp|Hp]; simpl in E;
    [|discriminate].
  assert (exists n0, Some n = Some n0 /\ ParentIdx n0 = parent) as Hitem
    by eauto.
  destruct (NodeType n =? nodeTypeLeaf) eqn:Hleaf.
  { injection E as <-. repeat split; [lia|exact Hitem|intros; lia]. }
  destruct (negb _) in E; [discriminate|].
  destruct (if negb (binTreeNodeTypeHasLeft (NodeType n)) then _ else _) in E;
    [discriminate|].
  destruct (if negb (binTreeNodeTypeHasRight (NodeType n)) then _ else _) in E;
    [discriminate|].
  unfold binTreeNodeTypeHasLeft in E at 1. rewrite Hleaf in E. cbn [negb] in E.
  apply vthen_Ret in E as (p1 & E1 & E).
  apply vthen_Ret in E as (p2 & E2 & E). injection E as ->.
  destruct (IH _ _ _ E1) as (L1 & (n1 & Hn1 & Hp1) & L3).
  assert (p1 <= pos /\
          (forall j, p1 <= j < pos ->
             exists n0, zget t j = Some n0 /\ item <= ParentIdx n0 < j))
    as [R1 R2].
  { destruct (binTreeNodeTypeHasRight (NodeType n)).
    - destruct (IH _ _ _ E2) as (R1 & (n2 & Hn2 & Hp2) & R3).
      split; [lia|]. intros j Hj. destruct (Z.eq_dec j p1) as [->|Hne].
      + exists n2. split; [exact Hn2|lia].
      + destruct (R3 j) as (n0 & H0 & H0'); [lia|]. exists n0. split; auto. lia.
    - injection E2 as ->. split; [lia|intros; lia]. }
  repeat split; [lia|exact Hitem|].
  intros j Hj. destruct (Z.eq_dec j (item + 1)) as [->|Hne].
  - exists n1. split; [exact Hn1|lia].
  - destruct (Z_lt_le_dec j p1) as [Hlt|Hge].
    + destruct (L3 j) as (n0 & H0 & H0'); [lia|]. exists n0. split; auto. lia.
    + apply R2. lia.
Qed.

Lemma Validate_parents t :
  Validate t = Ret None ->
  forall j n, 0 < j -> zget t j = Some n -> 0 <= ParentIdx n < j.
Proof.
  unfold Validate, rbind. intros E j n Hj Hn.
  destruct (validateItem (S (length t)) t 0 0) as [[pos [e|]]| |] eqn:V;
    simpl in E; try discriminate.
  destruct (Z.eqb_spec pos (zlen t)) as [->|]; simpl in E; [|discriminate].
  destruct (validateItem_parents _ _ _ _ _ V) as (_ & _ & H).
  destruct (H j) as (n0 & H0 & H0').
  - apply zget_range in Hn. lia.
  - congruence.
Qed.

Lemma linksOk_parent_unique t p p' c :
  linksOk t = true -> child t p c -> child t p' c -> p = p'.
Proof.
  intros H Hc Hc'.
  destruct (linksOk_child _ _ _ H Hc) as (_ & n & Hn & Hp).
  destruct (linksOk_child _ _ _ H Hc') as (_ & n' & Hn' & Hp').
  congruence.
Qed.

(** With consistent links, a chain of [Unknown] entries from [a] down to a
    node at or below a later node [i] passes through [i]. *)
Lemma reachUnknown_through t s a d :
  linksOk t = true -> reachUnknown t s a d ->
  forall i, a < i -> i = d \/ below t i d ->
            zget s i = Some binTreeStateUnknown.
Proof.
  intros Hl. induction 1 as [c Hc Hu|p c Hr IH Hc Hu]; intros i Hai [->|Hb];
    auto.
  - inversion Hb as [c' Hc'|p' c' Hb' Hc']; subst.
    + pose proof (linksOk_parent_unique _ _ _ _ Hl Hc Hc'). lia.
    + pose proof (linksOk_parent_unique _ _ _ _ Hl Hc Hc'). subst p'.
      pose proof (linksOk_below_lt _ _ _ Hl Hb'). lia.
  - inversion Hb as [c' Hc'|p' c' Hb' Hc']; subst.
    + pose proof (linksOk_parent_unique _ _ _ _ Hl Hc Hc'). subst p.
      apply IH; auto.
    + pose proof (linksOk_parent_unique _ _ _ _ Hl Hc Hc'). subst p'.
      apply IH; auto.
Qed.

(** [checkNode] either leaves the state alone or ends in one [MarkNode] of
    the node it checks. *)
Lemma checkNodeWith_Done mark st p st' :
  checkNodeWith mark st p = Done st' ->
  st' = st \/ exists b, mark st p b = Done st'.
Proof.
  unfold checkNodeWith, withNode, withData. intros E.
  repeat match type of E with
         | match ?x with _ => _ end = _ => destruct x eqn:?
         | (if ?c then _ else _) = _ => destruct c eqn:?
         end;
    try discriminate; try (left; congruence); right; eauto.
Qed.

Section KeepsBelow.
Variable t : binTree.
Hypothesis Hlinks : linksOk t = true.
Hypothesis Hparents :
  forall j n, 0 < j -> zget t j = Some n -> 0 <= ParentIdx n < j.

(** A [MarkNode] at [a], and all it sets off above [a], leaves alone what
    lies below a decided node [i] that comes after [a]. *)
Lemma MarkNode_fuel_keeps_below fuel :
  forall st a v st',
    tree st = t -> MarkNode_fuel fuel st a v = Done st' ->
    forall i, a < i -> decided st i ->
    forall d, below t i d -> zget (data st') d = zget (data st) d.
Proof.
  induction fuel as [|fuel IH]; intros st a v st' Ht E i Hai Hdi d Hd;
    [discriminate|].
  rewrite MarkNode_fuel_S in E. apply withData_Done in E as (cur & Hcur & E).
  destruct (isUnknown cur) eqn:U; cbn [negb] in E; [|discriminate].
  apply isUnknown_true in U; subst cur. fold (markValue v) in E.
  set (st1 := setData st a (markValue v)) in *.
  apply bind_Done in E as (st2 & E1 & E2).
  assert (extends st st1) as Hx1.
  { apply extends_setData; auto. now destruct v. }
  pose proof (post_Done _ _ _ (resolveRecursive_extends _ st1 a) E1) as Hx2.
  pose proof (linksOk_below_lt _ _ _ Hlinks Hd) as Hid.
  assert (zget (data st2) d = zget (data st) d) as H2.
  { rewrite (resolveRecursive_unreached _ _ _ _ E1).
    - simpl. apply zget_zset_ne. lia.
    - intros Hr. simpl tree in Hr. rewrite Ht in Hr.
      pose proof (reachUnknown_through _ _ _ _ Hlinks Hr i Hai (or_intror Hd))
        as Hu.
      apply (extends_decided _ _ _ Hx1) in Hdi.
      now apply not_decided_unknown in Hu. }
  destruct (Z.eqb_spec a 0) as [|Ha0]; [congruence|].
  destruct (a =? stallIndex st2); [congruence|].
  apply withNode_Done in E2 as (n & Hn & E2).
  apply checkNodeWith_Done in E2 as [->|[b E2]]; [exact H2|].
  rewrite <- H2.
  assert (tree st2 = t) as Ht2.
  { rewrite (extends_tree _ _ Hx2). exact Ht. }
  eapply (IH st2 (ParentIdx n) b st' Ht2 E2 i); auto.
  - rewrite Ht2 in Hn. pose proof (zget_range _ _ _ Hn).
    assert (0 < a) as Hpos by lia. pose proof (Hparents _ _ Hpos Hn). lia.
  - eapply extends_decided; [exact Hx2|].
    eapply extends_decided; [exact Hx1|exact Hdi].
Qed.
End KeepsBelow.


(* ------------------------------------------------------------------ *)
(** * Every tree in pre-order layout is accepted and has consistent links *)

Local Open Scope list_scope.

Lemma length_layout sh : forall pos parent,
  length (layout sh pos parent) = shapeSize sh.
Proof.
  induction sh; intros pos parent; simpl; auto;
    rewrite ?length_app, ?IHsh, ?IHsh1, ?IHsh2; auto.
Qed.

Lemma zlen_app {A} (l1 l2 : list A) : zlen (l1 ++ l2) = zlen l1 + zlen l2.
Proof. unfold zlen. rewrite length_app. lia. Qed.

Lemma zlen_layout sh pos parent :
  zlen (layout sh pos parent) = Z.of_nat (shapeSize sh).
Proof. unfold zlen. now rewrite length_layout. Qed.

Lemma zget_app_middle {A} (pre post : list A) x :
  zget (pre ++ x :: post) (zlen pre) = Some x.
Proof.
  unfold zget, zlen. destruct (Z.ltb_spec (Z.of_nat (length pre)) 0); [lia|].
  rewrite Nat2Z.id. rewrite nth_error_app2 by lia.
  now rewrite Nat.sub_diag.
Qed.

Lemma zlen_snoc {A} (pre : list A) x : zlen (pre ++ [x]) = zlen pre + 1.
Proof. rewrite zlen_app. reflexivity. Qed.

Ltac same_list :=
  repeat (rewrite <- ?app_assoc; cbn [app]); reflexivity.

Ltac use_layout IH :=
  rewrite ?zlen_app, ?zlen_layout in IH;
  change (zlen [?x]) with 1 in IH;
  rewrite ?Z.add_assoc in IH;
  match goal with
  | |- laidOut ?t _ ?p _ =>
    match type of IH with
    | laidOut ?t' _ ?p' _ =>
      replace t with t' by same_list;
      replace p with p' by (unfold zlen; simpl length; lia);
      exact IH
    end
  end.

Lemma layout_laidOut sh :
  forall pre post parent,
    laidOut (pre ++ layout sh (zlen pre) parent ++ post) sh (zlen pre) parent.
Proof.
  induction sh as [|c IHc|c IHc|l IHl r IHr|l IHl r IHr|l IHl r IHr];
    intros pre post parent; cbn [layout].
  - eapply lo_leaf; [apply zget_app_middle| | | |]; reflexivity.
  - set (nd := NewBinTreeNode nodeTypeNot parent (zlen pre + 1) 0).
    eapply (lo_unary _ _ c _ _ nd);
      [left; split; reflexivity|apply zget_app_middle| | | |];
      try reflexivity.
    specialize (IHc (pre ++ [nd]) post (zlen pre)). use_layout IHc.
  - set (nd := NewBinTreeNode nodeTypeLoop parent (zlen pre + 1) 0).
    eapply (lo_unary _ _ c _ _ nd);
      [right; split; reflexivity|apply zget_app_middle| | | |];
      try reflexivity.
    specialize (IHc (pre ++ [nd]) post (zlen pre)). use_layout IHc.
  - set (nd := NewBinTreeNode nodeTypeOr parent (zlen pre + 1)
                 (zlen pre + 1 + Z.of_nat (shapeSize l))).
    eapply (lo_binary _ _ l r _ _ nd);
      [left; split; reflexivity|apply zget_app_middle| | | | |];
      try reflexivity.
    + specialize (IHl (pre ++ [nd])
                      (layout r (zlen pre + 1 + Z.of_nat (shapeSize l)) (zlen pre)
                       ++ post) (zlen pre)).
      use_layout IHl.
    + specialize (IHr (pre ++ [nd] ++ layout l (zlen pre + 1) (zlen pre))
                      post (zlen pre)).
      use_layout IHr.
  - set (nd := NewBinTreeNode nodeTypeAnd parent (zlen pre + 1)
                 (zlen pre + 1 + Z.of_nat (shapeSize l))).
    eapply (lo_binary _ _ l r _ _ nd);
      [right; left; split; reflexivity|apply zget_app_middle| | | | |];
      try reflexivity.
    + specialize (IHl (pre ++ [nd])
                      (layout r (zlen pre + 1 + Z.of_nat (shapeSize l)) (zlen pre)
                       ++ post) (zlen pre)).
      use_layout IHl.
    + specialize (IHr (pre ++ [nd] ++ layout l (zlen pre + 1) (zlen pre))
                      post (zlen pre)).
      use_layout IHr.
  - set (nd := NewBinTreeNode nodeTypeNeor parent (zlen pre + 1)
                 (zlen pre + 1 + Z.of_nat (shapeSize l))).
    eapply (lo_binary _ _ l r _ _ nd);
      [right; right; split; reflexivity|apply zget_app_middle| | | | |];
      try reflexivity.
    + specialize (IHl (pre ++ [nd])
                      (layout r (zlen pre + 1 + Z.of_nat (shapeSize l)) (zlen pre)
                       ++ post) (zlen pre)).
      use_layout IHl.
    + specialize (IHr (pre ++ [nd] ++ layout l (zlen pre + 1) (zlen pre))
                      post (zlen pre)).
      use_layout IHr.
Qed.

Lemma shapeSize_pos sh : (1 <= shapeSize sh)%nat.
Proof. destruct sh; simpl; lia. Qed.

Lemma laidOut_in_tree t sh pos parent :
  laidOut t sh pos parent -> 0 <= pos < zlen t.
Proof. destruct 1; eapply zget_range; eauto. Qed.

(** [validateItem] walks a laid-out subtree to its end. *)
Lemma validateItem_laidOut t sh pos parent :
  laidOut t sh pos parent ->
  pos + Z.of_nat (shapeSize sh) <= zlen t ->
  forall fuel, (shapeSize sh <= fuel)%nat ->
    validateItem fuel t pos parent = Ret (pos + Z.of_nat (shapeSize sh), None).
Proof.
  induction 1 as [pos parent n Hn Hty Hp HL HR
                 |sh c pos parent n Hsh Hn Hp HL HR Hc IHc
                 |sh l r pos parent n Hsh Hn Hp HL HR Hl IHl Hr IHr];
    intros Hend fuel Hfuel.
  - destruct fuel as [|fuel]; [simpl in Hfuel; lia|].
    cbn [validateItem]. rewrite Hn, Hp, Z.eqb_refl, Hty. reflexivity.
  - pose proof (shapeSize_pos c) as Hc1.
    assert (shapeSize sh = S (shapeSize c)) as Hsz
      by (destruct Hsh as [[-> _]|[-> _]]; reflexivity).
    rewrite Hsz in *.
    destruct fuel as [|fuel]; [lia|].
    pose proof (zget_range _ _ _ Hn) as Hpos.
    cbn [validateItem]. rewrite Hn, Hp, Z.eqb_refl, HL, HR.
    assert ((pos + 1 <=? 0) || (pos + 1 >=? zlen t) = false) as Hb.
    { apply orb_false_intro; [apply Z.leb_gt|rewrite Z.geb_leb; apply Z.leb_gt];
        lia. }
    specialize (IHc ltac:(lia) fuel ltac:(lia)).
    destruct Hsh as [[_ Hty]|[_ Hty]]; rewrite Hty; cbn; rewrite Hb; cbn;
      rewrite IHc; cbn; f_equal; f_equal; lia.
  - pose proof (shapeSize_pos l) as Hl1. pose proof (shapeSize_pos r) as Hr1.
    assert (shapeSize sh = S (shapeSize l + shapeSize r)) as Hsz
      by (destruct Hsh as [[-> _]|[[-> _]|[-> _]]]; reflexivity).
    rewrite Hsz in *.
    destruct fuel as [|fuel]; [lia|].
    pose proof (zget_range _ _ _ Hn) as Hpos.
    cbn [validateItem]. rewrite Hn, Hp, Z.eqb_refl, HL, HR.
    assert ((pos + 1 <=? 0) || (pos + 1 >=? zlen t) = false) as Hb.
    { apply orb_false_intro; [apply Z.leb_gt|rewrite Z.geb_leb; apply Z.leb_gt];
        lia. }
    assert ((pos + 1 + Z.of_nat (shapeSize l) <=? 0)
            || (pos + 1 + Z.of_nat (shapeSize l) >=? zlen t) = false) as Hb'.
    { apply orb_false_intro; [apply Z.leb_gt|rewrite Z.geb_leb; apply Z.leb_gt];
        lia. }
    specialize (IHl ltac:(lia) fuel ltac:(lia)).
    specialize (IHr ltac:(lia) fuel ltac:(lia)).
    destruct Hsh as [[_ Hty]|[[_ Hty]|[_ Hty]]]; rewrite Hty; cbn;
      rewrite Hb, Hb'; cbn; rewrite IHl; cbn; rewrite IHr; cbn;
      f_equal; f_equal; lia.
Qed.

Lemma Validate_preorderTree sh : Validate (preorderTree sh) = Ret None.
Proof.
  unfold Validate, preorderTree.
  pose proof (layout_laidOut sh [] [] 0) as H.
  change (zlen []) with 0 in H. cbn [app] in H. rewrite app_nil_r in H.
  rewrite (validateItem_laidOut _ _ _ _ H).
  - cbn [rbind snd fst]. rewrite zlen_layout. cbn. rewrite Z.eqb_refl. reflexivity.
  - rewrite zlen_layout. lia.
  - rewrite length_layout. lia.
Qed.

Lemma laidOut_root t sh pos parent :
  laidOut t sh pos parent ->
  exists n, zget t pos = Some n /\ ParentIdx n = parent.
Proof. destruct 1; eauto. Qed.

Lemma laidOut_links t sh pos parent :
  laidOut t sh pos parent ->
  forall p n, pos <= p < pos + Z.of_nat (shapeSize sh) ->
              zget t p = Some n -> nodeLinksOk t p n = true.
Proof.
  induction 1 as [pos parent n Hn Hty Hp HL HR
                 |sh c pos parent n Hsh Hn Hp HL HR Hc IHc
                 |sh l r pos parent n Hsh Hn Hp HL HR Hl IHl Hr IHr];
    intros p m Hrange Hm.
  - simpl in Hrange. assert (p = pos) by lia. subst p.
    assert (m = n) by congruence. subst m.
    unfold nodeLinksOk. rewrite Hty. reflexivity.
  - assert (shapeSize sh = S (shapeSize c)) as Hsz
      by (destruct Hsh as [[-> _]|[-> _]]; reflexivity).
    rewrite Hsz in Hrange.
    destruct (Z.eq_dec p pos) as [->|Hne].
    + assert (m = n) by congruence. subst m.
      destruct (laidOut_root _ _ _ _ Hc) as (cn & Hcn & Hcp).
      assert (linkOk t pos (pos + 1) = true) as Hk.
      { unfold linkOk. rewrite Hcn, Hcp, Z.eqb_refl.
        replace (pos <? pos + 1) with true by (symmetry; apply Z.ltb_lt; lia).
        reflexivity. }
      unfold nodeLinksOk. rewrite HL, Hk.
      destruct Hsh as [[_ Hty]|[_ Hty]]; rewrite Hty; reflexivity.
    + apply IHc; auto. lia.
  - assert (shapeSize sh = S (shapeSize l + shapeSize r)) as Hsz
      by (destruct Hsh as [[-> _]|[[-> _]|[-> _]]]; reflexivity).
    rewrite Hsz in Hrange.
    destruct (Z.eq_dec p pos) as [->|Hne].
    + assert (m = n) by congruence. subst m.
      destruct (laidOut_root _ _ _ _ Hl) as (ln & Hln & Hlp).
      destruct (laidOut_root _ _ _ _ Hr) as (rn & Hrn & Hrp).
      assert (linkOk t pos (pos + 1) = true) as Hk.
      { unfold linkOk. rewrite Hln, Hlp, Z.eqb_refl.
        replace (pos <? pos + 1) with true by (symmetry; apply Z.ltb_lt; lia).
        reflexivity. }
      assert (linkOk t pos (pos + 1 + Z.of_nat (shapeSize l)) = true) as Hk'.
      { unfold linkOk. rewrite Hrn, Hrp, Z.eqb_refl.
        replace (pos <? pos + 1 + Z.of_nat (shapeSize l)) with true
          by (symmetry; apply Z.ltb_lt; lia).
        reflexivity. }
      unfold nodeLinksOk. rewrite HL, HR, Hk, Hk'.
      destruct Hsh as [[_ Hty]|[[_ Hty]|[_ Hty]]]; rewrite Hty; reflexivity.
    + destruct (Z_lt_le_dec p (pos + 1 + Z.of_nat (shapeSize l))).
      * apply IHl; auto. lia.
      * apply IHr; auto. lia.
Qed.

Lemma in_combine_seq_inv {A} (l : list A) :
  forall start k x, In (k, x) (combine (seq start (length l)) l) ->
    exists j, k = (start + j)%nat /\ nth_error l j = Some x.
Proof.
  induction l as [|a l IH]; intros start k x H; simpl in H; [contradiction|].
  destruct H as [H|H].
  - injection H as <- <-. exists 0%nat. split; [lia|reflexivity].
  - destruct (IH _ _ _ H) as (j & -> & Hj). exists (S j). split; [lia|exact Hj].
Qed.

Lemma linksOk_intro t :
  (forall p n, zget t p = Some n -> nodeLinksOk t p n = true) ->
  linksOk t = true.
Proof.
  intros H. unfold linksOk. apply forallb_forall. intros [k n] Hin.
  destruct (in_combine_seq_inv _ _ _ _ Hin) as (j & -> & Hj). simpl.
  apply H. unfold zget. destruct (Z.ltb_spec (Z.of_nat j) 0); [lia|].
  now rewrite Nat2Z.id.
Qed.

Lemma linksOk_preorderTree sh : linksOk (preorderTree sh) = true.
Proof.
  unfold preorderTree.
  pose proof (layout_laidOut sh [] [] 0) as H.
  change (zlen []) with 0 in H. cbn [app] in H. rewrite app_nil_r in H.
  apply linksOk_intro. intros p n Hn.
  apply (laidOut_links _ _ _ _ H); auto.
  apply zget_range in Hn. rewrite zlen_layout in Hn. lia.
Qed.

(* ------------------------------------------------------------------ *)
(** * Marks under a stall *)

Lemma value_eq_dec (a b : option binTreeStateValue) : {a = b} + {a <> b}.
Proof. repeat decide equality. Qed.

Lemma onlyChanges_refl P st : onlyChanges P st st.
Proof. intros j H. congruence. Qed.

Lemma onlyChanges_trans P st1 st2 st3 :
  onlyChanges P st1 st2 -> onlyChanges P st2 st3 -> onlyChanges P st1 st3.
Proof.
  intros H1 H2 j Hj.
  destruct (value_eq_dec (zget (data st2) j) (zget (data st1) j)) as [E|N].
  - apply H2. congruence.
  - apply H1. exact N.
Qed.

Lemma onlyChanges_impl (P Q : Z -> Prop) st st' :
  (forall j, P j -> Q j) -> onlyChanges P st st' -> onlyChanges Q st st'.
Proof. intros H H1 j Hj. auto. Qed.

Lemma onlyChanges_setData (P : Z -> Prop) st i v :
  P i -> onlyChanges P st (setData st i v).
Proof.
  intros Hi j Hj. destruct (Z.eq_dec i j) as [<-|Hne]; auto.
  simpl in Hj. rewrite zget_zset_ne in Hj by auto. congruence.
Qed.

Lemma below_trans t a b c : below t a b -> below t b c -> below t a c.
Proof.
  intros Hab. induction 1 as [c Hc|p c Hb IH Hc]; eapply below_step; eauto.
Qed.

Lemma visitChild_only_below fuel :
  (forall st i, post (fun st' => extends st st' /\
                   onlyChanges (below (tree st) i) st st')
                     (resolveRecursive fuel st i)) ->
  forall st c, post (fun st' => extends st st' /\
                   onlyChanges (fun j => j = c \/ below (tree st) c j) st st')
                    (visitChild fuel st c).
Proof.
  intros IH st c. apply post_withData.
  { split; [apply extends_refl|apply onlyChanges_refl]. }
  intros v Hv. destruct (isUnknown v) eqn:U.
  - apply isUnknown_true in U; subst v.
    generalize (IH (setData st c binTreeStateResolved) c). apply post_impl.
    intros st' [Hx Hc].
    assert (extends st (setData st c binTreeStateResolved)) as Hx0
      by (now apply extends_setData).
    split; [eapply extends_trans; eauto|].
    eapply onlyChanges_trans.
    + apply onlyChanges_setData. now left.
    + eapply onlyChanges_impl; [|exact Hc]. simpl. auto.
  - simpl. split; [apply extends_refl|apply onlyChanges_refl].
Qed.

Lemma resolveRecursive_only_below fuel :
  forall st i, post (fun st' => extends st st' /\
                 onlyChanges (below (tree st) i) st st')
                    (resolveRecursive fuel st i).
Proof.
  induction fuel as [|fuel IH]; intros st i; [exact I|].
  rewrite resolveRecursive_S.
  apply post_withNode.
  { split; [apply extends_refl|apply onlyChanges_refl]. }
  intros n Hn. apply post_bind.
  assert (post (fun st' => extends st st' /\
                  onlyChanges (below (tree st) i) st st')
            (if binTreeNodeTypeHasLeft (NodeType n)
             then visitChild fuel st (Left n) else Done st)) as HL.
  { destruct (binTreeNodeTypeHasLeft (NodeType n)) eqn:HL.
    - generalize (visitChild_only_below fuel IH st (Left n)). apply post_impl.
      intros st' [Hx Hc]. split; [exact Hx|].
      eapply onlyChanges_impl; [|exact Hc].
      intros j [->|Hb].
      + apply below_child. now apply child_left.
      + eapply below_trans; [|exact Hb]. apply below_child. now apply child_left.
    - simpl. split; [apply extends_refl|apply onlyChanges_refl]. }
  revert HL. apply post_impl. intros st1 [Hx1 Hc1]. split; [auto|].
  destruct (binTreeNodeTypeHasRight (NodeType n)) eqn:HR; [|simpl; auto].
  generalize (visitChild_only_below fuel IH st1 (Right n)). apply post_impl.
  intros st' [Hx Hc]. split; [eapply extends_trans; eauto|].
  eapply onlyChanges_trans; [exact Hc1|].
  eapply onlyChanges_impl; [|exact Hc].
  rewrite (extends_tree _ _ Hx1).
  intros j [->|Hb].
  + apply below_child. now apply child_right.
  + eapply below_trans; [|exact Hb]. apply below_child. now apply child_right.
Qed.






(* ------------------------------------------------------------------ *)
(** * [Neor] nodes under marks on leaves *)

Lemma checkNodeWith_Done_neor mark st p st' :
  checkNodeWith mark st p = Done st' ->
  exists node, zget (tree st) p = Some node /\
    ((st' = st /\
      (NodeType node = nodeTypeNeor ->
       zget (data st) (Left node) = Some binTreeStateUnknown \/
       zget (data st) (Right node) = Some binTreeStateUnknown))
     \/
     (exists b, mark st p b = Done st' /\
        (NodeType node = nodeTypeNeor ->
         exists l r,
           zget (data st) (Left node) = Some l /\
           zget (data st) (Right node) = Some r /\
           l <> binTreeStateUnknown /\ r <> binTreeStateUnknown /\
           b = isTrue l || isTrue r))).
Proof.
  unfold checkNodeWith, withNode. intros E.
  destruct (zget (tree st) p) as [node|]; [|discriminate].
  exists node. split; [reflexivity|].
  destruct (Z.eqb_spec (NodeType node) nodeTypeLeaf); [discriminate|].
  destruct (Z.eqb_spec (NodeType node) nodeTypeOr) as [HOr|].
  { unfold withData in E.
    repeat match type of E with
           | match ?x with _ => _ end = _ => destruct x eqn:?
           | (if ?c then _ else _) = _ => destruct c eqn:?
           end; try discriminate;
      try (left; split; [congruence|rewrite HOr; discriminate]);
      right; eexists; (split; [eassumption|rewrite HOr; discriminate]). }
  destruct (Z.eqb_spec (NodeType node) nodeTypeNeor) as [HNeor|].
  { unfold withData in E.
    destruct (zget (data st) (Left node)) as [l|] eqn:HL; [|discriminate].
    destruct (isUnknown l) eqn:UL.
    { left. split; [congruence|]. intros _. left.
      apply isUnknown_true in UL. now subst l. }
    destruct (zget (data st) (Right node)) as [r|] eqn:HR; [|discriminate].
    destruct (isUnknown r) eqn:UR.
    { left. split; [congruence|]. intros _. right.
      apply isUnknown_true in UR. now subst r. }
    apply isUnknown_false in UL, UR.
    right. destruct (isTrue l || isTrue r) eqn:V.
    - exists true. split; [exact E|]. intros _. exists l, r. now rewrite V.
    - exists false. split; [exact E|]. intros _. exists l, r. now rewrite V. }
  assert (~ NodeType node = nodeTypeNeor) as HN by auto.
  unfold withData in E.
  repeat match type of E with
         | match ?x with _ => _ end = _ => destruct x eqn:?
         | (if ?c then _ else _) = _ => destruct c eqn:?
         end; try discriminate;
    try (left; split; [congruence|intros; contradiction]);
    right; eexists; (split; [eassumption|intros; contradiction]).
Qed.

Lemma markValue_decided v : markValue v <> binTreeStateUnknown.
Proof. destruct v; discriminate. Qed.

Lemma zget_Some_back st st' j x :
  length (data st') = length (data st) -> zget (data st') j = Some x ->
  exists y, zget (data st) j = Some y.
Proof.
  intros HL Hj. apply zget_in_range. apply zget_range in Hj.
  unfold zlen in *. rewrite <- HL. exact Hj.
Qed.

Section NeorInvariant.
Variable t : binTree.
Hypothesis Hlinks : linksOk t = true.

Lemma neor_children n node :
  zget t n = Some node -> NodeType node = nodeTypeNeor ->
  child t n (Left node) /\ child t n (Right node).
Proof.
  intros Hn Hty. split; [apply child_left|apply child_right]; auto;
    rewrite Hty; reflexivity.
Qed.

Lemma no_parent_of_root n : ~ child t n 0.
Proof.
  intros Hc. destruct (linksOk_child _ _ _ Hlinks Hc) as [Hlt _].
  destruct Hc as (nd & Hn & _). apply zget_range in Hn. lia.
Qed.

(** The state after the marked entry is written and its subtree resolved. *)
Lemma neorInv_after_resolve fuel st i v st2 :
  freshShape t st -> downClosed t st ->
  (forall n, neorValueAt t st n) ->
  (forall n, n <> i -> neorWaitsAt t st n) ->
  neorMarkOk t st i v ->
  zget (data st) i = Some binTreeStateUnknown ->
  resolveRecursive fuel (setData st i (markValue v)) i = Done st2 ->
  freshShape t st2 /\ downClosed t st2 /\
  (forall n, neorValueAt t st2 n) /\
  (forall n, ~ child t n i -> neorWaitsAt t st2 n) /\
  extends st st2.
Proof.
  intros (Ht & Hs & Hlen) Hdc Hval Hwait Hok Hi E.
  set (st1 := setData st i (markValue v)) in *.
  assert (extends st st1) as Hx1.
  { apply extends_setData; auto. now destruct v. }
  pose proof (post_Done _ _ _ (resolveRecursive_extends _ st1 i) E) as Hx12.
  assert (extends st st2) as Hx2 by (eapply extends_trans; eauto).
  assert (tree st1 = t) as Ht1 by exact Ht.
  pose proof (resolveRecursive_changes _ _ _ _ E) as Hch. rewrite Ht1 in Hch.
  destruct (resolveRecursive_closed _ _ _ _ E) as [Hkids Hcl].
  rewrite Ht1 in Hkids. unfold closedOver in Hcl. rewrite Ht1 in Hcl.
  pose proof (resolveRecursive_reach _ _ _ _ E) as Hreach.
  rewrite Ht1 in Hreach.
  assert (zget (data st1) i = Some (markValue v)) as Hi1.
  { simpl. eapply zget_zset_eq; eauto. }
  assert (zget (data st2) i = Some (markValue v)) as Hi2.
  { eapply extends_get; [exact Hx12|exact Hi1|apply markValue_decided]. }
  assert (forall j x, zget (data st2) j = Some x ->
            zget (data st) j = Some x \/
            (j = i /\ x = markValue v) \/
            (x = binTreeStateResolved /\ reachUnknown t (data st1) i j))
    as Hcls.
  { intros j x Hj. destruct (Z.eq_dec j i) as [->|Hne].
    { right; left. split; congruence. }
    destruct (zget_Some_back st st2 j x (extends_length _ _ Hx2) Hj) as [y Hy].
    destruct (decided_or_unknown _ _ _ Hy) as [(y' & Hy' & Hny)|Hu].
    { left. pose proof (extends_get _ _ _ _ Hx2 Hy' Hny). congruence. }
    destruct x; try (left; congruence); right; right;
      (destruct (Hch j) as [HR Hr];
       [simpl; rewrite zget_zset_ne by auto; exact Hu|congruence|]);
      (split; [congruence|exact Hr]). }
  split; [|split; [|split; [|split]]]; auto.
  - unfold freshShape. rewrite (extends_tree _ _ Hx2), (extends_stall _ _ Hx2),
      (extends_length _ _ Hx2). auto.
  - intros p c Hc (x & Hx & Hnx).
    destruct (Hcls p x Hx) as [Hp|[[-> _]|[_ Hr]]].
    + eapply extends_decided; [exact Hx2|]. apply (Hdc p c Hc).
      exists x. auto.
    + now apply Hkids.
    + apply (Hcl p); auto.
      * eapply reachUnknown_unknown; eauto.
      * exists x. auto.
  - intros n node Hn Hty. destruct (Hval n node Hn Hty) as [HvT HvF].
    destruct (neor_children n node Hn Hty) as [HcL HcR].
    split; intros Hn2.
    + destruct (Hcls n _ Hn2) as [Hp|[[-> Hv]|[Hv _]]]; [| |discriminate].
      * destruct (HvT Hp) as [H|H]; [left|right];
          (eapply extends_get; [exact Hx2|exact H|discriminate]).
      * destruct (Hok node Hn Hty) as (l & r & HL & HR & Hnl & Hnr & Hvv).
        destruct v; [|discriminate].
        symmetry in Hvv. apply orb_prop in Hvv as [Hv'|Hv'];
          [left; destruct l|right; destruct r]; try discriminate;
          (eapply extends_get; [exact Hx2|eassumption|discriminate]).
    + destruct (Hcls n _ Hn2) as [Hp|[[-> Hv]|[Hv _]]]; [| |discriminate].
      * destruct (HvF Hp) as [HnL HnR].
        assert (decided st n) as Hdn by (eexists; split; [exact Hp|discriminate]).
        pose proof (Hdc _ _ HcL Hdn) as (l & Hl & Hnl).
        pose proof (Hdc _ _ HcR Hdn) as (r & Hr & Hnr).
        rewrite (extends_get _ _ _ _ Hx2 Hl Hnl).
        rewrite (extends_get _ _ _ _ Hx2 Hr Hnr). split; congruence.
      * destruct (Hok node Hn Hty) as (l & r & HL & HR & Hnl & Hnr & Hvv).
        destruct v; [discriminate|].
        symmetry in Hvv. apply orb_false_elim in Hvv as [Hvl Hvr].
        rewrite (extends_get _ _ _ _ Hx2 HL Hnl).
        rewrite (extends_get _ _ _ _ Hx2 HR Hnr).
        split; intros H; injection H as ->; discriminate.
  - intros n Hnc node Hn Hty Hu (l & Hl & Hnl) (r & Hr & Hnr).
    destruct (neor_children n node Hn Hty) as [HcL HcR].
    assert (n <> i) as Hni by (intros ->; rewrite Hi2 in Hu;
                               destruct v; discriminate).
    assert (forall c x, child t n c -> zget (data st2) c = Some x ->
                        x <> binTreeStateUnknown -> decided st c) as Hback.
    { intros c x Hc Hx Hnx.
      destruct (Hcls c x Hx) as [Hp|[[-> _]|[_ Hrc]]].
      - exists x. auto.
      - contradiction.
      - exfalso.
        assert (reachUnknown t (data st1) i n) as Hrn.
        { inversion Hrc as [c' Hc' Hu'|p c' Hr' Hc' Hu']; subst.
          - pose proof (linksOk_parent_unique _ _ _ _ Hlinks Hc Hc'). congruence.
          - pose proof (linksOk_parent_unique _ _ _ _ Hlinks Hc Hc'). now subst p. }
        rewrite (Hreach n Hrn) in Hu. discriminate. }
    apply (Hwait n Hni node Hn Hty).
    + eapply extends_unknown_back; eauto.
    + eapply Hback; eauto.
    + eapply Hback; eauto.
Qed.

Lemma neorInv_intro st :
  tree st = t -> stallIndex st = 0 -> length (data st) = length t ->
  downClosed t st -> (forall n, neorWaitsAt t st n) ->
  (forall n, neorValueAt t st n) -> neorInv t st.
Proof. unfold neorInv, freshShape. tauto. Qed.

Lemma MarkNode_fuel_neorInv fuel :
  forall st i v st',
    freshShape t st -> downClosed t st ->
    (forall n, neorValueAt t st n) ->
    (forall n, n <> i -> neorWaitsAt t st n) ->
    neorMarkOk t st i v ->
    MarkNode_fuel fuel st i v = Done st' ->
    neorInv t st'.
Proof.
  induction fuel as [|fuel IH]; intros st i v st' Hsh Hdc Hval Hwait Hok E;
    [discriminate|].
  rewrite MarkNode_fuel_S in E. apply withData_Done in E as (cur & Hcur & E).
  destruct (isUnknown cur) eqn:U; cbn [negb] in E; [|discriminate].
  apply isUnknown_true in U; subst cur. fold (markValue v) in E.
  apply bind_Done in E as (st2 & E1 & E2).
  destruct (neorInv_after_resolve _ _ _ _ _ Hsh Hdc Hval Hwait Hok Hcur E1)
    as (Hsh2 & Hdc2 & Hval2 & Hwait2 & Hx2).
  destruct Hsh2 as (Ht2 & Hs2 & Hl2).
  destruct (Z.eqb_spec i 0) as [->|Hi0].
  { injection E2 as <-. apply neorInv_intro; auto.
    intros n. apply Hwait2. apply no_parent_of_root. }
  rewrite Hs2 in E2. destruct (Z.eqb_spec i 0) as [|_]; [contradiction|].
  apply withNode_Done in E2 as (nd & Hnd & E2). rewrite Ht2 in Hnd.
  assert (forall n, n <> ParentIdx nd -> neorWaitsAt t st2 n) as Hwait3.
  { intros n Hne. apply Hwait2. intros Hc.
    destruct (linksOk_child _ _ _ Hlinks Hc) as (_ & nd' & Hnd' & Hp).
    congruence. }
  apply checkNodeWith_Done_neor in E2 as (pn & Hpn & [[-> Hno]|(b & E2 & Hb)]);
    rewrite Ht2 in Hpn.
  - apply neorInv_intro; auto. intros n.
    destruct (Z.eq_dec n (ParentIdx nd)) as [->|Hne]; [|now apply Hwait3].
    intros node Hn Hty Hu HdL HdR.
    assert (node = pn) by congruence. subst node.
    destruct (Hno Hty) as [H|H]; eapply not_decided_unknown; eauto.
  - eapply (IH st2 (ParentIdx nd) b st'); auto.
    + unfold freshShape. auto.
    + intros node Hn Hty. assert (node = pn) by congruence. subst node. auto.
Qed.

Lemma MarkNode_leaf_neorInv st i v st' :
  neorInv t st -> isLeafAt t i = true -> MarkNode st i v = Done st' ->
  neorInv t st'.
Proof.
  intros (Hsh & Hdc & Hwait & Hval) Hleaf E.
  eapply MarkNode_fuel_neorInv; eauto.
  intros node Hn Hty. unfold isLeafAt in Hleaf. rewrite Hn in Hleaf.
  apply Z.eqb_eq in Hleaf. rewrite Hty in Hleaf. discriminate.
Qed.

Lemma markAll_neorInv marks :
  forall st st',
    neorInv t st -> Forall (fun m => isLeafAt t (fst m) = true) marks ->
    markAll marks st = Done st' -> neorInv t st'.
Proof.
  induction marks as [|[i v] marks IH]; intros st st' Hinv Hall E; simpl in E.
  - now injection E as <-.
  - apply bind_Done in E as (st1 & E1 & E2).
    inversion Hall as [|m ms Hm Hms]; subst. simpl in Hm.
    eapply IH; [|exact Hms|exact E2].
    eapply MarkNode_leaf_neorInv; eauto.
Qed.

Lemma zget_repeat {A} (a : A) n i x : zget (repeat a n) i = Some x -> x = a.
Proof.
  unfold zget. destruct (i <? 0); [discriminate|]. intros H.
  apply nth_error_In in H. now apply repeat_spec in H.
Qed.

Lemma NewState_neorInv : neorInv t (NewState t).
Proof.
  assert (forall j, ~ decided (NewState t) j) as Hnd.
  { intros j (x & Hx & Hne). simpl in Hx. apply zget_repeat in Hx. congruence. }
  apply neorInv_intro; auto.
  - simpl. apply repeat_length.
  - intros p c _ Hd. now apply Hnd in Hd.
  - intros n node _ _ _ Hd. now apply Hnd in Hd.
  - intros n node _ _. split; intros H; simpl in H; apply zget_repeat in H;
      discriminate.
Qed.

Lemma neorInv_reading st n node l r :
  neorInv t st ->
  zget t n = Some node -> NodeType node = nodeTypeNeor ->
  zget (data st) (Left node) = Some l ->
  zget (data st) (Right node) = Some r ->
  (isUnknown l || isUnknown r = true ->
   zget (data st) n = Some binTreeStateUnknown) /\
  (isUnknown l || isUnknown r = false ->
   zget (data st) n = Some binTreeStateResolved \/
   zget (data st) n = Some (markValue (isTrue l || isTrue r))).
Proof.
  intros ((Ht & Hs & Hlen) & Hdc & Hwait & Hval) Hn Hty Hl Hr.
  destruct (neor_children n node Hn Hty) as [HcL HcR].
  assert (exists x, zget (data st) n = Some x) as [x Hx].
  { apply zget_in_range. apply zget_range in Hn. unfold zlen in *.
    now rewrite Hlen. }
  destruct (Hval n node Hn Hty) as [HvT HvF].
  split; intros HU.
  - destruct (decided_or_unknown _ _ _ Hx) as [Hd|Hu]; [|exact Hu].
    exfalso. pose proof (Hdc _ _ HcL Hd) as (l' & Hl' & Hnl).
    pose proof (Hdc _ _ HcR Hd) as (r' & Hr' & Hnr).
    assert (l' = l) by congruence. assert (r' = r) by congruence. subst.
    destruct l, r; simpl in HU; congruence.
  - apply orb_false_elim in HU as [UL UR].
    apply isUnknown_false in UL, UR.
    destruct x.
    + exfalso. apply (Hwait n node Hn Hty Hx); eexists; eauto.
    + now left.
    + right. rewrite Hx. destruct (HvT Hx) as [H|H].
      * assert (l = binTreeStateTrue) by congruence. subst l. reflexivity.
      * assert (r = binTreeStateTrue) by congruence. subst r.
        now rewrite orb_true_r.
    + right. rewrite Hx. destruct (HvF Hx) as [H1 H2].
      destruct l, r; simpl; congruence.
Qed.
End NeorInvariant.

(* ------------------------------------------------------------------ *)
(** * What [ResetNode] changes *)

Lemma below_first t i k :
  below t i k -> exists c, child t i c /\ atOrBelow t c k.
Proof.
  induction 1 as [c Hc|p c Hb IH Hc].
  - exists c. split; [exact Hc|now left].
  - destruct IH as (c0 & Hc0 & [->|Hb0]).
    + exists c0. split; [exact Hc0|]. right. now apply below_child.
    + exists c0. split; [exact Hc0|]. right. eapply below_step; eauto.
Qed.

Lemma atOrBelow_child t i c k :
  child t i c -> atOrBelow t c k -> below t i k.
Proof.
  intros Hc [->|Hb]; [now apply below_child|].
  eapply below_trans; [apply below_child; exact Hc|exact Hb].
Qed.

Lemma resetNodeRecursive_frame fuel :
  forall st i, post (resetFrame st i) (resetNodeRecursive fuel st i).
Proof.
  induction fuel as [|fuel IH]; intros st i; [exact I|]. simpl.
  assert (resetFrame st i st) as Hrefl by (repeat split; auto).
  destruct ((i <? 0) || (i >=? zlen (data st))) eqn:Hrange; simpl; [auto|].
  set (st1 := setData st i binTreeStateUnknown).
  assert (resetFrame st i st1) as H1.
  { repeat split; simpl; auto using length_zset.
    - intros k. destruct (Z.eq_dec i k) as [->|Hne];
        [|left; now apply zget_zset_ne].
      apply orb_false_elim in Hrange as [R1 R2].
      apply Z.ltb_ge in R1. rewrite Z.geb_leb in R2. apply Z.leb_gt in R2.
      destruct (zget_in_range (data st) k (conj R1 R2)) as [x Hx].
      right. eapply zget_zset_eq; eauto.
    - intros k Hk. apply zget_zset_ne. intros ->. apply Hk. now left. }
  apply post_withNode; [exact H1|]. intros n Hn. simpl in Hn.
  assert (forall c s, child (tree st) i c -> resetFrame st i s ->
            post (resetFrame st i) (resetNodeRecursive fuel s c)) as Hkid.
  { intros c s Hc (T & S & L & U & F).
    generalize (IH s c). apply post_impl.
    intros s' (T' & S' & L' & U' & F'). repeat split; try congruence.
    - intros k. destruct (U' k) as [H|H]; [|now right].
      rewrite H. apply U.
    - intros k Hk. rewrite F'; [auto|]. rewrite T. intros Hck. apply Hk.
      right. eapply atOrBelow_child; eauto. }
  apply post_bind.
  assert (post (resetFrame st i)
            (if binTreeNodeTypeHasLeft (NodeType n)
             then resetNodeRecursive fuel st1 (Left n) else Done st1)) as HL.
  { destruct (binTreeNodeTypeHasLeft (NodeType n)) eqn:E; [|exact H1].
    apply Hkid; [now apply child_left|exact H1]. }
  revert HL. apply post_impl. intros st2 H2. split; [exact H2|].
  destruct (binTreeNodeTypeHasRight (NodeType n)) eqn:E; [|exact H2].
  apply Hkid; [now apply child_right|exact H2].
Qed.

Lemma resetFrame_unknown st i st' k :
  resetFrame st i st' -> zget (data st) k = Some binTreeStateUnknown ->
  zget (data st') k = Some binTreeStateUnknown.
Proof. intros (_ & _ & _ & U & _) Hk. destruct (U k); congruence. Qed.

Lemma resetNodeRecursive_subtree fuel :
  forall st i st', resetNodeRecursive fuel st i = Done st' ->
    forall k, atOrBelow (tree st) i k ->
              zget (data st') k = Some binTreeStateUnknown.
Proof.
  induction fuel as [|fuel IH]; intros st i st' E; [discriminate|].
  simpl in E.
  destruct ((i <? 0) || (i >=? zlen (data st))) eqn:Hrange; [discriminate|].
  apply orb_false_elim in Hrange as [R1 R2].
  apply Z.ltb_ge in R1. rewrite Z.geb_leb in R2. apply Z.leb_gt in R2.
  destruct (zget_in_range (data st) i (conj R1 R2)) as [x Hx].
  set (st1 := setData st i binTreeStateUnknown) in *.
  apply withNode_Done in E as (n & Hn & E). simpl in Hn.
  apply bind_Done in E as (st2 & E1 & E2).
  assert (zget (data st1) i = Some binTreeStateUnknown) as H1.
  { simpl. eapply zget_zset_eq; eauto. }
  assert (tree st2 = tree st /\
          forall k, zget (data st1) k = Some binTreeStateUnknown ->
                    zget (data st2) k = Some binTreeStateUnknown) as [T2 U2].
  { destruct (binTreeNodeTypeHasLeft (NodeType n)).
    - pose proof (post_Done _ _ _ (resetNodeRecursive_frame _ st1 (Left n)) E1)
        as F. split; [apply F|]. intros k. now apply resetFrame_unknown with (i := Left n).
    - injection E1 as <-. auto. }
  assert (forall k, zget (data st2) k = Some binTreeStateUnknown ->
                    zget (data st') k = Some binTreeStateUnknown) as U3.
  { destruct (binTreeNodeTypeHasRight (NodeType n)).
    - pose proof (post_Done _ _ _ (resetNodeRecursive_frame _ st2 (Right n)) E2)
        as F. intros k. now apply resetFrame_unknown with (i := Right n).
    - injection E2 as <-. auto. }
  intros k [->|Hb]; [auto|].
  apply below_first in Hb as (c & Hc & Hck).
  destruct (child_cases _ _ _ _ Hn Hc) as [[HL ->]|[HR ->]].
  - rewrite HL in E1. apply U3. eapply IH; [exact E1|exact Hck].
  - rewrite HR in E2. eapply IH; [exact E2|]. now rewrite T2.
Qed.

Lemma resetNodeRecursive_Done t :
  linksOk t = true ->
  forall fuel st i,
    tree st = t -> length (data st) = length t ->
    0 <= i < zlen t -> zlen t - i < Z.of_nat fuel ->
    exists st', resetNodeRecursive fuel st i = Done st'.
Proof.
  intros Hl. induction fuel as [|fuel IH]; intros st i Ht HL Hi Hf; [lia|].
  simpl.
  assert (zlen (data st) = zlen t) as HZ by (unfold zlen; congruence).
  replace ((i <? 0) || (i >=? zlen (data st))) with false
    by (symmetry; apply orb_false_intro; [apply Z.ltb_ge|
        rewrite Z.geb_leb; apply Z.leb_gt]; lia).
  set (st1 := setData st i binTreeStateUnknown).
  destruct (zget_in_range t i Hi) as [n Hn].
  unfold withNode. simpl. rewrite Ht, Hn.
  assert (forall c s, child t i c -> tree s = t -> length (data s) = length t ->
            exists s', resetNodeRecursive fuel s c = Done s' /\
                       tree s' = t /\ length (data s') = length t) as Hkid.
  { intros c s Hc Ts Ls.
    destruct (linksOk_child _ _ _ Hl Hc) as (Hlt & nc & Hnc & _).
    pose proof (zget_range _ _ _ Hnc) as Hcr.
    destruct (IH s c Ts Ls Hcr ltac:(lia)) as [s' Es'].
    exists s'. split; [exact Es'|].
    destruct (post_Done _ _ _ (resetNodeRecursive_frame fuel s c) Es')
      as (T & _ & L & _). split; congruence. }
  assert (tree st1 = t /\ length (data st1) = length t) as [T1 L1].
  { split; [exact Ht|]. simpl. now rewrite length_zset. }
  destruct (binTreeNodeTypeHasLeft (NodeType n)) eqn:ELeft.
  - destruct (Hkid (Left n) st1 (child_left _ _ _ Hn ELeft) T1 L1)
      as (st2 & E2 & T2 & L2).
    rewrite E2. simpl.
    destruct (binTreeNodeTypeHasRight (NodeType n)) eqn:ERight; [|eauto].
    destruct (Hkid (Right n) st2 (child_right _ _ _ Hn ERight) T2 L2)
      as (st3 & E3 & _). eauto.
  - simpl.
    destruct (binTreeNodeTypeHasRight (NodeType n)) eqn:ERight; [|eauto].
    destruct (Hkid (Right n) st1 (child_right _ _ _ Hn ERight) T1 L1)
      as (st3 & E3 & _). eauto.
Qed.

(* ------------------------------------------------------------------ *)
(** * What [Validate] has checked *)

Lemma walkedOver_under t item parent n c j :
  zget t item = Some n -> NodeType n <> nodeTypeLeaf -> item < c ->
  walkedOver t c item j -> c <= j -> walkedOver t item parent j.
Proof.
  intros Hn Hty Hc (nj & Hj & Hck & Hroot & Hin) Hcj.
  exists nj. split; [exact Hj|]. split; [exact Hck|]. split; [lia|].
  intros _. destruct (Z.eq_dec j c) as [->|Hne].
  - rewrite (Hroot eq_refl). split; [lia|]. eauto.
  - destruct Hin as [Hr Hp]; [lia|]. split; [lia|exact Hp].
Qed.

Lemma validateItem_walk fuel t :
  forall item parent pos,
    validateItem fuel t item parent = Ret (pos, None) ->
    item < pos /\ forall j, item <= j < pos -> walkedOver t item parent j.
Proof.
  induction fuel as [|fuel IH]; intros item parent pos E; [discriminate|].
  simpl in E. destruct (zget t item) as [n|] eqn:Hn; [|discriminate].
  destruct (Z.eqb_spec (ParentIdx n) parent) as [Hp|Hp]; simpl in E;
    [|discriminate].
  destruct (Z.eqb_spec (NodeType n) nodeTypeLeaf) as [Hleaf|Hleaf].
  { injection E as <-. split; [lia|]. intros j Hj.
    assert (j = item) as -> by lia. exists n. split; [exact Hn|].
    split; [now left|]. split; [auto|lia]. }
  destruct ((NodeType n =? nodeTypeAnd) || (NodeType n =? nodeTypeOr)
            || (NodeType n =? nodeTypeNot) || (NodeType n =? nodeTypeNeor)
            || (NodeType n =? nodeTypeLoop)) eqn:Hty; cbn [negb] in E;
    [|discriminate].
  assert (binTreeNodeTypeHasLeft (NodeType n) = true) as HL.
  { unfold binTreeNodeTypeHasLeft. now apply negb_true_iff, Z.eqb_neq. }
  rewrite HL in E. cbn [negb] in E.
  destruct ((Left n <=? 0) || (Left n >=? zlen t)) eqn:HLb; [discriminate|].
  apply orb_false_elim in HLb as [L1 L2]. apply Z.leb_gt in L1.
  rewrite Z.geb_leb in L2. apply Z.leb_gt in L2.
  assert (nodeChecked t n) as Hck.
  { unfold nodeChecked. right.
    destruct (binTreeNodeTypeHasRight (NodeType n)) eqn:HR; cbn [negb] in E.
    - destruct ((Right n <=? 0) || (Right n >=? zlen t)) eqn:HRb;
        [discriminate|].
      apply orb_false_elim in HRb as [R1 R2]. apply Z.leb_gt in R1.
      rewrite Z.geb_leb in R2. apply Z.leb_gt in R2.
      left. split; [|lia]. unfold binTreeNodeTypeHasRight in HR.
      repeat (apply orb_prop in Hty as [Hty|Hty]); apply Z.eqb_eq in Hty;
        rewrite Hty in *; auto; discriminate.
    - destruct (Z.eqb_spec (Right n) 0) as [R0|R0]; cbn [negb] in E;
        [|discriminate].
      right. split; [|lia]. unfold binTreeNodeTypeHasRight in HR.
      repeat (apply orb_prop in Hty as [Hty|Hty]); apply Z.eqb_eq in Hty;
        rewrite Hty in *; auto; discriminate. }
  destruct (if negb (binTreeNodeTypeHasRight (NodeType n)) then _ else _) in E;
    [discriminate|].
  apply vthen_Ret in E as (p1 & E1 & E).
  apply vthen_Ret in E as (p2 & E2 & E). injection E as ->.
  destruct (IH _ _ _ E1) as (L3 & W1).
  assert (p1 <= pos /\
          forall j, p1 <= j < pos -> walkedOver t item parent j) as [R3 W2].
  { destruct (binTreeNodeTypeHasRight (NodeType n)).
    - destruct (IH _ _ _ E2) as (R3 & W2). split; [lia|]. intros j Hj.
      eapply (walkedOver_under t item parent n p1); eauto; lia.
    - injection E2 as ->. split; [lia|intros; lia]. }
  split; [lia|]. intros j Hj.
  destruct (Z.eq_dec j item) as [->|Hne].
  { exists n. split; [exact Hn|]. split; [exact Hck|]. split; [auto|lia]. }
  destruct (Z_lt_le_dec j p1) as [Hlt|Hge].
  - eapply (walkedOver_under t item parent n (item + 1)); eauto; try lia.
    apply W1. lia.
  - apply W2. lia.
Qed.

Lemma Validate_walk t :
  Validate t = Ret None -> forall j, 0 <= j < zlen t -> walkedOver t 0 0 j.
Proof.
  unfold Validate, rbind. intros E j Hj.
  destruct (validateItem (S (length t)) t 0 0) as [[pos [e|]]| |] eqn:V;
    simpl in E; try discriminate.
  destruct (Z.eqb_spec pos (zlen t)) as [->|]; simpl in E; [|discriminate].
  destruct (validateItem_walk _ _ _ _ _ V) as (_ & H). now apply H.
Qed.

Lemma Validate_walk_root t :
  Validate t = Ret None -> exists root, zget t 0 = Some root /\ ParentIdx root = 0.
Proof.
  intros E.
  assert (0 < zlen t) as Hpos.
  { unfold Validate, rbind in E.
    destruct (validateItem (S (length t)) t 0 0) as [[pos [e|]]| |] eqn:V;
      simpl in E; try discriminate.
    destruct (Z.eqb_spec pos (zlen t)) as [->|]; simpl in E; [|discriminate].
    destruct (validateItem_walk _ _ _ _ _ V) as (H & _). exact H. }
  destruct (Validate_walk t E 0) as (n & Hn & _ & Hroot & _); [lia|].
  exists n. auto.
Qed.

(** [validateItem] goes to larger items only and panics past the end, so the
    fuel [Validate] gives it is never used up. *)
Lemma validateItem_returns t fuel :
  forall item parent,
    (0 < fuel)%nat -> (0 <= item -> zlen t - item < Z.of_nat fuel) ->
    validateItem fuel t item parent <> NoFuel.
Proof.
  induction fuel as [|fuel IH]; intros item parent Hpos Hf; [lia|].
  simpl. destruct (zget t item) as [n|] eqn:Hn; [|discriminate].
    pose proof (zget_range _ _ _ Hn) as Hr.
    destruct (negb (ParentIdx n =? parent)); [discriminate|].
    destruct (NodeType n =? nodeTypeLeaf); [discriminate|].
    destruct (negb _); [discriminate|].
    destruct (if negb (binTreeNodeTypeHasLeft (NodeType n)) then _ else _);
      [discriminate|].
    destruct (if negb (binTreeNodeTypeHasRight (NodeType n)) then _ else _);
      [discriminate|].
    assert (forall p q, item < p -> validateItem fuel t p q <> NoFuel) as Hkid.
    { intros p q Hp. specialize (Hf ltac:(lia)).
      apply IH; [unfold zlen in *; lia|]. intros _. lia. }
    unfold vthen, rbind.
    destruct (if binTreeNodeTypeHasLeft (NodeType n)
              then validateItem fuel t (item + 1) item
              else Ret (item + 1, None)) as [[p1 [e|]]| |] eqn:E1;
      simpl; try discriminate.
    + assert (item < p1) as Hp1.
      { destruct (binTreeNodeTypeHasLeft (NodeType n)).
        - apply validateItem_parents in E1 as (H & _). lia.
        - injection E1 as <-. lia. }
      destruct (if binTreeNodeTypeHasRight (NodeType n)
                then validateItem fuel t p1 item
                else Ret (p1, None)) as [[p2 [e|]]| |] eqn:E2;
        simpl; try discriminate.
      exfalso. destruct (binTreeNodeTypeHasRight (NodeType n));
        [|discriminate]. revert E2. now apply Hkid.
    + exfalso. destruct (binTreeNodeTypeHasLeft (NodeType n));
        [|discriminate]. revert E1. apply Hkid. lia.
Qed.

(* ------------------------------------------------------------------ *)
(** * The values that [checkNode] gives *)

Lemma isTrue_true v : isTrue v = true -> v = binTreeStateTrue.
Proof. destruct v; simpl; congruence. Qed.

Lemma isFalse_true v : isFalse v = true -> v = binTreeStateFalse.
Proof. destruct v; simpl; congruence. Qed.

Lemma noValue_intro v : isTrue v = false -> isFalse v = false -> noValue v.
Proof. unfold noValue. destruct v; simpl; intros; auto; discriminate. Qed.

Ltac read_done :=
  right; eexists; split; [eassumption|];
  unfold readOk, valueOk;
  match goal with H : NodeType _ = _ |- _ => rewrite H end;
  simpl; auto.

Ltac idle_left E :=
  left; split; [congruence|]; left; eexists; split; [reflexivity|];
  apply noValue_intro; assumption.

Ltac idle_right E H :=
  left; split; [congruence|]; right; split; [rewrite H; reflexivity|];
  eexists; split; [reflexivity|]; apply noValue_intro; assumption.

Lemma checkNodeWith_Done_read mark st p st' :
  checkNodeWith mark st p = Done st' ->
  exists node, zget (tree st) p = Some node /\
    NodeType node <> nodeTypeLeaf /\
    ((st' = st /\ idleRead st node) \/
     (exists b, mark st p b = Done st' /\ readOk st node b)).
Proof.
  unfold checkNodeWith, withNode. intros E.
  destruct (zget (tree st) p) as [node|]; [|discriminate].
  destruct (Z.eqb_spec (NodeType node) nodeTypeLeaf) as [|Hnl]; [discriminate|].
  exists node. split; [reflexivity|]. split; [exact Hnl|].
  unfold idleRead.
  destruct (Z.eqb_spec (NodeType node) nodeTypeOr) as [HOr|HnOr].
  { unfold withData in E.
    destruct (zget (data st) (Left node)) as [l|] eqn:HL; [|discriminate].
    destruct (isTrue l) eqn:TL.
    { apply isTrue_true in TL. subst l. read_done. }
    destruct (zget (data st) (Right node)) as [r|] eqn:HR; [|discriminate].
    destruct (isTrue r) eqn:TR.
    { apply isTrue_true in TR. subst r. read_done. }
    destruct (isFalse l) eqn:FL; cbn [andb] in E.
    - destruct (isFalse r) eqn:FR.
      + apply isFalse_true in FL, FR. subst. read_done.
      + idle_right E HOr.
    - idle_left E. }
  destruct (Z.eqb_spec (NodeType node) nodeTypeNeor) as [HNeor|HnNeor].
  { unfold withData in E.
    destruct (zget (data st) (Left node)) as [l|] eqn:HL; [|discriminate].
    destruct (isUnknown l) eqn:UL.
    { left. split; [congruence|]. left. exists l. split; [reflexivity|].
      left. now apply isUnknown_true. }
    destruct (zget (data st) (Right node)) as [r|] eqn:HR; [|discriminate].
    destruct (isUnknown r) eqn:UR.
    { left. split; [congruence|]. right. split; [now rewrite HNeor|].
      exists r. split; [reflexivity|]. left. now apply isUnknown_true. }
    apply isUnknown_false in UL, UR.
    right. destruct (isTrue l || isTrue r) eqn:V.
    - exists true. split; [exact E|].
      unfold readOk. rewrite HNeor. simpl. exists l, r. now rewrite V.
    - exists false. split; [exact E|].
      unfold readOk. rewrite HNeor. simpl. exists l, r. now rewrite V. }
  destruct (Z.eqb_spec (NodeType node) nodeTypeAnd) as [HAnd|HnAnd].
  { unfold withData in E.
    destruct (zget (data st) (Left node)) as [l|] eqn:HL; [|discriminate].
    destruct (isTrue l) eqn:TL.
    { apply isTrue_true in TL. subst l.
      destruct (zget (data st) (Right node)) as [r|] eqn:HR; [|discriminate].
      destruct (isTrue r) eqn:TR.
      { apply isTrue_true in TR. subst r. read_done. }
      destruct (isFalse r) eqn:FR.
      - apply isFalse_true in FR. subst r. read_done.
      - idle_right E HAnd. }
    destruct (isFalse l) eqn:FL.
    { apply isFalse_true in FL. subst l. read_done. }
    destruct (zget (data st) (Right node)) as [r|] eqn:HR; [|discriminate].
    destruct (isFalse r) eqn:FR.
    - apply isFalse_true in FR. subst r. read_done.
    - idle_left E. }
  destruct (Z.eqb_spec (NodeType node) nodeTypeNot) as [HNot|HnNot].
  { unfold withData in E.
    destruct (zget (data st) (Left node)) as [l|] eqn:HL; [|discriminate].
    destruct (isTrue l) eqn:TL.
    { apply isTrue_true in TL. subst l. read_done. }
    destruct (isFalse l) eqn:FL.
    - apply isFalse_true in FL. subst l. read_done.
    - idle_left E. }
  destruct (Z.eqb_spec (NodeType node) nodeTypeLoop) as [HLoop|HnLoop];
    [|discriminate].
  unfold withData in E.
  destruct (zget (data st) (Left node)) as [l|] eqn:HL; [|discriminate].
  destruct (isTrue l) eqn:TL.
  { apply isTrue_true in TL. subst l. read_done. }
  destruct (isFalse l) eqn:FL.
  - apply isFalse_true in FL. subst l. read_done.
  - idle_left E.
Qed.

Lemma markAll_extends marks :
  forall st, post (extends st) (markAll marks st).
Proof.
  induction marks as [|[i v] marks IH]; intros st; simpl.
  - apply extends_refl.
  - apply post_bind. generalize (MarkNode_extends st i v). apply post_impl.
    intros st1 H1. split; [exact H1|].
    eapply post_extends_trans; [exact H1|apply IH].
Qed.

Lemma markValue_inj a b : markValue a = markValue b -> a = b.
Proof. destruct a, b; simpl; congruence. Qed.

Lemma valueOk_extends st st' node b :
  extends st st' -> valueOk st node b -> valueOk st' node b.
Proof.
  intros Hx. unfold valueOk.
  assert (forall j x, x <> binTreeStateUnknown ->
            zget (data st) j = Some x -> zget (data st') j = Some x) as K.
  { intros j x Hne Hj. eapply extends_get; eauto. }
  assert (forall j, zget (data st) j = Some binTreeStateTrue ->
                    zget (data st') j = Some binTreeStateTrue) as KT
    by (intros j; apply K; discriminate).
  assert (forall j, zget (data st) j = Some binTreeStateFalse ->
                    zget (data st') j = Some binTreeStateFalse) as KF
    by (intros j; apply K; discriminate).
  assert (forall j c, zget (data st) j = Some (markValue c) ->
                      zget (data st') j = Some (markValue c)) as KM
    by (intros j c; apply K; apply markValue_decided).
  destruct ((NodeType node =? nodeTypeOr) || (NodeType node =? nodeTypeNeor)).
  { destruct b; intuition auto. }
  destruct (NodeType node =? nodeTypeAnd).
  { destruct b; intuition auto. }
  destruct (NodeType node =? nodeTypeNot); [apply KM|].
  destruct (NodeType node =? nodeTypeLoop); [apply KM|auto].
Qed.

(** The entries after [MarkNode] has written the mark and resolved the
    subtree: the old decided ones, the mark, and the [Resolved] entries of
    the walk. *)
Lemma entries_after_resolve fuel st i v st2 :
  zget (data st) i = Some binTreeStateUnknown ->
  resolveRecursive fuel (setData st i (markValue v)) i = Done st2 ->
  extends st st2 /\
  zget (data st2) i = Some (markValue v) /\
  forall j x, zget (data st2) j = Some x ->
    zget (data st) j = Some x \/
    (j = i /\ x = markValue v) \/
    (x = binTreeStateResolved /\
     reachUnknown (tree st) (data (setData st i (markValue v))) i j).
Proof.
  intros Hi E.
  set (st1 := setData st i (markValue v)) in *.
  assert (extends st st1) as Hx1.
  { apply extends_setData; auto. now destruct v. }
  pose proof (post_Done _ _ _ (resolveRecursive_extends _ st1 i) E) as Hx12.
  assert (extends st st2) as Hx2 by (eapply extends_trans; eauto).
  pose proof (resolveRecursive_changes _ _ _ _ E) as Hch.
  assert (zget (data st1) i = Some (markValue v)) as Hi1.
  { simpl. eapply zget_zset_eq; eauto. }
  assert (zget (data st2) i = Some (markValue v)) as Hi2.
  { eapply extends_get; [exact Hx12|exact Hi1|apply markValue_decided]. }
  split; [exact Hx2|]. split; [exact Hi2|].
  intros j x Hj. destruct (Z.eq_dec j i) as [->|Hne].
  { right; left. split; congruence. }
  destruct (zget_Some_back st st2 j x (extends_length _ _ Hx2) Hj) as [y Hy].
  destruct (decided_or_unknown _ _ _ Hy) as [(y' & Hy' & Hny)|Hu].
  { left. pose proof (extends_get _ _ _ _ Hx2 Hy' Hny). congruence. }
  destruct x; try (left; congruence); right; right;
    (destruct (Hch j) as [HR Hr];
     [simpl; rewrite zget_zset_ne by auto; exact Hu|congruence|]);
    (split; [congruence|exact Hr]).
Qed.

Lemma reachUnknown_parent t s i c :
  reachUnknown t s i c ->
  exists p, child t p c /\ (p = i \/ reachUnknown t s i p).
Proof.
  intros Hr. inversion Hr as [c' Hc' Hu'|p' c' Hr' Hc' Hu']; subst c'; eauto.
Qed.

Section ValueInvariant.
Variable t : binTree.
Hypothesis Hlinks : linksOk t = true.
Variable leafOk : Z -> bool -> Prop.

Lemma resolvedUnder_after_resolve fuel st i v st2 :
  tree st = t -> resolvedUnder t st ->
  zget (data st) i = Some binTreeStateUnknown ->
  resolveRecursive fuel (setData st i (markValue v)) i = Done st2 ->
  resolvedUnder t st2.
Proof.
  intros Ht Hru Hi E.
  destruct (entries_after_resolve _ _ _ _ _ Hi E) as (Hx2 & Hi2 & Hcls).
  rewrite Ht in Hcls.
  pose proof (resolveRecursive_reach _ _ _ _ E) as Hreach.
  change (tree (setData st i (markValue v))) with (tree st) in Hreach.
  rewrite Ht in Hreach.
  intros c Hc p Hpc.
  destruct (Hcls c _ Hc) as [Hp|[[-> Hv]|[_ Hr]]].
  - eapply extends_decided; [exact Hx2|]. eapply Hru; eauto.
  - destruct v; discriminate.
  - destruct (reachUnknown_parent _ _ _ _ Hr) as (p' & Hc' & Hp').
    pose proof (linksOk_parent_unique _ _ _ _ Hlinks Hpc Hc'). subst p'.
    destruct Hp' as [->|Hrp].
    + exists (markValue v). split; [exact Hi2|apply markValue_decided].
    + exists binTreeStateResolved. split; [now apply Hreach|discriminate].
Qed.

Lemma unknown_has_value_children st p node c x :
  resolvedUnder t st -> zget t p = Some node ->
  zget (data st) p = Some binTreeStateUnknown ->
  child t p c -> zget (data st) c = Some x -> x <> binTreeStateResolved.
Proof.
  intros Hru Hp Hu Hc Hx ->. apply (not_decided_unknown _ _ Hu).
  apply (Hru c Hx p Hc).
Qed.

Lemma readOk_valueOk st p node b :
  resolvedUnder t st -> zget t p = Some node ->
  zget (data st) p = Some binTreeStateUnknown ->
  readOk st node b -> valueOk st node b.
Proof.
  intros Hru Hp Hu. unfold readOk, valueOk.
  destruct (Z.eqb_spec (NodeType node) nodeTypeNeor) as [HNeor|]; [|auto].
  rewrite orb_true_r.
  intros (l & r & HL & HR & Hnl & Hnr & Hb).
  assert (l <> binTreeStateResolved) as HlR.
  { apply (unknown_has_value_children st p node (Left node)); auto.
    apply child_left; auto. rewrite HNeor. reflexivity. }
  assert (r <> binTreeStateResolved) as HrR.
  { apply (unknown_has_value_children st p node (Right node)); auto.
    apply child_right; auto. rewrite HNeor. reflexivity. }
  rewrite HL, HR. destruct b.
  - symmetry in Hb. apply orb_prop in Hb as [H|H]; apply isTrue_true in H;
      subst; auto.
  - symmetry in Hb. apply orb_false_elim in Hb as [H1 H2].
    destruct l, r; simpl in *; try congruence; auto.
Qed.

Lemma valueInv_after_resolve fuel st i v st2 :
  valueInv t leafOk st -> markOk t leafOk st i v ->
  zget (data st) i = Some binTreeStateUnknown ->
  resolveRecursive fuel (setData st i (markValue v)) i = Done st2 ->
  valueInv t leafOk st2.
Proof.
  intros (Ht & Hval & Hru & Hlv) [Hok Hleaf] Hi E.
  destruct (entries_after_resolve _ _ _ _ _ Hi E) as (Hx2 & Hi2 & Hcls).
  split; [rewrite (extends_tree _ _ Hx2); exact Ht|].
  split; [|split; [eapply resolvedUnder_after_resolve; eauto|]].
  - intros n node b Hn Hb.
    destruct (Hcls n _ Hb) as [Hp|[[-> Hv]|[Hv _]]].
    + eapply valueOk_extends; [exact Hx2|]. eapply Hval; eauto.
    + apply markValue_inj in Hv. subst b.
      eapply valueOk_extends; [exact Hx2|]. now apply Hok.
    + destruct b; discriminate.
  - intros j b Hj Hb.
    destruct (Hcls j _ Hb) as [Hp|[[-> Hv]|[Hv _]]].
    + eapply Hlv; eauto.
    + apply markValue_inj in Hv. subst b. auto.
    + destruct b; discriminate.
Qed.

Lemma MarkNode_fuel_valueInv fuel :
  forall st i v st',
    valueInv t leafOk st ->
    (zget (data st) i = Some binTreeStateUnknown -> markOk t leafOk st i v) ->
    MarkNode_fuel fuel st i v = Done st' ->
    valueInv t leafOk st'.
Proof.
  induction fuel as [|fuel IH]; intros st i v st' Hinv Hok E;
    [discriminate|].
  rewrite MarkNode_fuel_S in E. apply withData_Done in E as (cur & Hcur & E).
  destruct (isUnknown cur) eqn:U; cbn [negb] in E; [|discriminate].
  apply isUnknown_true in U; subst cur. fold (markValue v) in E.
  apply bind_Done in E as (st2 & E1 & E2).
  pose proof (valueInv_after_resolve _ _ _ _ _ Hinv (Hok Hcur) Hcur E1)
    as Hinv2.
  destruct (i =? 0); [injection E2 as <-; auto|].
  destruct (i =? stallIndex st2); [injection E2 as <-; auto|].
  apply withNode_Done in E2 as (nd & Hnd & E2).
  apply checkNodeWith_Done_read in E2
    as (pn & Hpn & Hnl & [[-> _]|(b & E2 & Hb)]); [auto|].
  destruct Hinv2 as (Ht2 & Hval2 & Hru2 & Hlv2). rewrite Ht2 in Hpn.
  eapply (IH st2 (ParentIdx nd) b st'); [repeat split; auto| |exact E2].
  intros Hu. split.
  - intros node Hn. assert (node = pn) by congruence. subst node.
    eapply readOk_valueOk; eauto.
  - unfold isLeafAt. rewrite Hpn. intros H. apply Z.eqb_eq in H. contradiction.
Qed.

Lemma markAll_valueInv marks :
  forall st st',
    valueInv t leafOk st ->
    Forall (fun m => isLeafAt t (fst m) = true /\ leafOk (fst m) (snd m))
           marks ->
    markAll marks st = Done st' ->
    valueInv t leafOk st'.
Proof.
  induction marks as [|[i v] marks IH]; intros st st' Hinv Hall E;
    simpl in E.
  - injection E as <-. auto.
  - apply bind_Done in E as (st1 & E1 & E2).
    apply Forall_cons_iff in Hall as [[Hm Ha] Hms]. simpl in Hm, Ha.
    eapply IH; [|exact Hms|exact E2].
    eapply (MarkNode_fuel_valueInv _ st i v st1 Hinv); [|exact E1].
    intros _. split; [|auto]. intros node Hn.
    unfold isLeafAt in Hm. rewrite Hn in Hm. apply Z.eqb_eq in Hm.
    unfold valueOk. rewrite Hm. exact I.
Qed.

Lemma NewState_valueInv s :
  valueInv t leafOk (snd (SetStallIndex (NewState t) s)).
Proof.
  split; [reflexivity|]. split; [|split].
  - intros n node b _ H. simpl in H. apply zget_repeat in H.
    destruct b; discriminate.
  - intros c H. simpl in H. apply zget_repeat in H. discriminate.
  - intros i b _ H. simpl in H. apply zget_repeat in H.
    destruct b; discriminate.
Qed.

End ValueInvariant.

Section Evaluation.
Variable t : binTree.
Hypothesis Hlinks : linksOk t = true.
Hypothesis Hvalid : Validate t = Ret None.
Variable a : Z -> bool.

Lemma evalNode_defined fuel :
  forall n, 0 <= n < zlen t -> zlen t - n <= Z.of_nat fuel ->
            exists b, evalNode fuel t a n = Some b.
Proof.
  induction fuel as [|fuel IH]; intros n Hn Hf; [lia|].
  destruct (zget_in_range t n Hn) as [node Hnode]. simpl. rewrite Hnode.
  destruct (Validate_walk t Hvalid n Hn) as (node' & Hnode' & Hck & _).
  assert (node' = node) by congruence. subst node'.
  assert (forall c, child t n c -> exists b, evalNode fuel t a c = Some b)
    as Hkid.
  { intros c Hc. destruct (linksOk_child _ _ _ Hlinks Hc) as (Hlt & nc & Hnc & _).
    apply zget_range in Hnc. apply IH; lia. }
  destruct Hck as [Hty|[[Hty _]|[Hty _]]].
  - rewrite Hty. simpl. eauto.
  - destruct (Hkid (Left node)) as [x Hx].
    { apply child_left; auto. destruct Hty as [H|[H|H]]; now rewrite H. }
    destruct (Hkid (Right node)) as [y Hy].
    { apply child_right; auto. destruct Hty as [H|[H|H]]; now rewrite H. }
    rewrite Hx, Hy. destruct Hty as [H|[H|H]]; rewrite H; simpl; eauto.
  - destruct (Hkid (Left node)) as [x Hx].
    { apply child_left; auto. destruct Hty as [H|H]; now rewrite H. }
    rewrite Hx. destruct Hty as [H|H]; rewrite H; simpl; eauto.
Qed.

Lemma evalNode_of_value st :
  valuesOk t st -> leavesAgree t (fun i b => a i = b) st ->
  forall fuel n b b',
    zget (data st) n = Some (markValue b) ->
    evalNode fuel t a n = Some b' -> b' = b.
Proof.
  intros Hval Hlv. induction fuel as [|fuel IH]; intros n b b' Hb E;
    [discriminate|].
  simpl in E. destruct (zget t n) as [node|] eqn:Hn; [|discriminate].
  pose proof (Hval n node b Hn Hb) as Hok. unfold valueOk in Hok.
  destruct (Z.eqb_spec (NodeType node) nodeTypeLeaf) as [Hleaf|Hnl].
  { injection E as <-. apply Hlv; auto. unfold isLeafAt. rewrite Hn.
    now apply Z.eqb_eq. }
  assert (forall c x, zget (data st) c = Some binTreeStateTrue ->
            evalNode fuel t a c = Some x -> x = true) as KT.
  { intros c x Hc Hx. apply (IH c true x); auto. }
  assert (forall c x, zget (data st) c = Some binTreeStateFalse ->
            evalNode fuel t a c = Some x -> x = false) as KF.
  { intros c x Hc Hx. apply (IH c false x); auto. }
  destruct ((NodeType node =? nodeTypeOr) || (NodeType node =? nodeTypeNeor)).
  { destruct (evalNode fuel t a (Left node)) as [x|] eqn:Ex; [|discriminate].
    destruct (evalNode fuel t a (Right node)) as [y|] eqn:Ey; [|discriminate].
    injection E as <-. destruct b.
    - destruct Hok as [H|H].
      + rewrite (KT _ _ H Ex). reflexivity.
      + rewrite (KT _ _ H Ey). apply orb_true_r.
    - destruct Hok as [H1 H2]. rewrite (KF _ _ H1 Ex), (KF _ _ H2 Ey).
      reflexivity. }
  destruct (NodeType node =? nodeTypeAnd).
  { destruct (evalNode fuel t a (Left node)) as [x|] eqn:Ex; [|discriminate].
    destruct (evalNode fuel t a (Right node)) as [y|] eqn:Ey; [|discriminate].
    injection E as <-. destruct b.
    - destruct Hok as [H1 H2]. rewrite (KT _ _ H1 Ex), (KT _ _ H2 Ey).
      reflexivity.
    - destruct Hok as [H|H].
      + rewrite (KF _ _ H Ex). reflexivity.
      + rewrite (KF _ _ H Ey). apply andb_false_r. }
  destruct (NodeType node =? nodeTypeNot).
  { destruct (evalNode fuel t a (Left node)) as [x|] eqn:Ex; [|discriminate].
    injection E as <-. rewrite (IH _ _ _ Hok Ex). apply negb_involutive. }
  destruct (NodeType node =? nodeTypeLoop); [|discriminate].
  eapply IH; eauto.
Qed.

Lemma value_is_evalNode marks s st n b :
  Forall (fun m => isLeafAt t (fst m) = true /\ a (fst m) = snd m) marks ->
  markAll marks (snd (SetStallIndex (NewState t) s)) = Done st ->
  zget (data st) n = Some (markValue b) ->
  evalNode (length t) t a n = Some b.
Proof.
  intros Hall E Hb.
  destruct (markAll_valueInv t Hlinks (fun i b => a i = b) marks _ st
              (NewState_valueInv t _ s) Hall E) as (_ & V & _ & L).
  pose proof (post_Done _ _ _ (markAll_extends marks _) E) as Hx.
  apply extends_length in Hx. simpl in Hx. rewrite repeat_length in Hx.
  assert (0 <= n < zlen t) as Hn.
  { apply zget_range in Hb. unfold zlen in *. now rewrite <- Hx. }
  destruct (evalNode_defined (length t) n Hn) as [b' Hb'].
  { unfold zlen. lia. }
  rewrite Hb'. f_equal. eapply evalNode_of_value; eauto.
Qed.

End Evaluation.

(* ------------------------------------------------------------------ *)
(** * Nodes that stay [Unknown] *)

Lemma zget_repeat_in {A} (a : A) n i :
  0 <= i < Z.of_nat n -> zget (repeat a n) i = Some a.
Proof.
  intros Hi. destruct (zget_in_range (repeat a n) i) as [x Hx].
  { unfold zlen. now rewrite repeat_length. }
  rewrite Hx. f_equal. eapply zget_repeat; eauto.
Qed.

Section Progress.
Variable t : binTree.
Hypothesis Hlinks : linksOk t = true.

Lemma waits_after_resolve fuel st i v st2 :
  waitInv t st -> (forall n, n <> i -> waitsAt t st n) ->
  zget (data st) i = Some binTreeStateUnknown ->
  resolveRecursive fuel (setData st i (markValue v)) i = Done st2 ->
  waitInv t st2 /\ (forall n, ~ child t n i -> waitsAt t st2 n).
Proof.
  intros (Ht & Hs & Hlen & Hru & Hroot) Hwait Hi E.
  destruct (entries_after_resolve _ _ _ _ _ Hi E) as (Hx2 & Hi2 & Hcls).
  rewrite Ht in Hcls.
  pose proof (resolvedUnder_after_resolve t Hlinks _ _ _ _ _ Ht Hru Hi E)
    as Hru2.
  split.
  - unfold waitInv.
    rewrite (extends_tree _ _ Hx2), (extends_stall _ _ Hx2),
      (extends_length _ _ Hx2).
    repeat split; auto. intros H0.
    destruct (Hcls 0 _ H0) as [Hp|[[_ Hv]|[_ Hr]]].
    + contradiction.
    + destruct v; discriminate.
    + destruct (reachUnknown_parent _ _ _ _ Hr) as (p & Hc & _).
      exact (no_parent_of_root t Hlinks p Hc).
  - intros n Hnc node Hn Hnl Hu.
    assert (n <> i) as Hni.
    { intros ->. rewrite Hi2 in Hu. destruct v; discriminate. }
    pose proof (extends_unknown_back _ _ _ Hx2 Hu) as Hu0.
    assert (forall c, child t n c ->
              zget (data st) c = Some binTreeStateUnknown ->
              zget (data st2) c = Some binTreeStateUnknown) as Hkeep.
    { intros c Hc Hcu.
      destruct (extends_get_Some _ _ _ _ Hx2 Hcu) as [x Hx].
      destruct (Hcls c _ Hx) as [Hp|[[-> _]|[-> Hr]]].
      - congruence.
      - contradiction.
      - exfalso. apply (not_decided_unknown _ _ Hu). eapply Hru2; eauto. }
    destruct (Hwait n Hni node Hn Hnl Hu0) as [HL|[HR HRu]].
    + left. apply Hkeep; auto. apply child_left; auto.
      unfold binTreeNodeTypeHasLeft. now apply negb_true_iff, Z.eqb_neq.
    + right. split; [exact HR|]. apply Hkeep; auto. now apply child_right.
Qed.

Lemma idleRead_waits st p node :
  resolvedUnder t st -> zget t p = Some node ->
  NodeType node <> nodeTypeLeaf -> idleRead st node -> waitsAt t st p.
Proof.
  intros Hru Hp Hnl Hidle node' Hp' _ Hu.
  assert (node' = node) by congruence. subst node'.
  destruct Hidle as [(l & HL & [-> | ->])|(HR & r & HRr & [-> | ->])].
  - now left.
  - exfalso.
    eapply (unknown_has_value_children t st p node (Left node)); eauto.
    apply child_left; auto.
    unfold binTreeNodeTypeHasLeft. now apply negb_true_iff, Z.eqb_neq.
  - right. auto.
  - exfalso.
    eapply (unknown_has_value_children t st p node (Right node)); eauto.
    now apply child_right.
Qed.

Lemma MarkNode_fuel_waits fuel :
  forall st i v st',
    waitInv t st -> (forall n, n <> i -> waitsAt t st n) ->
    MarkNode_fuel fuel st i v = Done st' ->
    waitInv t st' /\ forall n, waitsAt t st' n.
Proof.
  induction fuel as [|fuel IH]; intros st i v st' Hinv Hwait E;
    [discriminate|].
  rewrite MarkNode_fuel_S in E. apply withData_Done in E as (cur & Hcur & E).
  destruct (isUnknown cur) eqn:U; cbn [negb] in E; [|discriminate].
  apply isUnknown_true in U; subst cur. fold (markValue v) in E.
  apply bind_Done in E as (st2 & E1 & E2).
  destruct (waits_after_resolve _ _ _ _ _ Hinv Hwait Hcur E1)
    as (Hinv2 & Hwait2).
  destruct (Z.eqb_spec i 0) as [->|Hi0].
  { injection E2 as <-. split; [exact Hinv2|].
    intros n. apply Hwait2. apply (no_parent_of_root t Hlinks). }
  destruct Hinv2 as (Ht2 & Hs2 & Hlen2 & Hru2 & Hroot2).
  rewrite Hs2 in E2. destruct (Z.eqb_spec i 0) as [|_]; [contradiction|].
  apply withNode_Done in E2 as (nd & Hnd & E2). rewrite Ht2 in Hnd.
  assert (forall n, n <> ParentIdx nd -> waitsAt t st2 n) as Hwait3.
  { intros n Hne. apply Hwait2. intros Hc.
    destruct (linksOk_child _ _ _ Hlinks Hc) as (_ & nd' & Hnd' & Hp).
    congruence. }
  apply checkNodeWith_Done_read in E2
    as (pn & Hpn & Hnl & [[-> Hidle]|(b & E2 & _)]); rewrite Ht2 in Hpn.
  - split; [unfold waitInv; auto|]. intros n.
    destruct (Z.eq_dec n (ParentIdx nd)) as [->|Hne]; [|now apply Hwait3].
    eapply idleRead_waits; eauto.
  - eapply (IH st2 (ParentIdx nd) b st'); [unfold waitInv; auto| |exact E2].
    exact Hwait3.
Qed.

Lemma markAll_waits marks :
  forall st st',
    waitInv t st -> (forall n, waitsAt t st n) ->
    markAll marks st = Done st' ->
    waitInv t st' /\ forall n, waitsAt t st' n.
Proof.
  induction marks as [|[i v] marks IH]; intros st st' Hinv Hwait E;
    simpl in E.
  - injection E as <-. auto.
  - apply bind_Done in E as (st1 & E1 & E2).
    destruct (MarkNode_fuel_waits (S (length (data st))) st i v st1 Hinv)
      as [Hinv1 Hwait1];
      [auto|exact E1|].
    eapply IH; eauto.
Qed.

Lemma NewState_waits :
  waitInv t (NewState t) /\ forall n, waitsAt t (NewState t) n.
Proof.
  split.
  - unfold waitInv. simpl. rewrite repeat_length. repeat split.
    + intros c H. simpl in H. apply zget_repeat in H. discriminate.
    + intros H. apply zget_repeat in H. discriminate.
  - intros n node Hn Hnl _. left. simpl. apply zget_repeat_in.
    assert (child t n (Left node)) as Hc.
    { apply child_left; auto.
      unfold binTreeNodeTypeHasLeft. now apply negb_true_iff, Z.eqb_neq. }
    destruct (linksOk_child _ _ _ Hlinks Hc) as (_ & nc & Hnc & _).
    apply zget_range in Hnc. exact Hnc.
Qed.

(** Under an [Unknown] node there is an [Unknown] leaf. *)
Lemma unknown_leaf_below st :
  (forall n, waitsAt t st n) ->
  forall fuel n node,
    zlen t - n < Z.of_nat fuel -> zget t n = Some node ->
    zget (data st) n = Some binTreeStateUnknown ->
    exists j, atOrBelow t n j /\ isLeafAt t j = true /\
              zget (data st) j = Some binTreeStateUnknown.
Proof.
  intros Hwait. induction fuel as [|fuel IH]; intros n node Hf Hn Hu.
  { apply zget_range in Hn. lia. }
  destruct (Z.eqb_spec (NodeType node) nodeTypeLeaf) as [Hleaf|Hnl].
  { exists n. split; [now left|]. split; [|exact Hu].
    unfold isLeafAt. rewrite Hn. now apply Z.eqb_eq. }
  assert (exists c, child t n c /\
                    zget (data st) c = Some binTreeStateUnknown)
    as (c & Hc & Hcu).
  { destruct (Hwait n node Hn Hnl Hu) as [HL|[HR HRu]].
    - exists (Left node). split; [|exact HL]. apply child_left; auto.
      unfold binTreeNodeTypeHasLeft. now apply negb_true_iff, Z.eqb_neq.
    - exists (Right node). split; [|exact HRu]. now apply child_right. }
  destruct (linksOk_child _ _ _ Hlinks Hc) as (Hlt & nc & Hnc & _).
  destruct (IH c nc ltac:(lia) Hnc Hcu) as (j & Hj & Hleaf & Hju).
  exists j. split; [|auto]. right. eapply atOrBelow_child; eauto.
Qed.

Lemma unknown_leaf_after_marks marks st n :
  markAll marks (NewState t) = Done st ->
  zget (data st) n = Some binTreeStateUnknown ->
  exists j, atOrBelow t n j /\ isLeafAt t j = true /\
            zget (data st) j = Some binTreeStateUnknown.
Proof.
  intros E Hu.
  destruct NewState_waits as [Hinv0 Hwait0].
  destruct (markAll_waits marks _ st Hinv0 Hwait0 E)
    as [(Ht & _ & Hlen & _) Hwait].
  assert (0 <= n < zlen t) as Hn.
  { apply zget_range in Hu. unfold zlen in *. now rewrite <- Hlen. }
  destruct (zget_in_range t n Hn) as [node Hnode].
  apply (unknown_leaf_below st Hwait (S (length t)) n node); auto.
  unfold zlen. lia.
Qed.

End Progress.

(* ------------------------------------------------------------------ *)
(** * [Resolved] entries and the decision above them *)

Lemma resolvedByParent_after_resolve t fuel st i v st2 :
  tree st = t -> resolvedByParent t st ->
  zget (data st) i = Some binTreeStateUnknown ->
  resolveRecursive fuel (setData st i (markValue v)) i = Done st2 ->
  tree st2 = t /\ resolvedByParent t st2.
Proof.
  intros Ht Hrp Hi E.
  destruct (entries_after_resolve _ _ _ _ _ Hi E) as (Hx2 & Hi2 & Hcls).
  rewrite Ht in Hcls.
  pose proof (resolveRecursive_reach _ _ _ _ E) as Hreach.
  change (tree (setData st i (markValue v))) with (tree st) in Hreach.
  rewrite Ht in Hreach.
  split; [rewrite (extends_tree _ _ Hx2); exact Ht|].
  intros c Hc.
  destruct (Hcls c _ Hc) as [Hp|[[-> Hv]|[_ Hr]]].
  - destruct (Hrp c Hp) as (p & Hpc & Hd). exists p. split; [exact Hpc|].
    eapply extends_decided; eauto.
  - destruct v; discriminate.
  - destruct (reachUnknown_parent _ _ _ _ Hr) as (p & Hpc & [->|Hrp']).
    + exists i. split; [exact Hpc|].
      exists (markValue v). split; [exact Hi2|apply markValue_decided].
    + exists p. split; [exact Hpc|].
      exists binTreeStateResolved. split; [now apply Hreach|discriminate].
Qed.

Lemma MarkNode_fuel_resolvedByParent t fuel :
  forall st i v st',
    tree st = t -> resolvedByParent t st ->
    MarkNode_fuel fuel st i v = Done st' ->
    tree st' = t /\ resolvedByParent t st'.
Proof.
  induction fuel as [|fuel IH]; intros st i v st' Ht Hrp E; [discriminate|].
  rewrite MarkNode_fuel_S in E. apply withData_Done in E as (cur & Hcur & E).
  destruct (isUnknown cur) eqn:U; cbn [negb] in E; [|discriminate].
  apply isUnknown_true in U; subst cur. fold (markValue v) in E.
  apply bind_Done in E as (st2 & E1 & E2).
  destruct (resolvedByParent_after_resolve _ _ _ _ _ _ Ht Hrp Hcur E1)
    as [Ht2 Hrp2].
  destruct (i =? 0); [injection E2 as <-; auto|].
  destruct (i =? stallIndex st2); [injection E2 as <-; auto|].
  apply withNode_Done in E2 as (nd & Hnd & E2).
  apply checkNodeWith_Done in E2 as [->|(b & E2)]; [auto|].
  eapply IH; eauto.
Qed.

Lemma markAll_resolvedByParent t marks :
  forall st st',
    tree st = t -> resolvedByParent t st ->
    markAll marks st = Done st' ->
    tree st' = t /\ resolvedByParent t st'.
Proof.
  induction marks as [|[i v] marks IH]; intros st st' Ht Hrp E; simpl in E.
  - injection E as <-. auto.
  - apply bind_Done in E as (st1 & E1 & E2).
    destruct (MarkNode_fuel_resolvedByParent t _ st i v st1 Ht Hrp E1)
      as [Ht1 Hrp1].
    eapply IH; eauto.
Qed.

Lemma NewState_resolvedByParent t : resolvedByParent t (NewState t).
Proof. intros c H. simpl in H. apply zget_repeat in H. discriminate. Qed.

(** Above a [Resolved] node there is a node that holds [True] or
    [False]. *)
Lemma resolved_below_a_value t st :
  linksOk t = true -> resolvedByParent t st ->
  forall fuel c, c < Z.of_nat fuel ->
    zget (data st) c = Some binTreeStateResolved ->
    exists a b, below t a c /\ zget (data st) a = Some (markValue b).
Proof.
  intros Hl Hrp. induction fuel as [|fuel IH]; intros c Hf Hc.
  { apply zget_range in Hc. lia. }
  destruct (Hrp c Hc) as (p & Hpc & x & Hx & Hnx).
  destruct (linksOk_child _ _ _ Hl Hpc) as [Hlt _].
  destruct x.
  - contradiction.
  - destruct (IH p ltac:(lia) Hx) as (a & b & Hb & Ha).
    exists a, b. split; [|exact Ha]. eapply below_step; eauto.
  - exists p, true. split; [now apply below_child|exact Hx].
  - exists p, false. split; [now apply below_child|exact Hx].
Qed.

(* ------------------------------------------------------------------ *)
(** * [CopyFrom] *)

Lemma CopyFrom_loop_copies items :
  forall i st st',
    0 <= i <= zlen (data st) -> CopyFrom_loop i items st = Done st' ->
    tree st' = tree st /\ stallIndex st' = stallIndex st /\
    length (data st') = length (data st) /\
    i + zlen items <= zlen (data st) /\
    forall k,
      (i <= k < i + zlen items ->
       zget (data st') k = nth_error items (Z.to_nat (k - i))) /\
      (~ (i <= k < i + zlen items) -> zget (data st') k = zget (data st) k).
Proof.
  induction items as [|item rest IH]; intros i st st' Hi E; simpl in E.
  - injection E as <-. unfold zlen in *. simpl. repeat split; auto; lia.
  - destruct (i >=? zlen (data st)) eqn:Hge; [discriminate|].
    rewrite Z.geb_leb in Hge. apply Z.leb_gt in Hge.
    assert (0 <= i + 1 <= zlen (data (setData st i item))) as Hi'.
    { simpl. rewrite zlen_zset. lia. }
    destruct (IH (i + 1) _ st' Hi' E) as (T & St & L & B & C).
    simpl in T, St, L, B. rewrite length_zset in L. rewrite zlen_zset in B.
    assert (zlen (item :: rest) = 1 + zlen rest) as Hlen.
    { unfold zlen. simpl length. lia. }
    assert (0 <= zlen rest) as Hrest by (unfold zlen; lia).
    repeat split; auto; [lia| |].
    + intros Hk. destruct (Z.eq_dec k i) as [->|Hne].
      * destruct (C i) as [_ C2]. rewrite C2 by lia.
        replace (i - i) with 0 by lia. simpl.
        destruct (zget_in_range (data st) i ltac:(lia)) as [x Hx].
        eapply zget_zset_eq; eauto.
      * destruct (C k) as [C1 _]. rewrite C1 by lia.
        replace (Z.to_nat (k - i)) with (S (Z.to_nat (k - (i + 1)))) by lia.
        reflexivity.
    + intros Hk. destruct (C k) as [_ C2]. rewrite C2 by lia.
      simpl. apply zget_zset_ne. lia.
Qed.

Lemma zget_nth_error {A} (l : list A) k :
  0 <= k -> zget l k = nth_error l (Z.to_nat k).
Proof. intros Hk. unfold zget. now rewrite (proj2 (Z.ltb_ge k 0) Hk). Qed.

(** What [CopyFrom] leaves when it returns: the entries of [ostate], and
    past them the entries the state had. *)
Lemma CopyFrom_Done st ostate sameTree st' :
  CopyFrom st ostate sameTree = Done st' ->
  sameTree = true /\
  tree st' = tree st /\ stallIndex st' = stallIndex st /\
  length (data st') = length (data st) /\
  zlen (data ostate) <= zlen (data st) /\
  forall k, zget (data st') k =
            match zget (data ostate) k with
            | Some y => Some y
            | None => zget (data st) k
            end.
Proof.
  unfold CopyFrom. destruct sameTree; cbn [negb]; [|discriminate].
  intros E. apply CopyFrom_loop_copies in E as (T & St & L & B & C);
    [|unfold zlen; lia].
  split; [reflexivity|]. split; [exact T|]. split; [exact St|].
  split; [exact L|]. split; [lia|]. intros k.
  destruct (Z_lt_le_dec k 0) as [Hneg|Hpos].
  { destruct (C k) as [_ C2]. rewrite C2 by lia.
    unfold zget at 2. now rewrite (proj2 (Z.ltb_lt k 0) Hneg). }
  destruct (Z_lt_le_dec k (zlen (data ostate))) as [Hin|Hout].
  - destruct (C k) as [C1 _]. rewrite C1 by lia.
    replace (k - 0) with k by lia. rewrite <- zget_nth_error by lia.
    destruct (zget_in_range (data ostate) k ltac:(lia)) as [y Hy].
    now rewrite Hy.
  - destruct (C k) as [_ C2]. rewrite C2 by lia.
    destruct (zget (data ostate) k) as [y|] eqn:Hy; [|reflexivity].
    apply zget_range in Hy. lia.
Qed.

Lemma CopyFrom_different_tree st ostate :
  CopyFrom st ostate false =
  Panic (PanicMsg "cannot copy from different tree") st.
Proof. reflexivity. Qed.

(** What the loop of [CopyFrom] leaves, whether it runs to the end or panics
    past the end of [state.data]: the entries it went over are those of
    [items], the others are as before. *)
Lemma CopyFrom_loop_final items :
  forall i st st',
    0 <= i -> finalState (CopyFrom_loop i items st) = Some st' ->
    forall k x, zget (data st) k = Some x ->
      zget (data st') k =
      if (i <=? k) && (k <? i + zlen items)
      then nth_error items (Z.to_nat (k - i)) else Some x.
Proof.
  induction items as [|item rest IH]; intros i st st' Hi E k x Hk;
    simpl in E.
  - injection E as <-. rewrite Hk.
    replace (k <? i + zlen []) with (k <? i) by (unfold zlen; simpl; f_equal; lia).
    destruct (Z.leb_spec i k), (Z.ltb_spec k i); simpl; auto; lia.
  - assert (zlen (item :: rest) = 1 + zlen rest) as Hlen
      by (unfold zlen; simpl length; lia).
    assert (0 <= zlen rest) as Hrest by (unfold zlen; lia).
    pose proof (zget_range _ _ _ Hk) as Hkr.
    destruct (i >=? zlen (data st)) eqn:Hge.
    + simpl in E. injection E as <-. rewrite Hk.
      rewrite Z.geb_leb in Hge. apply Z.leb_le in Hge.
      destruct (Z.leb_spec i k); [lia|reflexivity].
    + rewrite Z.geb_leb in Hge. apply Z.leb_gt in Hge.
      destruct (Z.eq_dec k i) as [->|Hne].
      * assert (zget (data (setData st i item)) i = Some item) as Hi'
          by (simpl; eapply zget_zset_eq; eauto).
        rewrite (IH (i + 1) _ st' ltac:(lia) E i item Hi').
        destruct (Z.leb_spec (i + 1) i); [lia|]. cbn [andb].
        destruct (Z.leb_spec i i); [|lia].
        destruct (Z.ltb_spec i (i + zlen (item :: rest))); [|lia].
        cbn [andb]. replace (i - i) with 0 by lia. reflexivity.
      * assert (zget (data (setData st i item)) k = Some x) as Hk'
          by (simpl; rewrite zget_zset_ne by lia; exact Hk).
        rewrite (IH (i + 1) _ st' ltac:(lia) E k x Hk'). rewrite Hlen.
        destruct (Z.leb_spec (i + 1) k), (Z.leb_spec i k); try lia;
          cbn [andb]; [|reflexivity].
        replace (i + (1 + zlen rest)) with (i + 1 + zlen rest) by lia.
        destruct (Z.ltb_spec k (i + 1 + zlen rest)); [|reflexivity].
        replace (Z.to_nat (k - i)) with (S (Z.to_nat (k - (i + 1)))) by lia.
        reflexivity.
Qed.

(* ================================================================== *)
(** * The properties of the specification *)

(** C1 (as amended).  On a tree that [Validate] accepts and whose links are
    consistent, [MarkNode(i, v)] on an [Unknown] node [i] that returns leaves
    [state[i]] at [True] for [v = true] and at [False] for [v = false]; every
    descendant of [i] that is reached from [i] over [Unknown] entries only
    becomes [Resolved]; every other descendant of [i] keeps its entry. *)
Theorem MarkNode_marks_and_resolves_below st i v st' :
  Validate (tree st) = Ret None -> linksOk (tree st) = true ->
  zget (data st) i = Some binTreeStateUnknown ->
  MarkNode st i v = Done st' ->
  zget (data st') i = Some (markValue v) /\
  forall d, below (tree st) i d ->
    (reachUnknown (tree st) (data st) i d ->
     zget (data st') d = Some binTreeStateResolved) /\
    (~ reachUnknown (tree st) (data st) i d ->
     zget (data st') d = zget (data st) d).
Proof.
  intros Hval Hlinks Hi E.
  split; [exact (post_Done _ _ _ (MarkNode_fuel_sets _ st i v Hi) E)|].
  intros d Hd. unfold MarkNode in E. rewrite MarkNode_fuel_S in E.
  unfold withData in E. rewrite Hi in E. cbn [isUnknown negb] in E.
  fold (markValue v) in E. set (st1 := setData st i (markValue v)) in *.
  apply bind_Done in E as (st2 & E1 & E2).
  assert (extends st st1) as Hx1.
  { apply extends_setData; auto. now destruct v. }
  pose proof (post_Done _ _ _ (resolveRecursive_extends _ st1 i) E1) as Hx2.
  pose proof (linksOk_below_lt _ _ _ Hlinks Hd) as Hid.
  assert (forall e, reachUnknown (tree st) (data st1) i e <->
                    reachUnknown (tree st) (data st) i e) as Hsame.
  { intros e. split.
    - apply reachUnknown_mono. intros x. apply (extends_unknown_back st st1 x Hx1).
    - induction 1 as [c Hc Hu|p c Hr IH Hc Hu].
      + apply ru_child; auto. simpl. rewrite zget_zset_ne; auto.
        destruct (linksOk_child _ _ _ Hlinks Hc). lia.
      + eapply ru_step; eauto. simpl. rewrite zget_zset_ne; auto.
        pose proof (linksOk_below_lt _ _ _ Hlinks
                      (below_step _ _ _ _ (reachUnknown_below _ _ _ _ Hr) Hc)).
        lia. }
  assert (zget (data st1) d = zget (data st) d) as H1.
  { simpl. apply zget_zset_ne. lia. }
  assert ((reachUnknown (tree st) (data st) i d ->
           zget (data st2) d = Some binTreeStateResolved) /\
          (~ reachUnknown (tree st) (data st) i d ->
           zget (data st2) d = zget (data st) d)) as [Hr2 Hn2].
  { split; intros Hr.
    - apply (resolveRecursive_reach _ _ _ _ E1). now apply Hsame.
    - rewrite <- H1. apply (resolveRecursive_unreached _ _ _ _ E1).
      intros Hr'. apply Hr. now apply Hsame. }
  assert (zget (data st') d = zget (data st2) d) as Hkeep.
  { destruct (Z.eqb_spec i 0) as [|Hi0]; [congruence|].
    destruct (i =? stallIndex st2); [congruence|].
    apply withNode_Done in E2 as (n & Hn & E2).
    apply checkNodeWith_Done in E2 as [->|[b E2]]; [reflexivity|].
    assert (tree st2 = tree st) as Ht2.
    { rewrite (extends_tree _ _ Hx2). reflexivity. }
    eapply (MarkNode_fuel_keeps_below (tree st) Hlinks
              (Validate_parents _ Hval) _ st2 (ParentIdx n) b st' Ht2 E2 i);
      auto.
    - rewrite Ht2 in Hn. pose proof (zget_range _ _ _ Hi).
      assert (0 < i) as Hpos by lia.
      pose proof (Validate_parents _ Hval _ _ Hpos Hn). lia.
    - eapply extends_decided; [exact Hx2|]. exists (markValue v).
      split; [|destruct v; discriminate]. simpl. eapply zget_zset_eq; eauto. }
  rewrite Hkeep. split; auto.
Qed.

(** C1, an instance: in [NOT (NOT leaf)] with every entry [Unknown], marking
    node 1 true resolves the leaf below it. *)
Lemma MarkNode_marks_and_resolves_below_witness :
  let st := NewState notNotLeaf in
  let st' := mkState notNotLeaf
               [binTreeStateFalse; binTreeStateTrue; binTreeStateResolved] 0 in
  zget (data st') 1 = Some (markValue true) /\
  forall d, below (tree st) 1 d ->
    (reachUnknown (tree st) (data st) 1 d ->
     zget (data st') d = Some binTreeStateResolved) /\
    (~ reachUnknown (tree st) (data st) 1 d ->
     zget (data st') d = zget (data st) d).
Proof.
  intros st st'.
  apply (MarkNode_marks_and_resolves_below st 1 true st'); reflexivity.
Defined.

(** C1 as stated fails: in [NOT (NOT leaf)] let the inner [Not] be [True]
    and the leaf under it [Unknown], the state that [SetStallIndex(1)],
    [MarkNode(2, false)] and [ResetNode(2)] leave behind.  Marking the root
    stops at the decided inner node, and the leaf stays [Unknown]. *)
Lemma MarkNode_resolves_all_unknown_below_fails :
  ~ MarkNode_resolves_all_unknown_below.
Proof.
  intros H.
  pose (st := mkState notNotLeaf
                [binTreeStateUnknown; binTreeStateTrue; binTreeStateUnknown] 1).
  pose (st' := mkState notNotLeaf
                [binTreeStateTrue; binTreeStateTrue; binTreeStateUnknown] 1).
  destruct (H st 0 true st') as [_ H2]; try reflexivity.
  destruct (H2 2) as [H3 _].
  - eapply below_step; [apply below_child|].
    + exists (NewBinTreeNode nodeTypeNot 0 1 0). split; [reflexivity|].
      left. split; reflexivity.
    + exists (NewBinTreeNode nodeTypeNot 0 2 0). split; [reflexivity|].
      left. split; reflexivity.
  - specialize (H3 eq_refl). discriminate.
Qed.

(** The state of the counterexample is one the operations produce. *)
Lemma counterexample_state_is_produced :
  let st0 := snd (SetStallIndex (NewState notNotLeaf) 1) in
  bind (MarkNode st0 2 false) (fun st1 => ResetNode st1 2) =
  Done (mkState notNotLeaf
          [binTreeStateUnknown; binTreeStateTrue; binTreeStateUnknown] 1).
Proof. reflexivity. Qed.

Lemma post_final Q o st' : post Q o -> finalState o = Some st' -> Q st'.
Proof. destruct o; simpl; intros H E; congruence. Qed.

Lemma zget_map {A B} (f : A -> B) (l : list A) i x :
  zget l i = Some x -> zget (map f l) i = Some (f x).
Proof.
  unfold zget. destruct (i <? 0); [discriminate|]. apply map_nth_error.
Qed.

Lemma resetNodeRecursive_keeps_unknown fuel :
  forall st i,
    post (fun st' => length (data st') = length (data st) /\
            forall k, zget (data st) k = Some binTreeStateUnknown ->
                      zget (data st') k = Some binTreeStateUnknown)
         (resetNodeRecursive fuel st i).
Proof.
  induction fuel as [|fuel IH]; intros st i; [exact I|]. simpl.
  destruct ((i <? 0) || (i >=? zlen (data st))) eqn:Hrange; simpl; [auto|].
  set (st1 := setData st i binTreeStateUnknown).
  assert (length (data st1) = length (data st) /\
          forall k, zget (data st) k = Some binTreeStateUnknown ->
                    zget (data st1) k = Some binTreeStateUnknown) as [L1 H1].
  { split; [apply length_zset|]. intros k Hk. simpl.
    destruct (Z.eq_dec i k) as [->|Hne];
      [eapply zget_zset_eq; eauto|now rewrite zget_zset_ne]. }
  apply post_withNode; [auto|]. intros n _. apply post_bind.
  assert (post (fun st' => length (data st') = length (data st) /\
            forall k, zget (data st) k = Some binTreeStateUnknown ->
                      zget (data st') k = Some binTreeStateUnknown)
            (if binTreeNodeTypeHasLeft (NodeType n)
             then resetNodeRecursive fuel st1 (Left n) else Done st1)) as HL.
  { destruct (binTreeNodeTypeHasLeft (NodeType n)); [|simpl; auto].
    generalize (IH st1 (Left n)). apply post_impl. intros s [L2 H2].
    split; [congruence|auto]. }
  revert HL. apply post_impl. intros st2 [L2 H2]. split; [auto|].
  destruct (binTreeNodeTypeHasRight (NodeType n)); [|simpl; auto].
  generalize (IH st2 (Right n)). apply post_impl. intros s [L3 H3].
  split; [congruence|auto].
Qed.

Lemma ResetNode_resets st i st' :
  ResetNode st i = Done st' -> zget (data st') i = Some binTreeStateUnknown.
Proof.
  unfold ResetNode. simpl. intros E.
  destruct ((i <? 0) || (i >=? zlen (data st))) eqn:Hrange; [discriminate|].
  apply orb_false_elim in Hrange as [R1 R2].
  apply Z.ltb_ge in R1. rewrite Z.geb_leb in R2. apply Z.leb_gt in R2.
  destruct (zget_in_range (data st) i (conj R1 R2)) as [x Hx].
  set (st1 := setData st i binTreeStateUnknown) in *.
  apply withNode_Done in E as (n & _ & E).
  apply bind_Done in E as (st2 & E1 & E2).
  assert (zget (data st1) i = Some binTreeStateUnknown) as H1.
  { simpl. eapply zget_zset_eq; eauto. }
  assert (zget (data st2) i = Some binTreeStateUnknown) as H2.
  { destruct (binTreeNodeTypeHasLeft (NodeType n)).
    - apply (post_Done _ _ _ (resetNodeRecursive_keeps_unknown _ st1 (Left n)) E1).
      exact H1.
    - injection E1 as <-. exact H1. }
  destruct (binTreeNodeTypeHasRight (NodeType n)).
  - apply (post_Done _ _ _ (resetNodeRecursive_keeps_unknown _ st2 (Right n)) E2).
    exact H2.
  - injection E2 as <-. exact H2.
Qed.

Lemma resetNodeRecursive_tree fuel :
  forall st i, post (fun st' => tree st' = tree st)
                    (resetNodeRecursive fuel st i).
Proof.
  induction fuel as [|fuel IH]; intros st i; [exact I|]. simpl.
  destruct ((i <? 0) || (i >=? zlen (data st))); simpl; [reflexivity|].
  set (st1 := setData st i binTreeStateUnknown).
  apply post_withNode; [reflexivity|]. intros n _. apply post_bind.
  assert (post (fun st' => tree st' = tree st)
            (if binTreeNodeTypeHasLeft (NodeType n)
             then resetNodeRecursive fuel st1 (Left n) else Done st1)) as HL.
  { destruct (binTreeNodeTypeHasLeft (NodeType n)); [|reflexivity].
    apply (IH st1 (Left n)). }
  revert HL. apply post_impl. intros st2 H2. split; [exact H2|].
  destruct (binTreeNodeTypeHasRight (NodeType n)); [|exact H2].
  generalize (IH st2 (Right n)). apply post_impl. intros s H3. congruence.
Qed.

(** On consistent links [resetNodeRecursive] goes to larger indices only,
    and the fuel of [ResetNode] is enough. *)
Lemma resetNodeRecursive_returns t :
  linksOk t = true ->
  forall fuel st i,
    tree st = t -> (0 < fuel)%nat ->
    (0 <= i -> zlen t - i < Z.of_nat fuel) ->
    resetNodeRecursive fuel st i <> OutOfFuel.
Proof.
  intros Hl. induction fuel as [|fuel IH]; intros st i Ht Hpos Hf; [lia|].
  simpl.
  destruct ((i <? 0) || (i >=? zlen (data st))) eqn:Hrange; [discriminate|].
  apply orb_false_elim in Hrange as [R1 _]. apply Z.ltb_ge in R1.
  specialize (Hf R1).
  set (st1 := setData st i binTreeStateUnknown).
  apply withNode_returns. intros n Hn. simpl in Hn. rewrite Ht in Hn.
  pose proof (zget_range _ _ _ Hn) as Hin.
  assert (forall c st', tree st' = t -> child t i c ->
                        resetNodeRecursive fuel st' c <> OutOfFuel) as Hkid.
  { intros c st' Ht' Hc. destruct (linksOk_child _ _ _ Hl Hc) as [Hlt _].
    apply IH; auto; lia. }
  apply bind_returns.
  - destruct (binTreeNodeTypeHasLeft (NodeType n)) eqn:HL; [|discriminate].
    apply Hkid; [exact Ht|now apply child_left].
  - intros st2 E2.
    destruct (binTreeNodeTypeHasRight (NodeType n)) eqn:HR; [|discriminate].
    apply Hkid; [|now apply child_right].
    destruct (binTreeNodeTypeHasLeft (NodeType n)).
    + rewrite (post_Done _ _ _ (resetNodeRecursive_tree fuel st1 (Left n)) E2).
      exact Ht.
    + injection E2 as <-. exact Ht.
Qed.

Lemma ResetNode_returns st i :
  linksOk (tree st) = true -> ResetNode st i <> OutOfFuel.
Proof.
  intros Hl. unfold ResetNode.
  apply (resetNodeRecursive_returns (tree st) Hl); auto; [lia|].
  intros Hi. unfold zlen. lia.
Qed.

(** C3 (as amended).  A decided entry ([True], [False] or [Resolved]) is
    the same after any [MarkNode], [checkNode], [Resolve],
    [resolveRecursive] or [SetStallIndex], whether the call returns or
    panics.  [Reset] makes it [Unknown].  [ResetNode(i)] leaves it as it is
    or makes it [Unknown]: it leaves it when [i] is neither the node nor one
    of its ancestors, and makes it [Unknown] when [i] is one of them and the
    call returns.  The one other method that changes it is [CopyFrom]: on
    the same tree it puts the entry of the other state in its place,
    whatever that is, when the other state has an entry at that index, also
    when it then panics past the end of [state.data]; on a different tree
    it panics before it writes. *)
Theorem decided_entries_change_by_reset_or_copy st j x m st' :
  zget (data st) j = Some x -> x <> binTreeStateUnknown ->
  finalState (call m st) = Some st' ->
  match m with
  | CallReset => zget (data st') j = Some binTreeStateUnknown
  | CallResetNode i =>
    (zget (data st') j = Some x \/
     zget (data st') j = Some binTreeStateUnknown) /\
    (~ atOrBelow (tree st) i j -> zget (data st') j = Some x) /\
    (atOrBelow (tree st) i j -> call m st = Done st' ->
     zget (data st') j = Some binTreeStateUnknown)
  | CallCopyFrom ostate sameTree =>
    (sameTree = false -> zget (data st') j = Some x) /\
    (sameTree = true ->
     zget (data st') j =
     match zget (data ostate) j with Some y => Some y | None => Some x end)
  | CallSetStallIndex _ | CallResolve | CallResolveRecursive _
  | CallCheckNode _ | CallMarkNode _ _ =>
    zget (data st') j = Some x
  end.
Proof.
  intros Hj Hx E.
  assert (forall o, post (extends st) o -> finalState o = Some st' ->
                    zget (data st') j = Some x) as Hext.
  { intros o Ho Eo. pose proof (post_final _ _ _ Ho Eo) as H.
    eapply extends_get; eauto. }
  destruct m as [ostate sameTree|idx| | |idx|idx|idx|idx v]; unfold call in E.
  - split.
    + intros ->. simpl in E. injection E as <-. exact Hj.
    + intros ->. unfold CopyFrom in E. cbn [negb] in E.
      rewrite (CopyFrom_loop_final _ 0 st st' ltac:(lia) E j x Hj).
      pose proof (zget_range _ _ _ Hj) as Hr.
      destruct (Z.leb_spec 0 j); [|lia]. cbn [andb]. rewrite Z.add_0_l, Z.sub_0_r.
      rewrite <- zget_nth_error by lia.
      destruct (Z.ltb_spec j (zlen (data ostate))) as [Hin|Hout].
      * destruct (zget_in_range (data ostate) j ltac:(lia)) as [y Hy].
        now rewrite Hy.
      * destruct (zget (data ostate) j) as [y|] eqn:Hy; [|reflexivity].
        apply zget_range in Hy. lia.
  - simpl in E. injection E as <-. exact Hj.
  - eapply Hext; [apply Resolve_extends|exact E].
  - simpl in E. injection E as <-. simpl. apply (zget_map _ _ _ _ Hj).
  - pose proof (post_final _ _ _
                  (resetNodeRecursive_frame _ st idx) E) as (_ & _ & _ & U & F).
    split; [|split].
    + destruct (U j) as [H|H]; [left; congruence|now right].
    + intros Hn. rewrite (F j Hn). exact Hj.
    + intros Hc D. unfold call, ResetNode in D.
      eapply resetNodeRecursive_subtree; eauto.
  - eapply Hext; [apply resolveRecursive_extends|exact E].
  - eapply Hext; [apply checkNode_extends|exact E].
  - eapply Hext; [apply MarkNode_extends|exact E].
Qed.

(** C3, an instance: in [NOT (NOT leaf)] with the inner node [True] and the
    leaf [Resolved], [ResetNode(1)] makes the leaf, which is below node 1,
    [Unknown]. *)
Lemma decided_entries_change_by_reset_or_copy_witness :
  let st := mkState notNotLeaf
              [binTreeStateUnknown; binTreeStateTrue; binTreeStateResolved] 0 in
  let st' := mkState notNotLeaf
              [binTreeStateUnknown; binTreeStateUnknown; binTreeStateUnknown]
              0 in
  (zget (data st') 2 = Some binTreeStateResolved \/
   zget (data st') 2 = Some binTreeStateUnknown) /\
  (~ atOrBelow (tree st) 1 2 -> zget (data st') 2 = Some binTreeStateResolved)
  /\ (atOrBelow (tree st) 1 2 -> call (CallResetNode 1) st = Done st' ->
      zget (data st') 2 = Some binTreeStateUnknown).
Proof.
  intros st st'.
  apply (decided_entries_change_by_reset_or_copy st 2 binTreeStateResolved
           (CallResetNode 1) st'); [reflexivity|discriminate|reflexivity].
Defined.

(** C3 as stated fails: [CopyFrom] is neither [Reset] nor [ResetNode], and
    copying the fresh state of the same tree over a state makes a [True]
    entry [Unknown]. *)
Lemma only_Reset_and_ResetNode_change_decided_fails :
  ~ only_Reset_and_ResetNode_change_decided.
Proof.
  intros H.
  pose (st := mkState notNotLeaf
                [binTreeStateUnknown; binTreeStateTrue; binTreeStateResolved]
                0).
  destruct (H st 1 binTreeStateTrue
              (CallCopyFrom (NewState notNotLeaf) true)
              (NewState notNotLeaf)) as [Hm|(i & Hm & _)];
    try reflexivity; try discriminate.
Qed.

(** C3, the panic of [CopyFrom] past the end: the other state has one entry
    more, the three entries are overwritten and the fourth write panics. *)
Lemma CopyFrom_overwrites_before_it_panics :
  CopyFrom
    (mkState notNotLeaf
       [binTreeStateUnknown; binTreeStateTrue; binTreeStateResolved] 0)
    (mkState notNotLeaf
       [binTreeStateUnknown; binTreeStateUnknown; binTreeStateUnknown;
        binTreeStateUnknown] 0) true =
  Panic IndexOutOfRange
    (mkState notNotLeaf
       [binTreeStateUnknown; binTreeStateUnknown; binTreeStateUnknown] 0).
Proof. reflexivity. Qed.

(** C5.  [Resolve] always comes back (it returns or panics); on a state
    with at least one entry it is the walk of the specification: from the
    last index down to 0, [MarkNode(i, false)] on every node still
    [Unknown], stopping as soon as the root is decided; and whenever it
    returns, the root is decided. *)
Theorem Resolve_walks_down_until_root_decided st :
  Resolve st <> OutOfFuel /\
  (data st <> [] -> Resolve st = Resolve_spec st) /\
  (forall st', Resolve st = Done st' -> decided st' 0).
Proof.
  split; [apply Resolve_returns|]. split; [apply Resolve_refines|].
  apply Resolve_root.
Qed.

(** C5, an instance: resolving the fresh state of [NOT (NOT leaf)]. *)
Lemma Resolve_walks_down_until_root_decided_witness :
  let st := NewState notNotLeaf in
  let st' := mkState notNotLeaf
               [binTreeStateFalse; binTreeStateTrue; binTreeStateFalse] 0 in
  Resolve st <> OutOfFuel /\ Resolve st = Resolve_spec st /\ decided st' 0.
Proof.
  intros st st'.
  destruct (Resolve_walks_down_until_root_decided st) as (A & B & C).
  split; [exact A|]. split; [apply B; discriminate|apply C; reflexivity].
Defined.

(** C6.  Calling [Resolve] a second time changes nothing: the state array
    and the stall index are those the first call left (and a panic of the
    first call is the outcome of the pair). *)
Theorem Resolve_idempotent st : bind (Resolve st) Resolve = Resolve st.
Proof.
  destruct (Resolve st) as [st'| |] eqn:E; simpl; auto.
  apply Resolve_decided_root. now apply (Resolve_root st).
Qed.

(** C7.  [MarkNode(i, v)] on a node whose entry is [True], [False] or
    [Resolved] panics with "cannot resolve same state node twice", and the
    state at the panic is the state before the call. *)
Theorem MarkNode_on_decided_panics st i v x :
  zget (data st) i = Some x -> x <> binTreeStateUnknown ->
  MarkNode st i v =
  Panic (PanicMsg "cannot resolve same state node twice") st.
Proof.
  intros Hi Hx. unfold MarkNode. rewrite MarkNode_fuel_S.
  unfold withData. rewrite Hi. destruct x; simpl; congruence.
Qed.

(** C7, an instance: marking an entry that is [Resolved]. *)
Lemma MarkNode_on_decided_panics_witness :
  let st := mkState notNotLeaf
              [binTreeStateFalse; binTreeStateTrue; binTreeStateResolved] 0 in
  MarkNode st 2 true =
  Panic (PanicMsg "cannot resolve same state node twice") st.
Proof.
  intros st.
  apply (MarkNode_on_decided_panics st 2 true binTreeStateResolved);
    [reflexivity|discriminate].
Defined.



(** Index 0 is no stall: with the stall index at 0 a mark on a leaf goes
    all the way up and decides the root. *)
Lemma stall_index_zero_is_no_stall :
  finalState (MarkNode (NewState notNotLeaf) 2 true) =
  Some (mkState notNotLeaf
          [binTreeStateTrue; binTreeStateFalse; binTreeStateTrue] 0).
Proof. reflexivity. Qed.

(** [Validate] accepts a leaf whatever its left and right links are:
    [validateItem] returns at [case nodeTypeLeaf] before the test "expected
    left to be undefined", which only a leaf could fail. *)
Lemma Validate_ignores_links_of_leaf l r :
  Validate [ NewBinTreeNode nodeTypeLeaf 0 l r ] = Ret None.
Proof. reflexivity. Qed.

(** C8, the failing input.  [Validate] returns [nil] on the single leaf
    with a left link, which is the layout of no tree of section 3.1. *)
Theorem Validate_accepts_leaf_with_left_link :
  Validate leafWithLeft = Ret None /\
  forall sh, preorderTree sh <> leafWithLeft.
Proof.
  split; [reflexivity|]. intros sh E. destruct sh; discriminate E.
Qed.

(** The other half of C8 holds: [Validate] accepts every tree of section
    3.1, and such a tree has consistent links. *)
Lemma preorderTree_is_valid sh :
  Validate (preorderTree sh) = Ret None /\ linksOk (preorderTree sh) = true.
Proof. split; [apply Validate_preorderTree|apply linksOk_preorderTree]. Qed.

(** [Validate] checks the bounds of the links of an inner node, not where
    they point: it accepts a node whose left link is the node itself. *)
Lemma Validate_accepts_self_loop :
  Validate notSelfLoop = Ret None /\ linksOk notSelfLoop = false.
Proof. split; reflexivity. Qed.

(** C2 (as amended).  On a tree with consistent links, after any sequence
    of [MarkNode] calls on leaves that all return, starting from the fresh
    state: a [Neor] node is [Unknown] as long as one of its children is
    [Unknown]; once both children are decided the node is decided, and it
    is [True] if a child is [True] and [False] otherwise, unless the
    decision of an ancestor has set the [Neor] node itself to [Resolved]:
    then a node above it holds [True] or [False]. *)
Theorem Neor_waits_for_both_children t marks st n node l r :
  linksOk t = true ->
  Forall (fun m => isLeafAt t (fst m) = true) marks ->
  markAll marks (NewState t) = Done st ->
  zget t n = Some node -> NodeType node = nodeTypeNeor ->
  zget (data st) (Left node) = Some l ->
  zget (data st) (Right node) = Some r ->
  (isUnknown l || isUnknown r = true ->
   zget (data st) n = Some binTreeStateUnknown) /\
  (isUnknown l || isUnknown r = false ->
   zget (data st) n = Some (markValue (isTrue l || isTrue r)) \/
   (zget (data st) n = Some binTreeStateResolved /\
    exists a b, below t a n /\ zget (data st) a = Some (markValue b))).
Proof.
  intros Hlinks Hall E Hn Hty Hl Hr.
  assert (neorInv t st) as Hinv.
  { eapply (markAll_neorInv t Hlinks marks (NewState t) st); auto.
    now apply NewState_neorInv. }
  destruct (neorInv_reading t Hlinks st n node l r Hinv Hn Hty Hl Hr)
    as [H1 H2].
  split; [exact H1|]. intros HU.
  destruct (H2 HU) as [HR|HV]; [right|now left].
  split; [exact HR|].
  destruct (markAll_resolvedByParent t marks (NewState t) st eq_refl
              (NewState_resolvedByParent t) E) as [_ Hrp].
  apply (resolved_below_a_value t st Hlinks Hrp (Z.to_nat (n + 1))); auto.
  apply zget_range in HR. lia.
Qed.

(** C2, an instance: in [leaf OR (leaf NEOR leaf)] the leaves of the [Neor]
    node are marked true and false; the node is [True]. *)
Lemma Neor_waits_for_both_children_witness :
  let st := mkState orLeafNeor
              [binTreeStateTrue; binTreeStateResolved; binTreeStateTrue;
               binTreeStateTrue; binTreeStateFalse] 0 in
  (isUnknown binTreeStateTrue || isUnknown binTreeStateFalse = true ->
   zget (data st) 2 = Some binTreeStateUnknown) /\
  (isUnknown binTreeStateTrue || isUnknown binTreeStateFalse = false ->
   zget (data st) 2 =
   Some (markValue (isTrue binTreeStateTrue || isTrue binTreeStateFalse)) \/
   (zget (data st) 2 = Some binTreeStateResolved /\
    exists a b, below orLeafNeor a 2 /\
                zget (data st) a = Some (markValue b))).
Proof.
  intros st.
  apply (Neor_waits_for_both_children orLeafNeor [(3, true); (4, false)] st
           2 (NewBinTreeNode nodeTypeNeor 0 3 4));
    try reflexivity.
  repeat constructor.
Defined.

(** C2, the other case: in the same tree the first leaf is marked true, the
    [Or] root is decided and its walk sets the [Neor] node to [Resolved];
    the root above it holds [True]. *)
Lemma Neor_resolved_under_decided_root :
  let st := mkState orLeafNeor
              [binTreeStateTrue; binTreeStateTrue; binTreeStateResolved;
               binTreeStateResolved; binTreeStateResolved] 0 in
  markAll [(1, true)] (NewState orLeafNeor) = Done st /\
  zget (data st) 2 = Some binTreeStateResolved /\
  below orLeafNeor 0 2 /\ zget (data st) 0 = Some (markValue true).
Proof.
  intros st. split; [reflexivity|]. split; [reflexivity|].
  split; [|reflexivity]. apply below_child.
  exists (NewBinTreeNode nodeTypeOr 0 1 2). split; [reflexivity|].
  right. split; reflexivity.
Qed.

(** C2 as stated fails: in [leaf OR (leaf NEOR leaf)] marking the first
    leaf true decides the [Or] root, whose walk sets the [Neor] node and its
    two leaves to [Resolved]: both children are decided, none is [True], and
    the node is [Resolved], not [False]. *)
Lemma Neor_is_True_or_False_once_children_decided_fails :
  ~ Neor_is_True_or_False_once_children_decided.
Proof.
  intros H.
  pose (st := mkState orLeafNeor
                [binTreeStateTrue; binTreeStateTrue; binTreeStateResolved;
                 binTreeStateResolved; binTreeStateResolved] 0).
  destruct (H orLeafNeor [(1, true)] st 2 (NewBinTreeNode nodeTypeNeor 0 3 4)
              binTreeStateResolved binTreeStateResolved) as [_ H2];
    try reflexivity.
  - repeat constructor.
  - specialize (H2 eq_refl). discriminate.
Qed.

(* ------------------------------------------------------------------ *)
(** * The conversion of the syntax tree *)

Lemma FilterExpression_nested_ind (P : FilterExpression -> Prop) :
  (forall acs subs, Forall P subs -> P (mkFilterExpression acs subs)) ->
  forall f, P f.
Proof.
  intros H. fix IH 1. intros [acs subs]. apply H.
  induction subs as [|s subs IHs]; constructor; [apply IH|exact IHs].
Qed.

Section NoParenErr.
Variable ext : Externals.
Hypothesis Hpcre : forall s, noParenErrPair (MakePcreExpression ext s).

Lemma npe_Ret p : noParenErrPair p -> noParenErr (Ret p).
Proof.
  intros H e E. injection E as E. apply H. rewrite E. reflexivity.
Qed.

Lemma npe_Crash p : noParenErr (Crash p).
Proof. intros e E. discriminate. Qed.

Lemma npe_bind {A} (r : result A) k :
  (forall a, r = Ret a -> noParenErr (k a)) -> noParenErr (rbind r k).
Proof.
  intros H. destruct r; simpl; [now apply H| |]; intros e E; discriminate.
Qed.

Lemma npe_inv r p : noParenErr r -> r = Ret p -> noParenErrPair p.
Proof.
  intros H -> . destruct p as [e [err|]]; unfold noParenErrPair; simpl;
    [|discriminate].
  intros E. injection E as ->. now apply (H e).
Qed.

Lemma npe_pair_err e err : err <> ErrorMalformedParenthesis ->
  noParenErrPair (e, Some err).
Proof. unfold noParenErrPair. simpl. congruence. Qed.

Lemma npe_pair_ok e : noParenErrPair (e, None).
Proof. unfold noParenErrPair. simpl. discriminate. Qed.

Ltac npe_pair :=
  repeat match goal with
         | |- noParenErrPair (if ?c then _ else _) => destruct c
         | |- noParenErrPair (match ?x with _ => _ end) => destruct x
         | |- noParenErrPair (_, None) => apply npe_pair_ok
         | |- noParenErrPair (_, Some _) => apply npe_pair_err; discriminate
         end.

Lemma FEBoolean_npe f a : noParenErrPair (FEBoolean_OutputExpression f a).
Proof. unfold FEBoolean_OutputExpression. npe_pair. Qed.

Lemma FEValue_npe f : noParenErrPair (FEValue_OutputExpression ext f).
Proof. unfold FEValue_OutputExpression. npe_pair. Qed.

Lemma FEMathValue_npe f : noParenErrPair (FEMathValue_OutputExpression ext f).
Proof. unfold FEMathValue_OutputExpression. npe_pair. Qed.

Lemma FEMathArithmeticOp_npe f :
  noParenErrPair (FEMathArithmeticOp_OutputExpression ext f).
Proof. unfold FEMathArithmeticOp_OutputExpression. npe_pair. Qed.

Lemma FECheckOp_npe f e : noParenErrPair (FECheckOp_OutputExpression ext f e).
Proof. unfold FECheckOp_OutputExpression. npe_pair. Qed.

Lemma FECompareOp_npe f l r :
  noParenErrPair (FECompareOp_OutputExpression ext f l r).
Proof. unfold FECompareOp_OutputExpression. npe_pair. Qed.

Lemma FEConstFuncNoArg_npe f :
  noParenErrPair (FEConstFuncNoArg_OutputExpression f).
Proof. unfold FEConstFuncNoArg_OutputExpression. npe_pair. Qed.

Lemma FEConstFuncOneArgName_npe f :
  snd (FEConstFuncOneArgName_OutputExpression ext f)
  <> Some ErrorMalformedParenthesis.
Proof.
  unfold FEConstFuncOneArgName_OutputExpression. destruct f.
  repeat match goal with
         | |- snd (if ?c then _ else _) <> _ => destruct c
         end; simpl; discriminate.
Qed.

Lemma FEConstFuncTwoArgsName_npe f :
  snd (FEConstFuncTwoArgsName_OutputExpression ext f)
  <> Some ErrorMalformedParenthesis.
Proof.
  unfold FEConstFuncTwoArgsName_OutputExpression. destruct f.
  repeat match goal with
         | |- snd (if ?c then _ else _) <> _ => destruct c
         end; simpl; discriminate.
Qed.

(** Steps through a conversion: a bind, a test, a returned pair. *)
Ltac npe :=
  repeat match goal with
         | |- noParenErr (rbind _ _) => apply npe_bind; intros ? ?
         | |- noParenErr (deref ?p _) => destruct p; cbn [deref]
         | |- noParenErr (Crash _) => apply npe_Crash
         | |- noParenErr (Ret (_, None)) => apply npe_Ret, npe_pair_ok
         | |- noParenErr (Ret (_, Some ?err)) =>
           first [ apply npe_Ret, npe_pair_err; discriminate
                 | apply npe_Ret, npe_pair_err; assumption ]
         | |- noParenErr (if ?c then _ else _) => destruct c
         | |- noParenErr (match ?x with _ => _ end) => destruct x eqn:?
         end.

Lemma FEField_npe f : noParenErr (FEField_OutputExpression ext f).
Proof.
  unfold FEField_OutputExpression, FEField_OutputExpressionSpecialAsValue.
  destruct f as [MathNeg Path MathOp MathValue].
  apply npe_bind; intros special _. destruct special.
  - npe.
  - apply npe_bind; intros [path [err|]] Hr.
    + (* the loop only passes on the error of OutputOnePath *)
      exfalso. revert Hr. generalize (@nil string).
      induction Path as [|p Path IH]; intros acc Hr; simpl in Hr;
        [discriminate|].
      unfold rbind in Hr.
      destruct (FEOnePath_OutputOnePath ext p) as [[[nm arr] [e|]]| |] eqn:E;
        try discriminate.
      * unfold FEOnePath_OutputOnePath in E. destruct p as [pf sv ai].
        destruct sv; [discriminate|]. destruct pf; [discriminate|].
        simpl in E. discriminate.
      * eapply IH; eauto.
    + destruct (notNil MathNeg || notNil MathOp && notNil MathValue);
        [|npe].
      destruct MathOp as [op|]; [|npe].
      pose proof (FEMathArithmeticOp_npe op) as Hop.
      destruct (FEMathArithmeticOp_OutputExpression ext op) as [e [err|]];
        destruct e; try (apply npe_Ret; exact Hop); try apply npe_Crash.
      destruct MathValue as [mv|]; cbn [deref]; [|apply npe_Crash].
      pose proof (FEMathValue_npe mv) as Hmv.
      destruct (FEMathValue_OutputExpression ext mv) as [e' [err'|]].
      * destruct e'; apply npe_Ret; exact Hmv.
      * destruct e'; npe.
Qed.

Lemma npe_step r k :
  noParenErr r ->
  (forall e err, err <> ErrorMalformedParenthesis ->
                 noParenErr (k (e, Some err))) ->
  (forall e, noParenErr (k (e, None))) ->
  noParenErr (rbind r k).
Proof.
  intros Hr Hs Hn. apply npe_bind. intros [e [err|]] E; [|apply Hn].
  apply Hs. intros ->. now apply (Hr e).
Qed.

Lemma npe_Ret_err e err :
  err <> ErrorMalformedParenthesis -> noParenErr (Ret (e, Some err)).
Proof. intros H. now apply npe_Ret, npe_pair_err. Qed.

Lemma npe_of_pair p : noParenErrPair p -> noParenErr (Ret p).
Proof. apply npe_Ret. Qed.

Lemma pair_err_inv e err : noParenErrPair (e, Some err) ->
  err <> ErrorMalformedParenthesis.
Proof. unfold noParenErrPair. simpl. congruence. Qed.

Lemma FEConstFuncExpression_npe :
  forall f : FEConstFuncExpression,
    noParenErr (FEConstFuncExpression_OutputExpression ext f)
with FEConstFuncOneArg_npe :
  forall f : FEConstFuncOneArg,
    noParenErr (FEConstFuncOneArg_OutputExpression ext f)
with FEConstFuncTwoArgs_npe :
  forall f : FEConstFuncTwoArgs,
    noParenErr (FEConstFuncTwoArgs_OutputExpression ext f)
with FEConstFuncArgument_npe :
  forall f : FEConstFuncArgument,
    noParenErr (FEConstFuncArgument_OutputExpression ext f).
Proof.
  - intros f. destruct f as [na oa ta]. cbn [FEConstFuncExpression_OutputExpression].
    destruct na as [n|]; [apply npe_Ret, FEConstFuncNoArg_npe|].
    destruct oa as [o|]; [apply FEConstFuncOneArg_npe|].
    destruct ta as [t|]; [apply FEConstFuncTwoArgs_npe|].
    apply npe_bind; intros s _. apply npe_Ret_err. discriminate.
  - intros f. destruct f as [nm arg]. cbn [FEConstFuncOneArg_OutputExpression].
    destruct nm as [fname|]; destruct arg as [argument|];
      try (apply npe_bind; intros s _; apply npe_Ret_err; discriminate).
    pose proof (FEConstFuncOneArgName_npe fname) as Hn.
    destruct (FEConstFuncOneArgName_OutputExpression ext fname) as [name [err|]];
      simpl in Hn.
    + apply npe_Ret_err. congruence.
    + apply npe_step; [apply FEConstFuncArgument_npe| |].
      * intros e err Herr. now apply npe_Ret_err.
      * intros e. apply npe_Ret, npe_pair_ok.
  - intros f. destruct f as [nm arg0 arg1].
    cbn [FEConstFuncTwoArgs_OutputExpression].
    destruct nm as [fname|]; destruct arg0 as [argument0|];
      destruct arg1 as [argument1|];
      try (apply npe_bind; intros s _; apply npe_Ret_err; discriminate).
    pose proof (FEConstFuncTwoArgsName_npe fname) as Hn.
    destruct (FEConstFuncTwoArgsName_OutputExpression ext fname) as [name [err|]];
      simpl in Hn.
    + apply npe_Ret_err. congruence.
    + apply npe_step; [apply FEConstFuncArgument_npe| |].
      * intros e err Herr. now apply npe_Ret_err.
      * intros e. apply npe_step; [apply FEConstFuncArgument_npe| |].
        -- intros e' err Herr. now apply npe_Ret_err.
        -- intros e'. apply npe_Ret, npe_pair_ok.
  - intros f. destruct f as [sf fld arg].
    cbn [FEConstFuncArgument_OutputExpression].
    destruct arg as [v|]; [apply npe_Ret, FEValue_npe|].
    destruct fld as [fl|]; [apply FEField_npe|].
    destruct sf as [s|]; [apply FEConstFuncExpression_npe|].
    apply npe_bind; intros s _. apply npe_Ret_err. discriminate.
Qed.

Lemma FEConstFuncArgumentRHS_regex_npe f :
  noParenErr (FEConstFuncArgumentRHS_OutputRegexExpression ext f).
Proof.
  unfold FEConstFuncArgumentRHS_OutputRegexExpression. destruct f as [sf arg].
  destruct arg as [v|].
  - destruct (tokenIsPcreValueType ext (FEValue_String ext v)).
    + apply npe_Ret, Hpcre.
    + apply npe_Ret, npe_pair_ok.
  - apply npe_bind; intros s _. apply npe_Ret_err. discriminate.
Qed.

Lemma FEBooleanFuncTwoArgs_npe f :
  noParenErr (FEBooleanFuncTwoArgs_OutputExpression ext f).
Proof.
  unfold FEBooleanFuncTwoArgs_OutputExpression.
  destruct f as [nm arg0 arg1].
  assert (noParenErr
            (deref nm (fun name =>
               Ret (NilExpression,
                    Some (Errorf "Invalid FEBooleanFuncTwoArgs %v"
                            [FEBooleanFuncTwoArgsName_String ext name])))))
    as Helse.
  { destruct nm; cbn [deref]; [apply npe_Ret_err; discriminate|apply npe_Crash]. }
  destruct nm as [[[[|]|]]|]; try exact Helse;
    destruct arg0 as [argument0|]; try exact Helse;
    destruct arg1 as [argument1|]; try exact Helse.
  cbn.
  apply npe_step; [apply FEConstFuncArgument_npe| |].
  - intros e err Herr. now apply npe_Ret_err.
  - intros e. apply npe_step; [apply FEConstFuncArgumentRHS_regex_npe| |].
    + intros e' err Herr. now apply npe_Ret_err.
    + intros e'. apply npe_Ret, npe_pair_ok.
Qed.

Lemma FEExistsClause_npe f : noParenErr (FEExistsClause_OutputExpression ext f).
Proof.
  unfold FEExistsClause_OutputExpression. destruct f as [[fld|]].
  - apply npe_step; [apply FEField_npe| |].
    + intros e err Herr. now apply npe_Ret_err.
    + intros e. apply npe_Ret, npe_pair_ok.
  - apply npe_bind; intros s _. apply npe_Ret_err. discriminate.
Qed.

Lemma FEBooleanFuncExpr_npe f :
  noParenErr (FEBooleanFuncExpr_OutputExpression ext f).
Proof.
  unfold FEBooleanFuncExpr_OutputExpression. destruct f as [[ta|] [ec|]];
    try apply FEBooleanFuncTwoArgs_npe; try apply FEExistsClause_npe.
  apply npe_Ret_err. discriminate.
Qed.

Lemma FEBooleanExpr_npe f : noParenErr (FEBooleanExpr_OutputExpression ext f).
Proof.
  unfold FEBooleanExpr_OutputExpression. destruct f as [[b|] [bf|]];
    try apply npe_Ret, FEBoolean_npe; try apply FEBooleanFuncExpr_npe.
  apply npe_bind; intros s _. apply npe_Ret_err. discriminate.
Qed.

Lemma FELhs_npe f : noParenErr (FELhs_OutputExpression ext f).
Proof.
  unfold FELhs_OutputExpression. destruct f as [fn b fld v].
  destruct fld; [apply FEField_npe|].
  destruct v; [apply npe_Ret, FEValue_npe|].
  destruct fn; [apply FEConstFuncExpression_npe|].
  destruct b; [apply npe_Ret, FEBoolean_npe|].
  apply npe_bind; intros s _. apply npe_Ret_err. discriminate.
Qed.

Lemma FERhs_npe f : noParenErr (FERhs_OutputExpression ext f).
Proof.
  unfold FERhs_OutputExpression. destruct f as [fn b v fld].
  destruct fld; [apply FEField_npe|].
  destruct v; [apply npe_Ret, FEValue_npe|].
  destruct fn; [apply FEConstFuncExpression_npe|].
  destruct b; [apply npe_Ret, FEBoolean_npe|].
  apply npe_bind; intros s _. apply npe_Ret_err. discriminate.
Qed.

Lemma FEOperand_npe f : noParenErr (FEOperand_OutputExpression ext f).
Proof.
  unfold FEOperand_OutputExpression. destruct f as [be lhs op rhs co].
  destruct be; [apply FEBooleanExpr_npe|].
  destruct lhs as [l|];
    [|apply npe_bind; intros s _; apply npe_Ret_err; discriminate].
  apply npe_step; [apply FELhs_npe| |].
  - intros e err Herr. now apply npe_Ret_err.
  - intros e. destruct co; [apply npe_Ret, FECheckOp_npe|].
    destruct op as [o|]; destruct rhs as [r|];
      try (apply npe_bind; intros s _; apply npe_Ret_err; discriminate).
    apply npe_step; [apply FERhs_npe| |].
    + intros e' err Herr. now apply npe_Ret_err.
    + intros e'. apply npe_Ret, FECompareOp_npe.
Qed.

Lemma FECondition_npe :
  forall f : FECondition, noParenErr (FECondition_OutputExpression ext f).
Proof.
  fix FECondition_npe 1. intros f. destruct f as [nt od]. cbn [FECondition_OutputExpression].
  destruct nt as [n|].
  - apply npe_step; [apply FECondition_npe| |]; intros; simpl.
    + now apply npe_Ret_err.
    + apply npe_Ret, npe_pair_ok.
  - destruct od; [apply FEOperand_npe|].
    apply npe_bind; intros s _. apply npe_Ret_err. discriminate.
Qed.

Lemma andConditionLoop_npe conds :
  forall acc, noParenErr (andConditionLoop ext conds acc).
Proof.
  induction conds as [|c conds IH]; intros acc; simpl.
  - apply npe_Ret, npe_pair_ok.
  - apply npe_step; [apply FECondition_npe| |].
    + intros e err Herr. now apply npe_Ret_err.
    + intros e. apply IH.
Qed.

Lemma FEAndCondition_npe f : noParenErr (FEAndCondition_OutputExpression ext f).
Proof. destruct f. apply andConditionLoop_npe. Qed.

Lemma orLoop_npe conds :
  forall acc r, orLoop ext conds acc = Ret r ->
                snd r <> Some ErrorMalformedParenthesis.
Proof.
  induction conds as [|c conds IH]; intros acc r E; simpl in E.
  - injection E as <-. discriminate.
  - unfold rbind in E.
    pose proof (FEAndCondition_npe c) as Hc.
    destruct (FEAndCondition_OutputExpression ext c) as [[e [err|]]| |];
      try discriminate.
    + injection E as <-. simpl. intros H. injection H as ->. now apply (Hc e).
    + eapply IH; eauto.
Qed.

Lemma subFilterLoop_npe convert subs :
  Forall (fun s => noParenErr (convert s)) subs ->
  forall acc, noParenErr (subFilterLoop convert subs acc).
Proof.
  induction 1 as [|s subs Hs Hrest IH]; intros acc; simpl.
  - apply npe_Ret, npe_pair_ok.
  - apply npe_step; [exact Hs| |].
    + intros e err Herr. now apply npe_Ret_err.
    + intros e. apply IH.
Qed.

(** [ErrorMalformedParenthesis] comes from the check on parentheses only:
    when the totals match at every level, the conversion does not return
    it. *)
Lemma FilterExpression_balanced_npe f :
  everyLevelBalanced f = true ->
  noParenErr (FilterExpression_OutputExpression ext f).
Proof.
  induction f as [acs subs IH] using FilterExpression_nested_ind.
  intros Hb. cbn [everyLevelBalanced] in Hb.
  apply andb_prop in Hb as [Htot Hsubs].
  cbn [FilterExpression_OutputExpression]. rewrite Htot. cbn [negb].
  apply npe_bind. intros [outExpr [err|]] Hor.
  - apply npe_Ret_err. intros ->. now apply (orLoop_npe _ _ _ Hor).
  - assert (Forall (fun s => noParenErr (FilterExpression_OutputExpression ext s))
                   subs) as Hall.
    { rewrite forallb_forall in Hsubs. rewrite Forall_forall in *.
      intros s Hin. apply IH; auto. }
    destruct subs; [apply npe_Ret, npe_pair_ok|].
    now apply subFilterLoop_npe.
Qed.
End NoParenErr.


Lemma FEField_special ext MathNeg p0 MathOp MathValue s :
  FEOnePath_String ext p0 = Ret s ->
  iso8601Year ext s || iso8601YearAndMonth ext s
  || iso8601CompleteDate ext s = true ->
  FEField_OutputExpression ext (mkFEField MathNeg [p0] MathOp MathValue) =
  Ret (ValueExpr (VString s), None).
Proof.
  intros Hs Hm. unfold FEField_OutputExpression,
    FEField_ShouldHandleSpecialValue, FEField_OutputExpressionSpecialAsValue.
  rewrite Hs. simpl. rewrite Hm. simpl. reflexivity.
Qed.

(** C10.  A field whose path is one segment with a text that matches the
    year, the year-and-month or the complete-date pattern converts to the
    string [ValueExpr] of that text, whatever [MathNeg], [MathOp] and
    [MathValue] the field carries; and so it does wherever a field stands:
    on the left and on the right of a comparison, as the argument of any
    function, and under [EXISTS]. *)
Theorem FEField_date_text_is_a_value ext MathNeg p0 MathOp MathValue s :
  FEOnePath_String ext p0 = Ret s ->
  iso8601Year ext s || iso8601YearAndMonth ext s
  || iso8601CompleteDate ext s = true ->
  let f := mkFEField MathNeg [p0] MathOp MathValue in
  let v := ValueExpr (VString s) in
  FEField_OutputExpression ext f = Ret (v, None) /\
  (forall fn b val,
     FELhs_OutputExpression ext (mkFELhs fn b (Some f) val) = Ret (v, None)) /\
  (forall fn b val,
     FERhs_OutputExpression ext (mkFERhs fn b val (Some f)) = Ret (v, None)) /\
  (forall sf,
     FEConstFuncArgument_OutputExpression ext
       (mkFEConstFuncArgument sf (Some f) None) = Ret (v, None)) /\
  FEExistsClause_OutputExpression ext (mkFEExistsClause (Some f)) =
  Ret (ExistsExpr v, None).
Proof.
  intros Hs Hm f v.
  pose proof (FEField_special ext MathNeg p0 MathOp MathValue s Hs Hm) as H.
  fold f in H. fold v in H.
  split; [exact H|]. split; [|split; [|split]].
  - intros fn b val. simpl. exact H.
  - intros fn b val. simpl. exact H.
  - intros sf. destruct sf; simpl; exact H.
  - unfold FEExistsClause_OutputExpression. rewrite H. reflexivity.
Qed.

(** C10, an instance: the field [- 2021-01-02 + 1] converts to the string
    ["2021-01-02"]; the negation and the addition are gone. *)
Lemma FEField_date_text_is_a_value_witness :
  let f := dateFieldWithMath in
  let v := ValueExpr (VString "2021-01-02") in
  FEField_OutputExpression sampleExternals f = Ret (v, None) /\
  (forall fn b val,
     FELhs_OutputExpression sampleExternals (mkFELhs fn b (Some f) val)
     = Ret (v, None)) /\
  (forall fn b val,
     FERhs_OutputExpression sampleExternals (mkFERhs fn b val (Some f))
     = Ret (v, None)) /\
  (forall sf,
     FEConstFuncArgument_OutputExpression sampleExternals
       (mkFEConstFuncArgument sf (Some f) None) = Ret (v, None)) /\
  FEExistsClause_OutputExpression sampleExternals (mkFEExistsClause (Some f)) =
  Ret (ExistsExpr v, None).
Proof.
  apply (FEField_date_text_is_a_value sampleExternals (Some true) datePath
           (Some (mkFEMathArithmeticOp (Some true) None None None None))
           (Some (mkFEMathValue (Some 1) None)) "2021-01-02");
    reflexivity.
Defined.

(** Without the special case the same field shape converts to the
    arithmetic over the field. *)
Lemma FEField_with_math_example :
  FEField_OutputExpression sampleExternals
    (mkFEField (Some true)
       [mkFEOnePath None (Some (mkFEStringType "" "" "" "price")) []]
       (Some (mkFEMathArithmeticOp (Some true) None None None None))
       (Some (mkFEMathValue (Some 10) None))) =
  Ret (FuncExpr "add"
         [FuncExpr "neg" [FieldExpr ["price"]]; ValueExpr (VInt 10)], None).
Proof. reflexivity. Qed.

(** The check of [FilterExpression.OutputExpression] comes first: when the
    totals differ the result is [ErrorMalformedParenthesis]. *)
Lemma FilterExpression_unbalanced ext f :
  FilterExpression_GetTotalOpenParens f
  <> FilterExpression_GetTotalCloseParens f ->
  FilterExpression_OutputExpression ext f =
  Ret (OrExpr [], Some ErrorMalformedParenthesis).
Proof.
  intros H. destruct f as [acs subs].
  apply Z.eqb_neq in H. cbn [FilterExpression_OutputExpression].
  rewrite H. reflexivity.
Qed.

(** C9, the failing input.  In the tree of [( TRUE AND ( TRUE ) )] the
    totals of the whole expression are 2 opening and 2 closing parentheses,
    and [OutputExpression] returns [ErrorMalformedParenthesis]: the nested
    [FilterExpression] runs the same check on its own totals, 1 and 2. *)
Theorem nested_FilterExpression_repeats_the_check ext :
  FilterExpression_GetTotalOpenParens nestedParens = 2 /\
  FilterExpression_GetTotalCloseParens nestedParens = 2 /\
  FilterExpression_OutputExpression ext nestedParens =
  Ret (AndExpr [OrExpr [AndExpr [TrueExpr]]], Some ErrorMalformedParenthesis).
Proof. split; [reflexivity|]. split; reflexivity. Qed.

(* ================================================================== *)
(** * Further properties of bintree.go *)

(** X1.  [ResetNode] on a node of a tree with consistent links returns, makes
    the node and all its descendants [Unknown], and changes nothing else. *)
Theorem ResetNode_resets_subtree_only st i :
  linksOk (tree st) = true ->
  length (data st) = length (tree st) ->
  0 <= i < zlen (tree st) ->
  exists st',
    ResetNode st i = Done st' /\
    tree st' = tree st /\ stallIndex st' = stallIndex st /\
    forall k,
      (atOrBelow (tree st) i k -> zget (data st') k = Some binTreeStateUnknown)
      /\ (~ atOrBelow (tree st) i k -> zget (data st') k = zget (data st) k).
Proof.
  intros Hl HL Hi. unfold ResetNode.
  destruct (resetNodeRecursive_Done (tree st) Hl (S (length (tree st))) st i
              eq_refl HL Hi) as [st' E].
  { unfold zlen in *. lia. }
  exists st'. split; [exact E|].
  destruct (post_Done _ _ _ (resetNodeRecursive_frame _ st i) E)
    as (T & S & _ & _ & F).
  repeat split; auto.
  intros Hk. eapply resetNodeRecursive_subtree; eauto.
Qed.

(** X1, an instance: in [NOT (NOT leaf)] with every entry decided,
    [ResetNode(1)] resets the inner node and the leaf and leaves the root. *)
Lemma ResetNode_resets_subtree_only_witness :
  let st := mkState notNotLeaf
              [binTreeStateFalse; binTreeStateTrue; binTreeStateResolved] 0 in
  exists st',
    ResetNode st 1 = Done st' /\
    tree st' = tree st /\ stallIndex st' = stallIndex st /\
    forall k,
      (atOrBelow (tree st) 1 k -> zget (data st') k = Some binTreeStateUnknown)
      /\ (~ atOrBelow (tree st) 1 k -> zget (data st') k = zget (data st) k).
Proof.
  intros st.
  apply (ResetNode_resets_subtree_only st 1);
    [reflexivity|reflexivity|unfold zlen; simpl; lia].
Defined.

(** X2.  What an accepted tree is known to satisfy: it has a root that names
    itself as parent; every node has one of the six types, an inner node has
    its links inside the tree where it has the child and 0 where it has not;
    every other node names an inner node before it as its parent. *)
Theorem Validate_accepted_tree t :
  Validate t = Ret None ->
  (exists root, zget t 0 = Some root /\ ParentIdx root = 0) /\
  forall j n, zget t j = Some n ->
    nodeChecked t n /\
    (0 < j ->
     0 <= ParentIdx n < j /\
     exists pn, zget t (ParentIdx n) = Some pn /\
                NodeType pn <> nodeTypeLeaf).
Proof.
  intros E. split; [now apply Validate_walk_root|].
  intros j n Hn. pose proof (zget_range _ _ _ Hn) as Hj.
  destruct (Validate_walk t E j Hj) as (n' & Hn' & Hck & _ & Hin).
  assert (n' = n) by congruence. subst n'. split; [exact Hck|].
  intros Hpos. destruct (Hin Hpos) as [Hr Hp]. split; [lia|exact Hp].
Qed.

(** X2, an instance: [NOT (NOT leaf)]. *)
Lemma Validate_accepted_tree_witness :
  (exists root, zget notNotLeaf 0 = Some root /\ ParentIdx root = 0) /\
  forall j n, zget notNotLeaf j = Some n ->
    nodeChecked notNotLeaf n /\
    (0 < j ->
     0 <= ParentIdx n < j /\
     exists pn, zget notNotLeaf (ParentIdx n) = Some pn /\
                NodeType pn <> nodeTypeLeaf).
Proof. apply (Validate_accepted_tree notNotLeaf). reflexivity. Defined.

(** X3.  [Validate] ends on every tree, and on the empty tree it ends in the
    panic of [tree.data[0]], not in an error. *)
Theorem Validate_ends_and_panics_on_empty t :
  Validate t <> NoFuel /\ (t = [] -> Validate t = Crash IndexOutOfRange).
Proof.
  split.
  - unfold Validate, rbind.
    destruct (validateItem (S (length t)) t 0 0) as [[pos [e|]]| |] eqn:V;
      simpl; try discriminate.
    + destruct (negb (pos =? zlen t)); discriminate.
    + exfalso. revert V. apply validateItem_returns; [lia|]. unfold zlen. lia.
  - intros ->. reflexivity.
Qed.

(** X4.  Soundness of the values: on a tree with consistent links, after any
    sequence of [MarkNode] calls on leaves, from a fresh state with any stall
    index, every node that holds [True] or [False] holds the value that
    [checkNode] derives from the entries of its children. *)
Theorem marked_values_follow_children t s marks st n node b :
  linksOk t = true ->
  Forall (fun m => isLeafAt t (fst m) = true) marks ->
  markAll marks (snd (SetStallIndex (NewState t) s)) = Done st ->
  zget t n = Some node ->
  zget (data st) n = Some (markValue b) ->
  valueOk st node b.
Proof.
  intros Hl Hall E Hn Hb.
  assert (Forall (fun m => isLeafAt t (fst m) = true /\
                           (fun (_ : Z) (_ : bool) => True) (fst m) (snd m))
                 marks) as Hall'.
  { revert Hall. apply Forall_impl. auto. }
  destruct (markAll_valueInv t Hl _ marks _ st (NewState_valueInv t _ s)
              Hall' E) as (_ & V & _).
  eapply V; eauto.
Qed.

(** X4, an instance: in [leaf OR (leaf NEOR leaf)] the leaves of the [Neor]
    node are marked true and false, and the node is [True] with a [True]
    child. *)
Lemma marked_values_follow_children_witness :
  valueOk (mkState orLeafNeor
             [binTreeStateTrue; binTreeStateResolved; binTreeStateTrue;
              binTreeStateTrue; binTreeStateFalse] 0)
          (NewBinTreeNode nodeTypeNeor 0 3 4) true.
Proof.
  apply (marked_values_follow_children orLeafNeor 0 [(3, true); (4, false)]
           _ 2 (NewBinTreeNode nodeTypeNeor 0 3 4) true);
    try reflexivity.
  repeat constructor.
Defined.

(** X5.  Short-circuit soundness: on an accepted tree with consistent links,
    after marks on leaves, a node that holds [True] or [False] holds the
    truth value of the formula under it, for every assignment [a] of the
    leaves that agrees with the marks made; the leaves that were not marked
    do not matter. *)
Theorem marked_value_is_formula_value t s marks a st n b :
  Validate t = Ret None -> linksOk t = true ->
  Forall (fun m => isLeafAt t (fst m) = true /\ a (fst m) = snd m) marks ->
  markAll marks (snd (SetStallIndex (NewState t) s)) = Done st ->
  zget (data st) n = Some (markValue b) ->
  evalNode (length t) t a n = Some b.
Proof.
  intros Hv Hl Hall E Hb. eapply value_is_evalNode; eauto.
Qed.

(** X5, an instance: in the same tree, after the same marks, the root is
    [True], and the formula is true whatever the first leaf, which was not
    marked, is given. *)
Lemma marked_value_is_formula_value_witness :
  evalNode (length orLeafNeor) orLeafNeor (fun i => i =? 3) 0 = Some true.
Proof.
  apply (marked_value_is_formula_value orLeafNeor 0 [(3, true); (4, false)]
           (fun i => i =? 3)
           (mkState orLeafNeor
              [binTreeStateTrue; binTreeStateResolved; binTreeStateTrue;
               binTreeStateTrue; binTreeStateFalse] 0) 0 true);
    try reflexivity.
  repeat constructor.
Defined.

(** X6.  Without a stall, on a tree with consistent links, a node stays
    [Unknown] only while a leaf at or below it is [Unknown]: after any
    sequence of [MarkNode] calls from a fresh state, an [Unknown] node has
    an [Unknown] leaf under it. *)
Theorem unknown_node_waits_for_a_leaf t marks st n :
  linksOk t = true ->
  markAll marks (NewState t) = Done st ->
  zget (data st) n = Some binTreeStateUnknown ->
  exists j, atOrBelow t n j /\ isLeafAt t j = true /\
            zget (data st) j = Some binTreeStateUnknown.
Proof. intros Hl E Hu. eapply unknown_leaf_after_marks; eauto. Qed.

(** X6, an instance: in the same tree, after the first leaf of the [Neor]
    node is marked true, the node waits for its second leaf. *)
Lemma unknown_node_waits_for_a_leaf_witness :
  let st := mkState orLeafNeor
              [binTreeStateUnknown; binTreeStateUnknown; binTreeStateUnknown;
               binTreeStateTrue; binTreeStateUnknown] 0 in
  exists j, atOrBelow orLeafNeor 2 j /\ isLeafAt orLeafNeor j = true /\
            zget (data st) j = Some binTreeStateUnknown.
Proof.
  intros st.
  apply (unknown_node_waits_for_a_leaf orLeafNeor [(3, true)] st 2);
    reflexivity.
Defined.

(** X7.  The verdict: on an accepted tree with consistent links, once marks
    on leaves have left no leaf [Unknown], the root is decided and
    [IsTrue(0)] is the truth value of the formula under every assignment of
    the leaves that agrees with the marks. *)
Theorem IsTrue_is_the_formula_value t marks a st :
  Validate t = Ret None -> linksOk t = true ->
  Forall (fun m => isLeafAt t (fst m) = true /\ a (fst m) = snd m) marks ->
  markAll marks (NewState t) = Done st ->
  (forall j, isLeafAt t j = true -> decided st j) ->
  exists b, evalNode (length t) t a 0 = Some b /\
            IsResolved st 0 = Ret true /\ IsTrue st 0 = Ret b.
Proof.
  intros Hv Hl Hall E Hleaves.
  destruct (NewState_waits t Hl) as [Hinv0 Hwait0].
  destruct (markAll_waits t Hl marks _ st Hinv0 Hwait0 E)
    as [(Ht & _ & Hlen & _ & Hroot) Hwait].
  destruct (Validate_walk_root t Hv) as (root & Hr & _).
  destruct (zget_in_range (data st) 0) as [x Hx].
  { apply zget_range in Hr. unfold zlen in *. now rewrite Hlen. }
  destruct x.
  - exfalso.
    destruct (unknown_leaf_after_marks t Hl marks st 0 E Hx)
      as (j & _ & Hj & Hju).
    apply (not_decided_unknown _ _ Hju). now apply Hleaves.
  - contradiction.
  - exists true. split; [|unfold IsResolved, IsTrue; rewrite Hx; auto].
    eapply (value_is_evalNode t Hl Hv a marks 0 st 0 true); eauto.
  - exists false. split; [|unfold IsResolved, IsTrue; rewrite Hx; auto].
    eapply (value_is_evalNode t Hl Hv a marks 0 st 0 false); eauto.
Qed.

(** X7, an instance: in the same tree, the marks on the leaves of the [Neor]
    node leave no leaf [Unknown], and the verdict is true. *)
Lemma IsTrue_is_the_formula_value_witness :
  let st := mkState orLeafNeor
              [binTreeStateTrue; binTreeStateResolved; binTreeStateTrue;
               binTreeStateTrue; binTreeStateFalse] 0 in
  exists b, evalNode (length orLeafNeor) orLeafNeor (fun i => i =? 3) 0
            = Some b /\
            IsResolved st 0 = Ret true /\ IsTrue st 0 = Ret b.
Proof.
  intros st.
  apply (IsTrue_is_the_formula_value orLeafNeor [(3, true); (4, false)]
           (fun i => i =? 3) st); try reflexivity.
  - repeat constructor.
  - intros j Hj. unfold isLeafAt in Hj.
    destruct (zget orLeafNeor j) as [n|] eqn:Hn; [|discriminate].
    apply zget_range in Hn. unfold zlen in Hn. simpl in Hn.
    assert (j = 0 \/ j = 1 \/ j = 2 \/ j = 3 \/ j = 4) as Hcases by lia.
    destruct Hcases as [->|[->|[->|[->| ->]]]];
      (eexists; split; [reflexivity|discriminate]).
Defined.

Lemma zset_app_middle {A} (pre post : list A) x y :
  zset (pre ++ x :: post) (zlen pre) y = pre ++ y :: post.
Proof.
  unfold zset, zlen.
  replace (Z.of_nat (length pre) <? 0) with false
    by (symmetry; apply Z.ltb_ge; lia).
  rewrite Nat2Z.id. induction pre as [|p pre IH]; simpl; [reflexivity|].
  now rewrite IH.
Qed.

Lemma CopyFrom_loop_replaces t s items :
  forall pre old,
    length old = length items ->
    CopyFrom_loop (zlen pre) items (mkState t (pre ++ old) s) =
    Done (mkState t (pre ++ items) s).
Proof.
  induction items as [|item rest IH]; intros pre old Hlen.
  - destruct old; [reflexivity|discriminate].
  - destruct old as [|o old]; [discriminate|]. simpl in Hlen.
    simpl CopyFrom_loop. cbn [data].
    replace (zlen pre >=? zlen (pre ++ o :: old)) with false.
    2:{ symmetry. rewrite Z.geb_leb. apply Z.leb_gt. rewrite zlen_app.
        unfold zlen. simpl length. lia. }
    unfold setData. cbn [data tree stallIndex]. rewrite zset_app_middle.
    replace (pre ++ item :: old) with ((pre ++ [item]) ++ old)
      by (now rewrite <- app_assoc).
    replace (zlen pre + 1) with (zlen (pre ++ [item]))
      by (apply zlen_snoc).
    rewrite IH by lia. now rewrite <- app_assoc.
Qed.

Lemma CopyFrom_loop_too_long items :
  forall i st,
    0 <= i <= zlen (data st) -> zlen (data st) < i + zlen items ->
    exists st', CopyFrom_loop i items st = Panic IndexOutOfRange st'.
Proof.
  induction items as [|item rest IH]; intros i st Hi Hlen.
  - unfold zlen in *. simpl in Hlen. lia.
  - simpl. destruct (i >=? zlen (data st)) eqn:Hge; [eauto|].
    rewrite Z.geb_leb in Hge. apply Z.leb_gt in Hge.
    apply IH; simpl; rewrite zlen_zset; [lia|].
    unfold zlen in *. simpl length in Hlen. lia.
Qed.

(** X8.  [CopyFrom] between states of the same tree object and with as many
    entries returns the state with the entries of the other state, and keeps
    its own stall index; with more entries in the other state it panics
    with an index out of range, and on a different tree object it panics
    before it writes. *)
Theorem CopyFrom_copies_the_entries st ostate :
  (length (data ostate) = length (data st) ->
   CopyFrom st ostate true =
   Done (mkState (tree st) (data ostate) (stallIndex st))) /\
  ((length (data st) < length (data ostate))%nat ->
   exists st', CopyFrom st ostate true = Panic IndexOutOfRange st') /\
  CopyFrom st ostate false =
  Panic (PanicMsg "cannot copy from different tree") st.
Proof.
  split; [|split; [|reflexivity]].
  - intros Hlen. unfold CopyFrom. cbn [negb]. destruct st as [t d s].
    cbn [data tree stallIndex] in *.
    apply (CopyFrom_loop_replaces t s (data ostate) [] d). auto.
  - intros Hlen. unfold CopyFrom. cbn [negb].
    apply CopyFrom_loop_too_long; unfold zlen; lia.
Qed.

(* ================================================================== *)
(** * Further properties of bintree.go: marks and [Resolve] never panic *)

Lemma endsWell_impl (P Q : binTreeState -> Prop) o :
  (forall s, P s -> Q s) -> endsWell P o -> endsWell Q o.
Proof. destruct o; simpl; auto. Qed.

Lemma endsWell_bind Q o k :
  endsWell (fun s => endsWell Q (k s)) o -> endsWell Q (bind o k).
Proof. destruct o; simpl; auto. Qed.

Lemma endsWell_withData Q st i k v :
  zget (data st) i = Some v -> endsWell Q (k v) -> endsWell Q (withData st i k).
Proof. unfold withData. intros ->. auto. Qed.

Lemma endsWell_withNode Q st i k n :
  zget (tree st) i = Some n -> endsWell Q (k n) -> endsWell Q (withNode st i k).
Proof. unfold withNode. intros ->. auto. Qed.

Lemma endsWell_Done Q o :
  endsWell Q o -> o <> OutOfFuel -> exists s, o = Done s /\ Q s.
Proof. destruct o; simpl; intros H Hn; [eauto|contradiction|congruence]. Qed.

Lemma endsWell_post (P Q : binTreeState -> Prop) o :
  endsWell P o -> post Q o -> endsWell (fun s => P s /\ Q s) o.
Proof. destruct o; simpl; auto. Qed.

Lemma data_in_range st (t : binTree) i :
  length (data st) = length t -> 0 <= i < zlen t ->
  exists v, zget (data st) i = Some v.
Proof.
  intros HL Hi. apply zget_in_range. unfold zlen in *. rewrite HL. exact Hi.
Qed.

Section Safety.
Variable t : binTree.
Hypothesis Hvalid : Validate t = Ret None.
Hypothesis Hlinks : linksOk t = true.
Hypothesis Hpl : parentLinked t = true.

Lemma child_in_tree p c : child t p c -> 0 <= c < zlen t.
Proof.
  intros Hc. destruct (linksOk_child _ _ _ Hlinks Hc) as (_ & n & Hn & _).
  now apply zget_range in Hn.
Qed.

Lemma parentLinked_child j n :
  0 < j -> zget t j = Some n -> child t (ParentIdx n) j.
Proof.
  intros Hj Hn. pose proof Hpl as Hall. unfold parentLinked in Hall.
  rewrite forallb_forall in Hall.
  pose proof Hn as Hn'. unfold zget in Hn'.
  destruct (Z.ltb_spec j 0); [lia|].
  specialize (Hall (Z.to_nat j, n) (in_combine_seq t 0%nat _ _ Hn')).
  simpl in Hall. rewrite Z2Nat.id in Hall by lia.
  destruct (Z.eqb_spec j 0); [lia|]. simpl in Hall.
  destruct (zget t (ParentIdx n)) as [pn|] eqn:Hp; [|discriminate].
  exists pn. split; [exact Hp|].
  apply orb_prop in Hall as [H0|H0]; apply andb_prop in H0 as [Hh He];
    apply Z.eqb_eq in He; [left|right]; auto.
Qed.

Lemma node_checked j n : zget t j = Some n -> nodeChecked t n.
Proof.
  intros Hn. pose proof (zget_range _ _ _ Hn) as Hr.
  destruct (Validate_walk t Hvalid j Hr) as (n' & Hn' & Hck & _).
  congruence.
Qed.

(** [resolveRecursive] reads inside the slices only. *)
Lemma visitChild_endsWell fuel :
  (forall st i, tree st = t -> length (data st) = length t ->
                0 <= i < zlen t ->
                endsWell (fun _ => True) (resolveRecursive fuel st i)) ->
  forall st c, tree st = t -> length (data st) = length t ->
               0 <= c < zlen t ->
               endsWell (fun _ => True) (visitChild fuel st c).
Proof.
  intros IH st c Ht HL Hc. unfold visitChild.
  destruct (data_in_range st t c HL Hc) as [v Hv].
  eapply endsWell_withData; [exact Hv|].
  destruct (isUnknown v); [|exact I].
  apply IH; auto. simpl. now rewrite length_zset.
Qed.

Lemma resolveRecursive_endsWell fuel :
  forall st i, tree st = t -> length (data st) = length t ->
               0 <= i < zlen t ->
               endsWell (fun _ => True) (resolveRecursive fuel st i).
Proof.
  induction fuel as [|fuel IH]; intros st i Ht HL Hi; [exact I|].
  rewrite resolveRecursive_S.
  destruct (zget_in_range t i Hi) as [n Hn].
  eapply endsWell_withNode; [rewrite Ht; exact Hn|].
  apply endsWell_bind.
  assert (endsWell (fun s => extends st s)
            (if binTreeNodeTypeHasLeft (NodeType n)
             then visitChild fuel st (Left n) else Done st)) as HLft.
  { destruct (binTreeNodeTypeHasLeft (NodeType n)) eqn:Hh.
    - eapply endsWell_impl; [|apply endsWell_post;
        [apply (visitChild_endsWell fuel IH st (Left n) Ht HL)
        |apply (visitChild_extends fuel (resolveRecursive_extends fuel))]].
      + intros s [_ H]. exact H.
      + apply (child_in_tree i). now apply child_left.
    - apply extends_refl. }
  revert HLft. apply endsWell_impl. intros st1 Hx1.
  destruct (binTreeNodeTypeHasRight (NodeType n)) eqn:Hh; [|exact I].
  apply (visitChild_endsWell fuel IH).
  - rewrite (extends_tree _ _ Hx1). exact Ht.
  - rewrite (extends_length _ _ Hx1). exact HL.
  - apply (child_in_tree i). now apply child_right.
Qed.

(** After the marked entry is written and its subtree resolved the children
    of every decided node are decided, and the entries that are not below
    the marked node are as before. *)
Lemma safeState_after_resolve fuel st i v st2 :
  safeState t st ->
  zget (data st) i = Some binTreeStateUnknown ->
  resolveRecursive fuel (setData st i (markValue v)) i = Done st2 ->
  safeState t st2 /\ extends st st2 /\
  forall j, j < i -> zget (data st2) j = zget (data st) j.
Proof.
  intros (Ht & HL & Hdc) Hi E.
  set (st1 := setData st i (markValue v)) in *.
  assert (extends st st1) as Hx1.
  { apply extends_setData; auto. now destruct v. }
  pose proof (post_Done _ _ _ (resolveRecursive_extends _ st1 i) E) as Hx12.
  assert (extends st st2) as Hx2 by (eapply extends_trans; eauto).
  assert (tree st1 = t) as Ht1 by exact Ht.
  pose proof (resolveRecursive_changes _ _ _ _ E) as Hch. rewrite Ht1 in Hch.
  destruct (resolveRecursive_closed _ _ _ _ E) as [Hkids Hcl].
  rewrite Ht1 in Hkids. unfold closedOver in Hcl. rewrite Ht1 in Hcl.
  destruct (post_Done _ _ _ (resolveRecursive_only_below _ st1 i) E)
    as [_ Honly]. rewrite Ht1 in Honly.
  assert (forall j x, zget (data st2) j = Some x ->
            zget (data st) j = Some x \/ j = i \/
            (x = binTreeStateResolved /\ reachUnknown t (data st1) i j))
    as Hcls.
  { intros j x Hj. destruct (Z.eq_dec j i) as [->|Hne]; [now right; left|].
    destruct (zget_Some_back st st2 j x (extends_length _ _ Hx2) Hj) as [y Hy].
    destruct (decided_or_unknown _ _ _ Hy) as [(y' & Hy' & Hny)|Hu].
    { left. pose proof (extends_get _ _ _ _ Hx2 Hy' Hny). congruence. }
    destruct x; try (left; congruence); right; right;
      (destruct (Hch j) as [HR Hr];
       [simpl; rewrite zget_zset_ne by auto; exact Hu|congruence|]);
      (split; [congruence|exact Hr]). }
  split; [|split; [exact Hx2|]].
  - split; [|split].
    + rewrite (extends_tree _ _ Hx2). exact Ht.
    + rewrite (extends_length _ _ Hx2). exact HL.
    + intros p c Hc (x & Hx & Hnx).
      destruct (Hcls p x Hx) as [Hp|[->|[_ Hr]]].
      * eapply extends_decided; [exact Hx2|]. apply (Hdc p c Hc).
        exists x. auto.
      * now apply Hkids.
      * apply (Hcl p); auto.
        -- eapply reachUnknown_unknown; eauto.
        -- exists x. auto.
  - intros j Hj.
    destruct (value_eq_dec (zget (data st2) j) (zget (data st1) j)) as [Heq|Hne].
    + rewrite Heq. simpl. apply zget_zset_ne. lia.
    + apply Honly in Hne. apply (linksOk_below_lt _ _ _ Hlinks) in Hne. lia.
Qed.

(** [MarkNode] on an [Unknown] node of a safe state does not panic and
    returns a safe state. *)
Lemma MarkNode_fuel_safe fuel :
  forall st i v,
    safeState t st -> zget (data st) i = Some binTreeStateUnknown ->
    endsWell (safeState t) (MarkNode_fuel fuel st i v).
Proof.
  induction fuel as [|fuel IH]; intros st i v Hsafe Hi; [exact I|].
  rewrite MarkNode_fuel_S.
  eapply endsWell_withData; [exact Hi|]. cbn [isUnknown negb].
  fold (markValue v).
  destruct Hsafe as (Ht & HL & Hdc).
  assert (0 <= i < zlen t) as Hir.
  { apply zget_range in Hi. unfold zlen in *. now rewrite <- HL. }
  assert (length (data (setData st i (markValue v))) = length t) as HL1
    by (simpl; now rewrite length_zset).
  pose proof (resolveRecursive_endsWell (S fuel) (setData st i (markValue v)) i
                Ht HL1 Hir) as Hres.
  destruct (resolveRecursive (S fuel) (setData st i (markValue v)) i)
    as [st2| |] eqn:E; [|contradiction|exact I].
  cbn [bind].
  destruct (safeState_after_resolve _ _ _ _ _ (conj Ht (conj HL Hdc)) Hi E)
    as (Hsafe2 & Hx2 & Hkeep).
  destruct (Z.eqb_spec i 0) as [->|Hi0]; [exact Hsafe2|].
  destruct (i =? stallIndex st2); [exact Hsafe2|].
  destruct Hsafe2 as (Ht2 & HL2 & Hdc2).
  destruct (zget_in_range t i Hir) as [nd Hnd].
  eapply endsWell_withNode; [rewrite Ht2; exact Hnd|].
  assert (child t (ParentIdx nd) i) as Hc by (apply parentLinked_child; auto; lia).
  destruct (linksOk_child _ _ _ Hlinks Hc) as [Hlt _].
  pose proof Hc as (pn & Hpn & Hkind).
  (* the parent is still [Unknown] *)
  assert (zget (data st2) (ParentIdx nd) = Some binTreeStateUnknown) as Hpu.
  { rewrite (Hkeep _ Hlt).
    assert (0 <= ParentIdx nd < zlen t) as Hpr by (now apply zget_range in Hpn).
    destruct (data_in_range st t _ HL Hpr) as [x Hx].
    destruct (decided_or_unknown _ _ _ Hx) as [Hd|Hu]; [|exact Hu].
    exfalso. eapply not_decided_unknown; [exact Hi|]. eapply Hdc; eauto. }
  assert (forall b, endsWell (safeState t)
                      (MarkNode_fuel fuel st2 (ParentIdx nd) b)) as Hmark.
  { intros b. apply IH; [repeat split; auto|exact Hpu]. }
  assert (binTreeNodeTypeHasLeft (NodeType pn) = true) as HhasL.
  { unfold binTreeNodeTypeHasLeft, binTreeNodeTypeHasRight in *.
    destruct Hkind as [[H _]|[H _]]; [exact H|].
    destruct (NodeType pn =? nodeTypeLeaf); [discriminate|reflexivity]. }
  assert (exists l, zget (data st2) (Left pn) = Some l) as [l Hl].
  { apply (data_in_range st2 t); [exact HL2|].
    apply (child_in_tree (ParentIdx nd)). now apply child_left. }
  assert (binTreeNodeTypeHasRight (NodeType pn) = true ->
          exists r, zget (data st2) (Right pn) = Some r) as Hr.
  { intros Hh. apply (data_in_range st2 t); [exact HL2|].
    apply (child_in_tree (ParentIdx nd)). now apply child_right. }
  assert (safeState t st2) as Hsafe2 by (repeat split; auto).
  pose proof (node_checked _ _ Hpn) as Hck.
  unfold checkNodeWith. eapply endsWell_withNode; [rewrite Ht2; exact Hpn|].
  unfold binTreeNodeTypeHasLeft in HhasL.
  destruct (NodeType pn =? nodeTypeLeaf) eqn:Eleaf; [discriminate|].
  unfold nodeChecked in Hck.
  destruct (Z.eqb_spec (NodeType pn) nodeTypeOr) as [Eor|Nor].
  { destruct Hr as [r Hr]; [rewrite Eor; reflexivity|].
    eapply endsWell_withData; [exact Hl|]. destruct (isTrue l); [apply Hmark|].
    eapply endsWell_withData; [exact Hr|]. destruct (isTrue r); [apply Hmark|].
    destruct (isFalse l && isFalse r); [apply Hmark|exact Hsafe2]. }
  destruct (Z.eqb_spec (NodeType pn) nodeTypeNeor) as [Eneor|Nneor].
  { destruct Hr as [r Hr]; [rewrite Eneor; reflexivity|].
    eapply endsWell_withData; [exact Hl|]. destruct (isUnknown l); [exact Hsafe2|].
    eapply endsWell_withData; [exact Hr|]. destruct (isUnknown r); [exact Hsafe2|].
    destruct (isTrue l || isTrue r); apply Hmark. }
  destruct (Z.eqb_spec (NodeType pn) nodeTypeAnd) as [Eand|Nand].
  { destruct Hr as [r Hr]; [rewrite Eand; reflexivity|].
    eapply endsWell_withData; [exact Hl|]. destruct (isTrue l).
    - eapply endsWell_withData; [exact Hr|]. destruct (isTrue r); [apply Hmark|].
      destruct (isFalse r); [apply Hmark|exact Hsafe2].
    - destruct (isFalse l); [apply Hmark|].
      eapply endsWell_withData; [exact Hr|].
      destruct (isFalse r); [apply Hmark|exact Hsafe2]. }
  destruct (Z.eqb_spec (NodeType pn) nodeTypeNot) as [Enot|Nnot].
  { eapply endsWell_withData; [exact Hl|]. destruct (isTrue l); [apply Hmark|].
    destruct (isFalse l); [apply Hmark|exact Hsafe2]. }
  destruct (Z.eqb_spec (NodeType pn) nodeTypeLoop) as [Eloop|Nloop].
  { eapply endsWell_withData; [exact Hl|]. destruct (isTrue l); [apply Hmark|].
    destruct (isFalse l); [apply Hmark|exact Hsafe2]. }
  apply Z.eqb_neq in Eleaf. exfalso.
  destruct Hck as [H|[[H _]|[H _]]]; [contradiction| |];
    repeat (destruct H as [H|H]; try contradiction).
Qed.

Lemma MarkNode_safe st i v :
  safeState t st -> zget (data st) i = Some binTreeStateUnknown ->
  exists st', MarkNode st i v = Done st' /\ safeState t st'.
Proof.
  intros Hs Hi. apply endsWell_Done; [|apply MarkNode_returns].
  now apply MarkNode_fuel_safe.
Qed.

Lemma markAll_safe marks : forall st st',
  safeState t st -> markAll marks st = Done st' -> safeState t st'.
Proof.
  induction marks as [|[i v] marks IH]; intros st st' Hs E; simpl in E.
  - now injection E as <-.
  - apply bind_Done in E as (st1 & E1 & E2). eapply IH; [|exact E2].
    assert (zget (data st) i = Some binTreeStateUnknown) as Hi.
    { unfold MarkNode in E1. rewrite MarkNode_fuel_S in E1.
      apply withData_Done in E1 as (cur & Hcur & E1).
      destruct cur; simpl in E1; try discriminate. exact Hcur. }
    destruct (MarkNode_safe st i v Hs Hi) as (st1' & E1' & Hs1). congruence.
Qed.

Lemma NewState_safe s : safeState t (snd (SetStallIndex (NewState t) s)).
Proof.
  split; [reflexivity|]. split; [simpl; apply repeat_length|].
  intros p c _ (x & Hx & Hne). simpl in Hx. apply zget_repeat in Hx. congruence.
Qed.

Lemma Resolve_loop_safe n : forall st,
  safeState t st -> (n <= length (data st))%nat ->
  endsWell (safeState t) (Resolve_loop n st).
Proof.
  assert (t <> []) as Hne.
  { intros ->. discriminate Hvalid. }
  induction n as [|n IH]; intros st Hs Hn; [exact Hs|].
  cbn [Resolve_loop].
  pose proof Hs as (Ht & HL & Hdc).
  destruct (data_in_range st t (Z.of_nat n) HL) as [cur Hcur].
  { unfold zlen. lia. }
  eapply endsWell_withData; [exact Hcur|]. apply endsWell_bind.
  assert (endsWell (fun s => safeState t s /\ length (data s) = length (data st))
            (if isUnknown cur then MarkNode st (Z.of_nat n) false
             else Done st)) as H1.
  { destruct (isUnknown cur) eqn:U; [|simpl; auto].
    apply isUnknown_true in U. subst cur.
    destruct (MarkNode_safe st _ false Hs Hcur) as (st1 & -> & Hs1).
    simpl. split; [exact Hs1|]. destruct Hs1 as (_ & HL1 & _). congruence. }
  revert H1. apply endsWell_impl. intros st1 [Hs1 HL1].
  destruct (data_in_range st1 t 0) as [root Hroot].
  { destruct Hs1 as (_ & H & _). exact H. }
  { unfold zlen. destruct t; [contradiction|simpl; lia]. }
  eapply endsWell_withData; [exact Hroot|].
  destruct (negb (isUnknown root)); [exact Hs1|].
  apply IH; [exact Hs1|lia].
Qed.

Lemma Resolve_safe st :
  safeState t st -> exists st', Resolve st = Done st' /\ safeState t st'.
Proof.
  intros Hs. apply endsWell_Done; [|apply Resolve_returns].
  assert (t <> []) as Hne.
  { intros ->. discriminate Hvalid. }
  unfold Resolve. pose proof Hs as (Ht & HL & Hdc).
  destruct (data_in_range st t 0 HL) as [root Hroot].
  { unfold zlen. destruct t; [contradiction|simpl; lia]. }
  eapply endsWell_withData; [exact Hroot|].
  destruct (negb (isUnknown root)); [exact Hs|].
  apply Resolve_loop_safe; auto.
Qed.
End Safety.

(** X9.  On a tree that [Validate] accepts and whose links are consistent
    with the parent indices, after any sequence of [MarkNode] calls that
    returned, [MarkNode] on any node that is still [Unknown] returns, with
    either value, and so does [Resolve]: no read leaves the slices, no node
    is marked twice, and [checkNode] meets no leaf and no invalid type. *)
Theorem marking_unknown_nodes_never_panics t s marks st :
  Validate t = Ret None -> linksOk t = true -> parentLinked t = true ->
  markAll marks (snd (SetStallIndex (NewState t) s)) = Done st ->
  (forall i v, zget (data st) i = Some binTreeStateUnknown ->
     exists st', MarkNode st i v = Done st') /\
  (exists st', Resolve st = Done st').
Proof.
  intros Hv Hl Hp E.
  pose proof (markAll_safe t Hv Hl Hp marks _ _ (NewState_safe t s) E) as Hs.
  split.
  - intros i v Hi.
    destruct (MarkNode_safe t Hv Hl Hp st i v Hs Hi) as (st' & E' & _). eauto.
  - destruct (Resolve_safe t Hv Hl Hp st Hs) as (st' & E' & _). eauto.
Qed.

Lemma laidOut_parentLinked t sh pos parent :
  laidOut t sh pos parent ->
  forall j n, pos < j < pos + Z.of_nat (shapeSize sh) ->
              zget t j = Some n -> child t (ParentIdx n) j.
Proof.
  induction 1 as [pos parent n Hn Hty Hp HL HR
                 |sh c pos parent n Hsh Hn Hp HL HR Hc IHc
                 |sh l r pos parent n Hsh Hn Hp HL HR Hl IHl Hr IHr];
    intros j m Hrange Hm.
  - simpl in Hrange. lia.
  - assert (shapeSize sh = S (shapeSize c)) as Hsz
      by (destruct Hsh as [[-> _]|[-> _]]; reflexivity).
    rewrite Hsz in Hrange.
    destruct (Z.eq_dec j (pos + 1)) as [->|Hne]; [|apply IHc; auto; lia].
    destruct (laidOut_root _ _ _ _ Hc) as (cn & Hcn & Hcp).
    assert (m = cn) by congruence. subst m. rewrite Hcp.
    exists n. split; [exact Hn|]. left. split; [|exact HL].
    destruct Hsh as [[_ Hty]|[_ Hty]]; rewrite Hty; reflexivity.
  - assert (shapeSize sh = S (shapeSize l + shapeSize r)) as Hsz
      by (destruct Hsh as [[-> _]|[[-> _]|[-> _]]]; reflexivity).
    rewrite Hsz in Hrange.
    destruct (Z.eq_dec j (pos + 1)) as [->|Hne1].
    { destruct (laidOut_root _ _ _ _ Hl) as (cn & Hcn & Hcp).
      assert (m = cn) by congruence. subst m. rewrite Hcp.
      exists n. split; [exact Hn|]. left. split; [|exact HL].
      destruct Hsh as [[_ Hty]|[[_ Hty]|[_ Hty]]]; rewrite Hty; reflexivity. }
    destruct (Z.eq_dec j (pos + 1 + Z.of_nat (shapeSize l))) as [->|Hne2].
    { destruct (laidOut_root _ _ _ _ Hr) as (cn & Hcn & Hcp).
      assert (m = cn) by congruence. subst m. rewrite Hcp.
      exists n. split; [exact Hn|]. right. split; [|exact HR].
      destruct Hsh as [[_ Hty]|[[_ Hty]|[_ Hty]]]; rewrite Hty; reflexivity. }
    destruct (Z_lt_le_dec j (pos + 1 + Z.of_nat (shapeSize l))).
    + apply IHl; auto. lia.
    + apply IHr; auto. lia.
Qed.

(** Every tree in pre-order layout has the three properties: see
    [Validate_preorderTree] and [linksOk_preorderTree] for the other two. *)
Lemma parentLinked_preorderTree sh : parentLinked (preorderTree sh) = true.
Proof.
  unfold preorderTree.
  pose proof (layout_laidOut sh [] [] 0) as H.
  change (zlen []) with 0 in H. cbn [app] in H. rewrite app_nil_r in H.
  unfold parentLinked. apply forallb_forall. intros [k n] Hin.
  destruct (in_combine_seq_inv _ _ _ _ Hin) as (j & -> & Hj). cbn [fst snd].
  destruct (Z.eqb_spec (Z.of_nat (0 + j)) 0) as [|Hne]; [reflexivity|].
  cbn [orb].
  assert (zget (layout sh 0 0) (Z.of_nat (0 + j)) = Some n) as Hn.
  { unfold zget. destruct (Z.ltb_spec (Z.of_nat (0 + j)) 0); [lia|].
    now rewrite Nat2Z.id. }
  pose proof (zget_range _ _ _ Hn) as Hr. rewrite zlen_layout in Hr.
  assert (0 < Z.of_nat (0 + j) < 0 + Z.of_nat (shapeSize sh)) as Hrange by lia.
  destruct (laidOut_parentLinked _ _ _ _ H _ _ Hrange Hn)
    as (pn & Hpn & Hkind).
  rewrite Hpn.
  destruct Hkind as [[Hh He]|[Hh He]]; rewrite Hh, He, Z.eqb_refl; simpl;
    [reflexivity|apply orb_true_r].
Qed.

(** X9, an instance: [leaf OR (leaf NEOR leaf)] after the mark of the first
    leaf of the [Neor] node. *)
Lemma marking_unknown_nodes_never_panics_witness :
  let st := mkState orLeafNeor
              [binTreeStateUnknown; binTreeStateUnknown; binTreeStateUnknown;
               binTreeStateTrue; binTreeStateUnknown] 0 in
  (forall i v, zget (data st) i = Some binTreeStateUnknown ->
     exists st', MarkNode st i v = Done st') /\
  (exists st', Resolve st = Done st').
Proof.
  apply (marking_unknown_nodes_never_panics orLeafNeor 0 [(3, true)]);
    reflexivity.
Defined.

(* ------------------------------------------------------------------ *)
(** * Further properties of bintree.go: the verdict of [Resolve] *)

Section ResolveValue.
Variable t : binTree.
Hypothesis Hvalid : Validate t = Ret None.
Hypothesis Hlinks : linksOk t = true.
Hypothesis Hpl : parentLinked t = true.
Variable a : Z -> bool.

Lemma Resolve_step_inv st i st1 :
  resolveInv t a st ->
  (forall j, i < j < zlen t -> zget (data st) j <> Some binTreeStateUnknown) ->
  zget (data st) i = Some binTreeStateUnknown ->
  MarkNode st i false = Done st1 ->
  resolveInv t a st1 /\ extends st st1 /\
  zget (data st1) i <> Some binTreeStateUnknown.
Proof.
  intros (Hval & Hwinv & Hwait & Hsafe & Hleaf) Hdone Hi E.
  pose proof (post_Done _ _ _ (MarkNode_extends st i false) E) as Hx.
  assert (isLeafAt t i = true) as Hil.
  { destruct Hsafe as (Ht & HL & _).
    assert (0 <= i < zlen t) as Hir.
    { apply zget_range in Hi. unfold zlen in *. now rewrite <- HL. }
    destruct (zget_in_range t i Hir) as [node Hnode].
    unfold isLeafAt. rewrite Hnode.
    destruct (Z.eqb_spec (NodeType node) nodeTypeLeaf) as [|Hnl]; [reflexivity|].
    exfalso.
    assert (exists c, child t i c /\
                      zget (data st) c = Some binTreeStateUnknown)
      as (c & Hc & Hcu).
    { destruct (Hwait i node Hnode Hnl Hi) as [HLu|[HR HRu]].
      - exists (Left node). split; [|exact HLu]. apply child_left; auto.
        unfold binTreeNodeTypeHasLeft. now apply negb_true_iff, Z.eqb_neq.
      - exists (Right node). split; [|exact HRu]. now apply child_right. }
    destruct (linksOk_child _ _ _ Hlinks Hc) as (Hlt & nc & Hnc & _).
    apply zget_range in Hnc. apply (Hdone c); [lia|exact Hcu]. }
  unfold MarkNode in E.
  split; [|split; [exact Hx|]].
  - split; [|split; [|split; [|split]]].
    + eapply (MarkNode_fuel_valueInv t Hlinks _ _ st i false st1 Hval);
        [|exact E].
      intros _. split; [|intros _; now apply Hleaf].
      intros node Hn. unfold isLeafAt in Hil. rewrite Hn in Hil.
      apply Z.eqb_eq in Hil. unfold valueOk. rewrite Hil. exact I.
    + eapply (MarkNode_fuel_waits t Hlinks _ st i false st1); eauto.
    + eapply (MarkNode_fuel_waits t Hlinks _ st i false st1); eauto.
    + destruct (MarkNode_safe t Hvalid Hlinks Hpl st i false Hsafe Hi)
        as (st1' & E' & Hs1). unfold MarkNode in E'. congruence.
    + intros j Hj Hju. apply Hleaf; [exact Hj|].
      eapply extends_unknown_back; eauto.
  - pose proof (post_Done _ _ _ (MarkNode_fuel_sets _ st i false Hi) E) as H.
    rewrite H. discriminate.
Qed.

Lemma Resolve_loop_inv n : forall st st',
  resolveInv t a st -> (n <= length t)%nat ->
  (forall j, Z.of_nat n <= j < zlen t ->
             zget (data st) j <> Some binTreeStateUnknown) ->
  Resolve_loop n st = Done st' -> resolveInv t a st'.
Proof.
  induction n as [|n IH]; intros st st' Hinv Hn Hdone E.
  { simpl in E. now injection E as <-. }
  cbn [Resolve_loop] in E.
  apply withData_Done in E as (cur & Hcur & E).
  apply bind_Done in E as (st1 & E1 & E).
  apply withData_Done in E as (root & Hroot & E).
  assert (resolveInv t a st1 /\ extends st st1 /\
          zget (data st1) (Z.of_nat n) <> Some binTreeStateUnknown)
    as (Hinv1 & Hx1 & Hn1).
  { destruct (isUnknown cur) eqn:U.
    - apply isUnknown_true in U. subst cur.
      eapply Resolve_step_inv; eauto. intros j Hj. apply Hdone. lia.
    - injection E1 as <-. split; [exact Hinv|]. split; [apply extends_refl|].
      rewrite Hcur. apply isUnknown_false in U. congruence. }
  destruct (negb (isUnknown root)); [now injection E as <-|].
  apply (IH st1 st'); auto; [lia|].
  intros j Hj. destruct (Z.eq_dec j (Z.of_nat n)) as [->|Hne]; [exact Hn1|].
  intros Hu. apply (Hdone j); [lia|].
  eapply extends_unknown_back; eauto.
Qed.

Lemma Resolve_value marks st :
  Forall (fun m => isLeafAt t (fst m) = true /\ a (fst m) = snd m) marks ->
  markAll marks (NewState t) = Done st ->
  (forall j, isLeafAt t j = true ->
             zget (data st) j = Some binTreeStateUnknown -> a j = false) ->
  exists st' b,
    Resolve st = Done st' /\ IsResolved st' 0 = Ret true /\
    IsTrue st' 0 = Ret b /\ evalNode (length t) t a 0 = Some b.
Proof.
  intros Hall E Hleaf.
  destruct (NewState_waits t Hlinks) as [Hinv0 Hwait0].
  destruct (markAll_waits t Hlinks marks _ st Hinv0 Hwait0 E) as [Hwinv Hwait].
  pose proof (markAll_valueInv t Hlinks (fun i b => a i = b) marks _ st
                (NewState_valueInv t _ 0) Hall E) as Hval.
  pose proof (markAll_safe t Hvalid Hlinks Hpl marks _ st (NewState_safe t 0) E)
    as Hsafe.
  assert (resolveInv t a st) as Hinv by (repeat split; auto; apply Hval || apply Hwinv
                                   || apply Hsafe).
  destruct (Resolve_safe t Hvalid Hlinks Hpl st Hsafe) as (st' & ER & _).
  assert (resolveInv t a st') as Hinv'.
  { pose proof ER as ER'. unfold Resolve in ER'.
    apply withData_Done in ER' as (root & Hroot & ER').
    destruct (negb (isUnknown root)); [now injection ER' as <-|].
    destruct Hsafe as (_ & HL & _).
    apply (Resolve_loop_inv (length (data st)) st st' Hinv); [lia| |exact ER'].
    intros j Hj. unfold zlen in Hj. lia. }
  destruct Hinv' as ((Ht' & V & _ & L) & (_ & _ & Hlen' & _ & Hroot') & _).
  destruct (Resolve_root _ _ ER) as (x & Hx & Hnx).
  assert (exists b, x = markValue b) as [b ->].
  { destruct x; [contradiction|contradiction|exists true|exists false];
      reflexivity. }
  exists st', b. split; [exact ER|].
  unfold IsResolved, IsTrue. rewrite Hx.
  split; [destruct b; reflexivity|]. split; [destruct b; reflexivity|].
  assert (0 <= 0 < zlen t) as H0.
  { apply zget_range in Hx. unfold zlen in *. now rewrite <- Hlen'. }
  destruct (evalNode_defined t Hlinks Hvalid a (length t) 0 H0) as [b' Hb'].
  { unfold zlen. lia. }
  rewrite Hb'. f_equal. eapply (evalNode_of_value t a st'); eauto.
Qed.
End ResolveValue.

(** X10.  After marks on leaves, [Resolve] returns with the root decided,
    and [IsTrue(0)] is then the value of the formula in which every marked
    leaf has the value it was marked with and every leaf that was still
    [Unknown] is false: [Resolve] marks [Unknown] leaves only, from the last
    one down, and stops when the root is decided. *)
Theorem Resolve_takes_unknown_leaves_as_false t marks a st :
  Validate t = Ret None -> linksOk t = true -> parentLinked t = true ->
  Forall (fun m => isLeafAt t (fst m) = true /\ a (fst m) = snd m) marks ->
  markAll marks (NewState t) = Done st ->
  (forall j, isLeafAt t j = true ->
             zget (data st) j = Some binTreeStateUnknown -> a j = false) ->
  exists st' b,
    Resolve st = Done st' /\ IsResolved st' 0 = Ret true /\
    IsTrue st' 0 = Ret b /\ evalNode (length t) t a 0 = Some b.
Proof. intros Hv Hl Hp. now apply Resolve_value. Qed.

(** X10, an instance: in [leaf OR (leaf NEOR leaf)] with the first leaf of
    the [Neor] node marked true, [Resolve] takes the two other leaves as
    false and the verdict is true. *)
Lemma Resolve_takes_unknown_leaves_as_false_witness :
  let st := mkState orLeafNeor
              [binTreeStateUnknown; binTreeStateUnknown; binTreeStateUnknown;
               binTreeStateTrue; binTreeStateUnknown] 0 in
  exists st' b,
    Resolve st = Done st' /\ IsResolved st' 0 = Ret true /\
    IsTrue st' 0 = Ret b /\
    evalNode (length orLeafNeor) orLeafNeor (fun i => i =? 3) 0 = Some b.
Proof.
  intros st.
  apply (Resolve_takes_unknown_leaves_as_false orLeafNeor [(3, true)]
           (fun i => i =? 3) st); try reflexivity.
  - repeat constructor.
  - intros j _ Hu. destruct (Z.eqb_spec j 3) as [->|]; [discriminate Hu|].
    reflexivity.
Defined.

(* ================================================================== *)
(** * Further properties of filterExprParser.go *)

Lemma addEach_sum {A} (g : A -> Z) xs : forall count,
  addEach g xs count = count + zsum (map g xs).
Proof.
  unfold addEach. induction xs as [|x xs IH]; intros count; simpl.
  - lia.
  - rewrite IH. lia.
Qed.

Lemma addEach_zero {A} (g : A -> Z) xs count :
  (forall x, g x = 0) -> addEach g xs count = count.
Proof.
  intros H. rewrite addEach_sum.
  assert (zsum (map g xs) = 0) as ->; [|lia].
  induction xs as [|x xs IH]; simpl; [reflexivity|]. rewrite H, IH. reflexivity.
Qed.

Lemma FECondition_no_parens c :
  FECondition_GetTotalOpenParens c = 0 /\ FECondition_GetTotalCloseParens c = 0.
Proof.
  revert c. fix IH 1. intros [[n|] od]; simpl; [|split; reflexivity].
  destruct (IH n) as [-> ->]. split; reflexivity.
Qed.

(** X11.  A condition counts no parenthesis, whatever is nested under its
    [NOT]; the totals of an And-condition are the lengths of its own
    [OpenParens] and [CloseParens], and the totals of a [FilterExpression]
    are the sums over its And-conditions and its nested expressions. *)
Theorem parens_are_counted_on_and_conditions_only :
  (forall c, FECondition_GetTotalOpenParens c = 0 /\
             FECondition_GetTotalCloseParens c = 0) /\
  (forall op conds cl,
     FEAndCondition_GetTotalOpenParens (mkFEAndCondition op conds cl) = zlen op /\
     FEAndCondition_GetTotalCloseParens (mkFEAndCondition op conds cl) = zlen cl) /\
  (forall acs subs,
     FilterExpression_GetTotalOpenParens (mkFilterExpression acs subs) =
     zsum (map FEAndCondition_GetTotalOpenParens acs)
     + zsum (map FilterExpression_GetTotalOpenParens subs) /\
     FilterExpression_GetTotalCloseParens (mkFilterExpression acs subs) =
     zsum (map FEAndCondition_GetTotalCloseParens acs)
     + zsum (map FilterExpression_GetTotalCloseParens subs)).
Proof.
  split; [exact FECondition_no_parens|]. split.
  - intros op conds cl. unfold FEAndCondition_GetTotalOpenParens,
      FEAndCondition_GetTotalCloseParens.
    rewrite !addEach_zero by (intros x; apply FECondition_no_parens).
    split; reflexivity.
  - intros acs subs. cbn [FilterExpression_GetTotalOpenParens
                            FilterExpression_GetTotalCloseParens].
    rewrite !addEach_sum. split; lia.
Qed.


(** X12.  When [MakePcreExpression] does not return it,
    [ErrorMalformedParenthesis] comes from the check on the totals only: if
    the conversion returns it, the totals of opening and closing
    parentheses differ for the expression or for one nested in it. *)
Theorem ErrorMalformedParenthesis_needs_unbalanced_level ext f e :
  (forall s, snd (MakePcreExpression ext s) <> Some ErrorMalformedParenthesis) ->
  FilterExpression_OutputExpression ext f =
    Ret (e, Some ErrorMalformedParenthesis) ->
  everyLevelBalanced f = false.
Proof.
  intros Hpcre E. destruct (everyLevelBalanced f) eqn:Hb; [|reflexivity].
  exfalso. exact (FilterExpression_balanced_npe ext Hpcre f Hb e E).
Qed.

(** X12, an instance: the tree of [( TRUE AND ( TRUE ) )]. *)
Lemma ErrorMalformedParenthesis_needs_unbalanced_level_witness :
  everyLevelBalanced nestedParens = false.
Proof.
  apply (ErrorMalformedParenthesis_needs_unbalanced_level sampleExternals
           nestedParens (AndExpr [OrExpr [AndExpr [TrueExpr]]])).
  - intros s. simpl. discriminate.
  - reflexivity.
Defined.


Lemma FEOnePath_OutputOnePath_no_error ext p r :
  FEOnePath_OutputOnePath ext p = Ret r -> snd r = None.
Proof.
  destruct p as [pf sv ai]. unfold FEOnePath_OutputOnePath.
  destruct sv as [s|]; [intros E; injection E as <-; reflexivity|].
  destruct pf as [f|]; [intros E; injection E as <-; reflexivity|].
  simpl. discriminate.
Qed.

Lemma outputPath_no_error ext Path : forall acc r,
  outputPath ext Path acc = Ret r -> snd r = None.
Proof.
  induction Path as [|p Path IH]; intros acc r E; simpl in E.
  - injection E as <-. reflexivity.
  - unfold rbind in E.
    destruct (FEOnePath_OutputOnePath ext p) as [[[nm arr] err]| |] eqn:Ep;
      try discriminate.
    apply FEOnePath_OutputOnePath_no_error in Ep. simpl in Ep. subst err.
    eapply IH; eauto.
Qed.

(** X14.  [FEField.OutputExpression] returns an error only from the
    arithmetic: the field has a [MathOp], and the error is the one of the
    operator or the one of the [MathValue]; the expression it returns with
    the error is [nil].  The loop over the path returns no error. *)
Theorem FEField_errors_come_from_the_arithmetic
  ext MathNeg Path MathOp MathValue e err :
  FEField_OutputExpression ext (mkFEField MathNeg Path MathOp MathValue)
    = Ret (e, Some err) ->
  e = NilExpression /\
  exists op, MathOp = Some op /\
    (FEMathArithmeticOp_OutputExpression ext op = (NilExpression, Some err) \/
     exists mv, MathValue = Some mv /\
       FEMathValue_OutputExpression ext mv = (NilExpression, Some err)).
Proof.
  unfold FEField_OutputExpression, FEField_ShouldHandleSpecialValue,
    FEField_OutputExpressionSpecialAsValue.
  intros E.
  (* the special value returns no error *)
  assert (rbind (outputPath ext Path [])
            (fun r => match r with
               | (path, Some err0) => Ret (FieldExpr path, Some err0)
               | (path, None) =>
                 let outExpr := FieldExpr path in
                 if notNil MathNeg || (notNil MathOp && notNil MathValue) then
                   match MathOp with
                   | None => Ret (FuncExpr (MathFuncNeg ext) [outExpr], None)
                   | Some op =>
                     match FEMathArithmeticOp_OutputExpression ext op with
                     | (_, Some err0) => Ret (NilExpression, Some err0)
                     | (FuncExpr name params, None) =>
                       let params :=
                         if notNil MathNeg
                         then (params ++ [FuncExpr (MathFuncNeg ext) [outExpr]])%list
                         else (params ++ [outExpr])%list in
                       deref MathValue (fun mv =>
                       match FEMathValue_OutputExpression ext mv with
                       | (_, Some err0) => Ret (NilExpression, Some err0)
                       | (valueExpr, None) =>
                         Ret (FuncExpr name (params ++ [valueExpr])%list, None)
                       end)
                     | (_, None) =>
                       Crash (PanicMsg "interface conversion: not a FuncExpr")
                     end
                   end
                 else Ret (outExpr, None)
               end) = Ret (e, Some err)) as E'.
  { destruct Path as [|p0 [|p1 rest]]; try exact E.
    unfold rbind at 1 in E.
    destruct (FEOnePath_String ext p0) as [s| |]; try discriminate.
    cbn [rbind] in E.
    destruct (iso8601Year ext s || iso8601YearAndMonth ext s
              || iso8601CompleteDate ext s); cbn [rbind] in E;
      [discriminate|exact E]. }
  clear E. unfold rbind in E'.
  destruct (outputPath ext Path []) as [[path perr]| |] eqn:Ep; try discriminate.
  apply outputPath_no_error in Ep. simpl in Ep. subst perr.
  destruct (notNil MathNeg || notNil MathOp && notNil MathValue);
    [|discriminate].
  destruct MathOp as [op|]; [|discriminate].
  destruct (FEMathArithmeticOp_OutputExpression ext op) as [oe [oerr|]] eqn:Eop.
  - assert (oe = NilExpression) as ->.
    { unfold FEMathArithmeticOp_OutputExpression in Eop. destruct op.
      repeat match type of Eop with
             | (if ?c then _ else _) = _ => destruct c
             end; try discriminate; injection Eop as <- _; reflexivity. }
    injection E' as <- <-. split; [reflexivity|]. exists op. split; [reflexivity|].
    left. exact Eop.
  - destruct oe; try discriminate.
    destruct MathValue as [mv|]; [|discriminate]. cbn [deref] in E'.
    destruct (FEMathValue_OutputExpression ext mv) as [ve [verr|]] eqn:Emv;
      [|discriminate].
    assert (ve = NilExpression) as ->.
    { unfold FEMathValue_OutputExpression in Emv. destruct mv as [[i|] [x|]];
        simpl in Emv; try discriminate; injection Emv as <- _; reflexivity. }
    injection E' as <- <-. split; [reflexivity|]. exists op. split; [reflexivity|].
    right. exists mv. split; [reflexivity|exact Emv].
Qed.

(** X14, an instance: the field [price] with an operator that has no field
    set and the value 1. *)
Lemma FEField_errors_come_from_the_arithmetic_witness :
  let op := mkFEMathArithmeticOp None None None None None in
  let err := Errorf "Invalid FEMathArithmeticOp %v" ["?? (FEMathArithmeticOp)"] in
  NilExpression = NilExpression /\
  exists op', Some op = Some op' /\
    (FEMathArithmeticOp_OutputExpression sampleExternals op'
       = (NilExpression, Some err) \/
     exists mv, Some (mkFEMathValue (Some 1) None) = Some mv /\
       FEMathValue_OutputExpression sampleExternals mv
         = (NilExpression, Some err)).
Proof.
  intros op err.
  apply (FEField_errors_come_from_the_arithmetic sampleExternals None
           [mkFEOnePath None (Some (mkFEStringType "" "" "" "price")) []]
           (Some op) (Some (mkFEMathValue (Some 1) None)) NilExpression err).
  reflexivity.
Defined.


(** X13.  [FEOnePath.OutputOnePath] never returns its error: with neither
    [StrValue] nor [OnePathFunc] the message is built by [f.String()], which
    calls [String] on the [nil] [StrValue] and panics. *)
Theorem FEOnePath_OutputOnePath_never_returns_its_error ext p :
  match FEOnePath_OutputOnePath ext p with
  | Ret (_, _, err) => err = None
  | Crash c => c = NilDereference /\ exists ai, p = mkFEOnePath None None ai
  | NoFuel => False
  end.
Proof.
  destruct p as [[pf|] [sv|] ai]; simpl; try reflexivity.
  split; [reflexivity|]. exists ai. reflexivity.
Qed.


Lemma andConditionLoop_ok ext conds : forall acc e,
  andConditionLoop ext conds acc = Ret (e, None) <->
  exists xs, e = AndExpr (acc ++ xs) /\
    Forall2 (fun c y => FECondition_OutputExpression ext c = Ret (y, None))
            conds xs.
Proof.
  induction conds as [|c conds IH]; intros acc e; simpl.
  - split.
    + intros E. injection E as <-. exists []. rewrite app_nil_r.
      split; [reflexivity|constructor].
    + intros [xs [-> F]]. inversion F; subst. rewrite app_nil_r. reflexivity.
  - unfold rbind.
    destruct (FECondition_OutputExpression ext c) as [[x [err|]]| |] eqn:Ec.
    + split; [discriminate|]. intros [xs [_ F]]. inversion F; subst.
      congruence.
    + rewrite IH. split.
      * intros [xs [-> F]]. exists (x :: xs). rewrite <- app_assoc.
        split; [reflexivity|]. constructor; assumption.
      * intros [xs [-> F]]. inversion F as [|c' y l l' Hy Hrest]; subst.
        rewrite Ec in Hy. injection Hy as <-.
        exists l'. rewrite <- app_assoc. split; [reflexivity|assumption].
    + split; [discriminate|]. intros [xs [_ F]]. inversion F; subst.
      congruence.
    + split; [discriminate|]. intros [xs [_ F]]. inversion F; subst.
      congruence.
Qed.

Lemma FEAndCondition_ok ext ac x :
  FEAndCondition_OutputExpression ext ac = Ret (x, None) <-> andConverts ext ac x.
Proof.
  destruct ac as [op conds cl]. unfold FEAndCondition_OutputExpression, andConverts.
  rewrite andConditionLoop_ok. reflexivity.
Qed.

Lemma orLoop_ok ext conds : forall acc l,
  orLoop ext conds acc = Ret (l, None) <->
  exists xs, l = (acc ++ xs)%list /\ Forall2 (andConverts ext) conds xs.
Proof.
  induction conds as [|c conds IH]; intros acc l; simpl.
  - split.
    + intros E. injection E as <-. exists []. rewrite app_nil_r.
      split; [reflexivity|constructor].
    + intros [xs [-> F]]. inversion F; subst. rewrite app_nil_r. reflexivity.
  - unfold rbind.
    destruct (FEAndCondition_OutputExpression ext c) as [[x [err|]]| |] eqn:Ec.
    + split; [discriminate|]. intros [xs [_ F]]. inversion F; subst.
      match goal with H : andConverts _ _ _ |- _ =>
        apply FEAndCondition_ok in H; congruence end.
    + rewrite IH. split.
      * intros [xs [-> F]]. exists (x :: xs). rewrite <- app_assoc.
        split; [reflexivity|]. constructor; [|assumption].
        now apply FEAndCondition_ok.
      * intros [xs [-> F]]. inversion F as [|c' y l0 l' Hy Hrest]; subst.
        apply FEAndCondition_ok in Hy. rewrite Ec in Hy. injection Hy as <-.
        exists l'. rewrite <- app_assoc. split; [reflexivity|assumption].
    + split; [discriminate|]. intros [xs [_ F]]. inversion F; subst.
      match goal with H : andConverts _ _ _ |- _ =>
        apply FEAndCondition_ok in H; congruence end.
    + split; [discriminate|]. intros [xs [_ F]]. inversion F; subst.
      match goal with H : andConverts _ _ _ |- _ =>
        apply FEAndCondition_ok in H; congruence end.
Qed.

Lemma subFilterLoop_ok convert subs : forall acc e,
  subFilterLoop convert subs acc = Ret (e, None) <->
  exists ss, e = AndExpr (acc ++ ss) /\
    Forall2 (fun s x => convert s = Ret (x, None)) subs ss.
Proof.
  induction subs as [|c subs IH]; intros acc e; simpl.
  - split.
    + intros E. injection E as <-. exists []. rewrite app_nil_r.
      split; [reflexivity|constructor].
    + intros [xs [-> F]]. inversion F; subst. rewrite app_nil_r. reflexivity.
  - unfold rbind.
    destruct (convert c) as [[x [err|]]| |] eqn:Ec.
    + split; [discriminate|]. intros [xs [_ F]]. inversion F; subst.
      congruence.
    + rewrite IH. split.
      * intros [xs [-> F]]. exists (x :: xs). rewrite <- app_assoc.
        split; [reflexivity|]. constructor; assumption.
      * intros [xs [-> F]]. inversion F as [|c' y l l' Hy Hrest]; subst.
        rewrite Ec in Hy. injection Hy as <-.
        exists l'. rewrite <- app_assoc. split; [reflexivity|assumption].
    + split; [discriminate|]. intros [xs [_ F]]. inversion F; subst.
      congruence.
    + split; [discriminate|]. intros [xs [_ F]]. inversion F; subst.
      congruence.
Qed.

Lemma FilterExpression_elementwise ext acs subs e :
  FilterExpression_OutputExpression ext (mkFilterExpression acs subs)
    = Ret (e, None) <->
  FilterExpression_GetTotalOpenParens (mkFilterExpression acs subs) =
  FilterExpression_GetTotalCloseParens (mkFilterExpression acs subs) /\
  exists ors,
    Forall2 (andConverts ext) acs ors /\
    match subs with
    | [] => e = OrExpr ors
    | _ :: _ =>
      exists ss,
        Forall2 (fun s x => FilterExpression_OutputExpression ext s
                            = Ret (x, None)) subs ss /\
        e = AndExpr (OrExpr ors :: ss)
    end.
Proof.
  cbn [FilterExpression_OutputExpression].
  destruct (FilterExpression_GetTotalOpenParens (mkFilterExpression acs subs)
            =? FilterExpression_GetTotalCloseParens (mkFilterExpression acs subs))
    eqn:Htot; cbn [negb].
  2:{ apply Z.eqb_neq in Htot. split; [discriminate|]. intros [H _]. contradiction. }
  apply Z.eqb_eq in Htot. unfold rbind.
  destruct (orLoop ext acs []) as [[l [err|]]| |] eqn:Eor.
  - split; [discriminate|]. intros [_ [ors [F _]]].
    assert (orLoop ext acs [] = Ret (ors, None)) as E'
      by (apply orLoop_ok; exists ors; split; [reflexivity|exact F]).
    congruence.
  - apply orLoop_ok in Eor as Hor. destruct Hor as [xs [Hl F]]. simpl in Hl. subst l.
    destruct subs as [|s subs].
    + split.
      * intros E. injection E as <-. split; [exact Htot|]. exists xs.
        split; [exact F|reflexivity].
      * intros [_ [ors [F' ->]]].
        assert (orLoop ext acs [] = Ret (ors, None)) as E'
          by (apply orLoop_ok; exists ors; split; [reflexivity|exact F']).
        congruence.
    + rewrite subFilterLoop_ok. split.
      * intros [ss [-> Fs]]. split; [exact Htot|]. exists xs.
        split; [exact F|]. exists ss. split; [exact Fs|reflexivity].
      * intros [_ [ors [F' [ss [Fs ->]]]]].
        assert (orLoop ext acs [] = Ret (ors, None)) as E'
          by (apply orLoop_ok; exists ors; split; [reflexivity|exact F']).
        exists ss. split; [|exact Fs]. simpl. congruence.
  - split; [discriminate|]. intros [_ [ors [F _]]].
    assert (orLoop ext acs [] = Ret (ors, None)) as E'
      by (apply orLoop_ok; exists ors; split; [reflexivity|exact F]).
    congruence.
  - split; [discriminate|]. intros [_ [ors [F _]]].
    assert (orLoop ext acs [] = Ret (ors, None)) as E'
      by (apply orLoop_ok; exists ors; split; [reflexivity|exact F]).
    congruence.
Qed.

(** X15.  [FilterExpression.OutputExpression] returns without an error
    exactly when the totals of parentheses match and every And-condition and
    every nested expression converts without an error; the result is then
    the [OrExpr] of the converted And-conditions, each the [AndExpr] of its
    converted conditions, and with nested expressions the [AndExpr] of that
    [OrExpr] followed by the converted nested expressions, all in their
    order. *)
Theorem FilterExpression_converts_elementwise ext acs subs e :
  FilterExpression_OutputExpression ext (mkFilterExpression acs subs)
    = Ret (e, None) <->
  FilterExpression_GetTotalOpenParens (mkFilterExpression acs subs) =
  FilterExpression_GetTotalCloseParens (mkFilterExpression acs subs) /\
  exists ors,
    Forall2 (andConverts ext) acs ors /\
    match subs with
    | [] => e = OrExpr ors
    | _ :: _ =>
      exists ss,
        Forall2 (fun s x => FilterExpression_OutputExpression ext s
                            = Ret (x, None)) subs ss /\
        e = AndExpr (OrExpr ors :: ss)
    end.
Proof. apply FilterExpression_elementwise. Qed.

Section NoNil.
Variable ext : Externals.
Hypothesis Hpcre : forall s, soundPair (MakePcreExpression ext s).

Lemma sound_Ret p : soundPair p -> soundResult (Ret p).
Proof. intros H q E. injection E as <-. exact H. Qed.

Lemma sound_Crash p : soundResult (Crash p).
Proof. intros q E. discriminate. Qed.

Lemma sound_err e err : soundPair (e, Some err).
Proof. unfold soundPair. simpl. discriminate. Qed.

Lemma sound_ok e : noNil e = true -> soundPair (e, None).
Proof. unfold soundPair. simpl. auto. Qed.

Lemma sound_bind {A} (r : result A) k :
  (forall a, r = Ret a -> soundResult (k a)) -> soundResult (rbind r k).
Proof.
  intros H. destruct r; simpl; [now apply H| |]; intros q E; discriminate.
Qed.

Lemma sound_step r k :
  soundResult r ->
  (forall e err, soundResult (k (e, Some err))) ->
  (forall e, noNil e = true -> soundResult (k (e, None))) ->
  soundResult (rbind r k).
Proof.
  intros Hr Hs Hn. apply sound_bind. intros [e [err|]] E; [apply Hs|].
  apply Hn. exact (Hr _ E eq_refl).
Qed.

Ltac sound_pair :=
  repeat match goal with
         | |- soundPair (if ?c then _ else _) => destruct c
         | |- soundPair (match ?x with _ => _ end) => destruct x
         | |- soundPair (_, Some _) => apply sound_err
         | |- soundPair (_, None) => apply sound_ok; simpl; auto
         end.

Lemma FEBoolean_sound f a : soundPair (FEBoolean_OutputExpression f a).
Proof. unfold FEBoolean_OutputExpression. sound_pair. Qed.

Lemma FEValue_sound f : soundPair (FEValue_OutputExpression ext f).
Proof. unfold FEValue_OutputExpression. sound_pair. Qed.

Lemma FEMathValue_sound f : soundPair (FEMathValue_OutputExpression ext f).
Proof. unfold FEMathValue_OutputExpression. sound_pair. Qed.

Lemma FECheckOp_sound f e :
  noNil e = true -> soundPair (FECheckOp_OutputExpression ext f e).
Proof.
  intros H. unfold FECheckOp_OutputExpression. sound_pair; rewrite H; reflexivity.
Qed.

Lemma FECompareOp_sound f l r :
  noNil l = true -> noNil r = true ->
  soundPair (FECompareOp_OutputExpression ext f l r).
Proof.
  intros Hl Hr. unfold FECompareOp_OutputExpression.
  sound_pair; rewrite Hl, Hr; reflexivity.
Qed.

Lemma FEConstFuncNoArg_sound f :
  soundPair (FEConstFuncNoArg_OutputExpression f).
Proof. unfold FEConstFuncNoArg_OutputExpression. sound_pair. Qed.

Ltac sound :=
  repeat match goal with
         | |- soundResult (rbind _ _) => apply sound_bind; intros ? ?
         | |- soundResult (deref ?p _) => destruct p; cbn [deref]
         | |- soundResult (Crash _) => apply sound_Crash
         | |- soundResult (Ret (_, Some _)) => apply sound_Ret, sound_err
         | |- soundResult (Ret (_, None)) =>
           apply sound_Ret, sound_ok; simpl; auto
         | |- soundResult (if ?c then _ else _) => destruct c
         | |- soundResult (match ?x with _ => _ end) => destruct x eqn:?
         end.

Lemma FEField_sound f : soundResult (FEField_OutputExpression ext f).
Proof.
  unfold FEField_OutputExpression, FEField_OutputExpressionSpecialAsValue.
  destruct f as [MathNeg Path MathOp MathValue].
  apply sound_bind; intros special _. destruct special; [sound|].
  apply sound_bind; intros [path [err|]] Hr; [sound|].
  destruct (notNil MathNeg || notNil MathOp && notNil MathValue); [|sound].
  destruct MathOp as [op|]; [|sound].
  destruct (FEMathArithmeticOp_OutputExpression ext op) as [oe [oerr|]] eqn:Eop;
    [destruct oe; sound|].
  assert (exists name, oe = FuncExpr name []) as [name ->].
  { unfold FEMathArithmeticOp_OutputExpression in Eop. destruct op.
    repeat match type of Eop with
           | (if ?c then _ else _) = _ => destruct c
           end; try discriminate; injection Eop as <-; eexists; reflexivity. }
  destruct MathValue as [mv|]; cbn [deref]; [|apply sound_Crash].
  pose proof (FEMathValue_sound mv) as Hmv.
  destruct (FEMathValue_OutputExpression ext mv) as [ve [verr|]]; [sound|].
  specialize (Hmv eq_refl). simpl in Hmv.
  apply sound_Ret, sound_ok. destruct (notNil MathNeg); simpl; rewrite Hmv;
    reflexivity.
Qed.

Lemma FEConstFuncExpression_sound :
  forall f : FEConstFuncExpression,
    soundResult (FEConstFuncExpression_OutputExpression ext f)
with FEConstFuncOneArg_sound :
  forall f : FEConstFuncOneArg,
    soundResult (FEConstFuncOneArg_OutputExpression ext f)
with FEConstFuncTwoArgs_sound :
  forall f : FEConstFuncTwoArgs,
    soundResult (FEConstFuncTwoArgs_OutputExpression ext f)
with FEConstFuncArgument_sound :
  forall f : FEConstFuncArgument,
    soundResult (FEConstFuncArgument_OutputExpression ext f).
Proof.
  - intros f. destruct f as [na oa ta].
    cbn [FEConstFuncExpression_OutputExpression].
    destruct na as [n|]; [apply sound_Ret, FEConstFuncNoArg_sound|].
    destruct oa as [o|]; [apply FEConstFuncOneArg_sound|].
    destruct ta as [t|]; [apply FEConstFuncTwoArgs_sound|].
    apply sound_bind; intros s _. apply sound_Ret, sound_err.
  - intros f. destruct f as [nm arg]. cbn [FEConstFuncOneArg_OutputExpression].
    destruct nm as [fname|]; destruct arg as [argument|];
      try (apply sound_bind; intros s _; apply sound_Ret, sound_err).
    destruct (FEConstFuncOneArgName_OutputExpression ext fname) as [name [err|]].
    + apply sound_Ret, sound_err.
    + apply sound_step; [apply FEConstFuncArgument_sound| |].
      * intros e err. apply sound_Ret, sound_err.
      * intros e He. apply sound_Ret, sound_ok. simpl. rewrite He. reflexivity.
  - intros f. destruct f as [nm arg0 arg1].
    cbn [FEConstFuncTwoArgs_OutputExpression].
    destruct nm as [fname|]; destruct arg0 as [argument0|];
      destruct arg1 as [argument1|];
      try (apply sound_bind; intros s _; apply sound_Ret, sound_err).
    destruct (FEConstFuncTwoArgsName_OutputExpression ext fname) as [name [err|]].
    + apply sound_Ret, sound_err.
    + apply sound_step; [apply FEConstFuncArgument_sound| |].
      * intros e err. apply sound_Ret, sound_err.
      * intros e He. apply sound_step; [apply FEConstFuncArgument_sound| |].
        -- intros e' err. apply sound_Ret, sound_err.
        -- intros e' He'. apply sound_Ret, sound_ok. simpl.
           rewrite He, He'. reflexivity.
  - intros f. destruct f as [sf fld arg].
    cbn [FEConstFuncArgument_OutputExpression].
    destruct arg as [v|]; [apply sound_Ret, FEValue_sound|].
    destruct fld as [fl|]; [apply FEField_sound|].
    destruct sf as [s|]; [apply FEConstFuncExpression_sound|].
    apply sound_bind; intros s _. apply sound_Ret, sound_err.
Qed.

Lemma FEConstFuncArgumentRHS_regex_sound f :
  soundResult (FEConstFuncArgumentRHS_OutputRegexExpression ext f).
Proof.
  unfold FEConstFuncArgumentRHS_OutputRegexExpression. destruct f as [sf arg].
  destruct arg as [v|].
  - destruct (tokenIsPcreValueType ext (FEValue_String ext v)).
    + apply sound_Ret, Hpcre.
    + apply sound_Ret, sound_ok. reflexivity.
  - apply sound_bind; intros s _. apply sound_Ret, sound_err.
Qed.

Lemma FEBooleanFuncTwoArgs_sound f :
  soundResult (FEBooleanFuncTwoArgs_OutputExpression ext f).
Proof.
  unfold FEBooleanFuncTwoArgs_OutputExpression.
  destruct f as [nm arg0 arg1].
  assert (soundResult
            (deref nm (fun name =>
               Ret (NilExpression,
                    Some (Errorf "Invalid FEBooleanFuncTwoArgs %v"
                            [FEBooleanFuncTwoArgsName_String ext name])))))
    as Helse.
  { destruct nm; cbn [deref]; [apply sound_Ret, sound_err|apply sound_Crash]. }
  destruct nm as [[[[|]|]]|]; try exact Helse;
    destruct arg0 as [argument0|]; try exact Helse;
    destruct arg1 as [argument1|]; try exact Helse.
  cbn.
  apply sound_step; [apply FEConstFuncArgument_sound| |].
  - intros e err. apply sound_Ret, sound_err.
  - intros e He.
    apply sound_step; [apply FEConstFuncArgumentRHS_regex_sound| |].
    + intros e' err. apply sound_Ret, sound_err.
    + intros e' He'. apply sound_Ret, sound_ok. simpl. rewrite He, He'.
      reflexivity.
Qed.

Lemma FEExistsClause_sound f :
  soundResult (FEExistsClause_OutputExpression ext f).
Proof.
  unfold FEExistsClause_OutputExpression. destruct f as [[fld|]].
  - apply sound_step; [apply FEField_sound| |].
    + intros e err. apply sound_Ret, sound_err.
    + intros e He. apply sound_Ret, sound_ok. exact He.
  - apply sound_bind; intros s _. apply sound_Ret, sound_err.
Qed.

Lemma FEBooleanFuncExpr_sound f :
  soundResult (FEBooleanFuncExpr_OutputExpression ext f).
Proof.
  unfold FEBooleanFuncExpr_OutputExpression. destruct f as [[ta|] [ec|]];
    try apply FEBooleanFuncTwoArgs_sound; try apply FEExistsClause_sound.
  apply sound_Ret, sound_err.
Qed.

Lemma FEBooleanExpr_sound f :
  soundResult (FEBooleanExpr_OutputExpression ext f).
Proof.
  unfold FEBooleanExpr_OutputExpression. destruct f as [[b|] [bf|]];
    try apply sound_Ret, FEBoolean_sound; try apply FEBooleanFuncExpr_sound.
  apply sound_bind; intros s _. apply sound_Ret, sound_err.
Qed.

Lemma FELhs_sound f : soundResult (FELhs_OutputExpression ext f).
Proof.
  unfold FELhs_OutputExpression. destruct f as [fn b fld v].
  destruct fld; [apply FEField_sound|].
  destruct v; [apply sound_Ret, FEValue_sound|].
  destruct fn; [apply FEConstFuncExpression_sound|].
  destruct b; [apply sound_Ret, FEBoolean_sound|].
  apply sound_bind; intros s _. apply sound_Ret, sound_err.
Qed.

Lemma FERhs_sound f : soundResult (FERhs_OutputExpression ext f).
Proof.
  unfold FERhs_OutputExpression. destruct f as [fn b v fld].
  destruct fld; [apply FEField_sound|].
  destruct v; [apply sound_Ret, FEValue_sound|].
  destruct fn; [apply FEConstFuncExpression_sound|].
  destruct b; [apply sound_Ret, FEBoolean_sound|].
  apply sound_bind; intros s _. apply sound_Ret, sound_err.
Qed.

Lemma FEOperand_sound f : soundResult (FEOperand_OutputExpression ext f).
Proof.
  unfold FEOperand_OutputExpression. destruct f as [be lhs op rhs co].
  destruct be; [apply FEBooleanExpr_sound|].
  destruct lhs as [l|];
    [|apply sound_bind; intros s _; apply sound_Ret, sound_err].
  apply sound_step; [apply FELhs_sound| |].
  - intros e err. apply sound_Ret, sound_err.
  - intros e He. destruct co; [now apply sound_Ret, FECheckOp_sound|].
    destruct op as [o|]; destruct rhs as [r|];
      try (apply sound_bind; intros s _; apply sound_Ret, sound_err).
    apply sound_step; [apply FERhs_sound| |].
    + intros e' err. apply sound_Ret, sound_err.
    + intros e' He'. now apply sound_Ret, FECompareOp_sound.
Qed.

Lemma FECondition_sound :
  forall f : FECondition, soundResult (FECondition_OutputExpression ext f).
Proof.
  fix IH 1. intros f. destruct f as [nt od].
  cbn [FECondition_OutputExpression].
  destruct nt as [n|].
  - apply sound_bind. intros [e err] E. apply sound_Ret.
    unfold soundPair. simpl. intros ->. exact (IH n _ E eq_refl).
  - destruct od; [apply FEOperand_sound|].
    apply sound_bind; intros s _. apply sound_Ret, sound_err.
Qed.

Lemma Forall2_sound {A} (convert : A -> result (Expression * option error))
  xs ys :
  Forall (fun x => soundResult (convert x)) xs ->
  Forall2 (fun x y => convert x = Ret (y, None)) xs ys ->
  forallb noNil ys = true.
Proof.
  intros Hall F. induction F as [|x y xs ys Hxy F IH]; [reflexivity|].
  apply Forall_cons_iff in Hall as [Hx Hall].
  pose proof (Hx _ Hxy eq_refl) as Hy. simpl in Hy. simpl.
  rewrite Hy. now apply IH.
Qed.

Lemma andConverts_sound ac x : andConverts ext ac x -> noNil x = true.
Proof.
  destruct ac as [op conds cl]. intros [xs [-> F]]. simpl.
  eapply Forall2_sound; [|exact F].
  apply Forall_forall. intros c _. apply FECondition_sound.
Qed.

Lemma FilterExpression_sound f e :
  FilterExpression_OutputExpression ext f = Ret (e, None) -> noNil e = true.
Proof.
  revert e. induction f as [acs subs IH] using FilterExpression_nested_ind.
  intros e E. apply FilterExpression_elementwise in E.
  destruct E as [_ [ors [F Hsubs]]].
  assert (forallb noNil ors = true) as Hors.
  { clear - F Hpcre. induction F as [|a x acs ors Hax F IHF]; [reflexivity|].
    simpl. rewrite (andConverts_sound _ _ Hax). exact IHF. }
  destruct subs as [|s subs]; [subst e; exact Hors|].
  destruct Hsubs as [ss [Fs ->]]. simpl. rewrite Hors. simpl.
  clear - IH Fs. revert IH Fs. generalize (s :: subs). intros l IH Fs.
  induction Fs as [|a x l' ss' Hax Fs IHF]; [reflexivity|].
  apply Forall_cons_iff in IH as [Ha IH]. simpl.
  rewrite (Ha _ Hax). now apply IHF.
Qed.
End NoNil.

(** X16.  When [MakePcreExpression] returns no [nil] without an error, a
    conversion that returns without an error returns an expression that
    holds no [nil], at the top or nested: every [nil] that a method of the
    syntax tree returns comes with an error, and every caller checks it. *)
Theorem successful_conversion_has_no_nil ext f e :
  (forall s, snd (MakePcreExpression ext s) = None ->
             noNil (fst (MakePcreExpression ext s)) = true) ->
  FilterExpression_OutputExpression ext f = Ret (e, None) -> noNil e = true.
Proof. intros Hpcre. apply FilterExpression_sound. exact Hpcre. Qed.

(** X15, an instance: [TRUE AND TRUE]. *)
Lemma FilterExpression_converts_elementwise_witness :
  FilterExpression_GetTotalOpenParens trueAndTrue =
  FilterExpression_GetTotalCloseParens trueAndTrue /\
  exists ors,
    Forall2 (andConverts sampleExternals)
            [mkFEAndCondition [] [conditionTrue] []] ors /\
    exists ss,
      Forall2 (fun s x => FilterExpression_OutputExpression sampleExternals s
                          = Ret (x, None))
              [mkFilterExpression [mkFEAndCondition [] [conditionTrue] []] []]
              ss /\
      AndExpr [OrExpr [AndExpr [TrueExpr]]; OrExpr [AndExpr [TrueExpr]]]
      = AndExpr (OrExpr ors :: ss).
Proof.
  apply (proj1 (FilterExpression_converts_elementwise sampleExternals
                  [mkFEAndCondition [] [conditionTrue] []]
                  [mkFilterExpression [mkFEAndCondition [] [conditionTrue] []] []]
                  (AndExpr [OrExpr [AndExpr [TrueExpr]];
                            OrExpr [AndExpr [TrueExpr]]]))).
  reflexivity.
Defined.

(** X16, an instance: [TRUE AND TRUE]. *)
Lemma successful_conversion_has_no_nil_witness :
  noNil (AndExpr [OrExpr [AndExpr [TrueExpr]]; OrExpr [AndExpr [TrueExpr]]])
  = true.
Proof.
  apply (successful_conversion_has_no_nil sampleExternals trueAndTrue).
  - intros s _. reflexivity.
  - reflexivity.
Defined.

(** X17.  With one or two characters read as the grammar reads them,
    [FECompareOp.OutputExpression] accepts the eight spellings [=], [==],
    [!=], [<>], [>], [>=], [<] and [<=]; any other character or pair is
    refused with an error that carries the characters. *)
Theorem FECompareOp_accepts_eight_spellings ext c0 oc1 lhs rhs :
  oneCharSet c0 = true ->
  match oc1 with Some c1 => oneCharSet c1 = true | None => True end ->
  let f := mkFECompareOp (Some c0) oc1 in
  let text := compareOpText f in
  FECompareOp_OutputExpression ext f lhs rhs =
  if (text =? "=")%string || (text =? "==")%string
  then (EqualsExpr lhs rhs, None)
  else if (text =? "!=")%string || (text =? "<>")%string
  then (NotEqualsExpr lhs rhs, None)
  else if (text =? ">")%string then (GreaterThanExpr lhs rhs, None)
  else if (text =? ">=")%string then (GreaterEqualsExpr lhs rhs, None)
  else if (text =? "<")%string then (LessThanExpr lhs rhs, None)
  else if (text =? "<=")%string then (LessEqualsExpr lhs rhs, None)
  else (NilExpression, Some (Errorf "Invalid FECompareOp %v" [text])).
Proof.
  intros H0 H1.
  destruct c0 as [[n0|] [e0|] [l0|] [g0|]]; try discriminate H0;
    destruct oc1 as [[[n1|] [e1|] [l1|] [g1|]]|]; try discriminate H1;
    reflexivity.
Qed.

(** X17, an instance: [<>] is [NotEqualsExpr]. *)
Lemma FECompareOp_accepts_eight_spellings_witness :
  let f := mkFECompareOp (Some (mkFEOpChar None None (Some true) None))
                         (Some (mkFEOpChar None None None (Some true))) in
  FECompareOp_OutputExpression sampleExternals f TrueExpr FalseExpr =
  (NotEqualsExpr TrueExpr FalseExpr, None).
Proof.
  apply (FECompareOp_accepts_eight_spellings sampleExternals
           (mkFEOpChar None None (Some true) None)
           (Some (mkFEOpChar None None None (Some true))) TrueExpr FalseExpr);
    reflexivity.
Defined.
